(** * MapGPS / GeoReferencer: the georeferencing core, embedded in Rocq

    A shallow embedding of the numerical core of the GeoReferencer
    application (math-utils.js, affine-transformation.js,
    georeferencing.js, route-spot-handler.js, coordinate-display.js):
    coordinate math, the linear solver, the affine estimator, the
    identifier matching engine, route and spot de-duplication, and the
    position synchronisation of markers.

    JavaScript numbers are kept abstract behind the class [JSNumber], with
    two instances: IEEE binary64 (Rocq's primitive floats, the arithmetic
    a JavaScript engine performs) and an exact model (rationals plus NaN)
    on which sample inputs are evaluated besides.  What is proved of the
    code is proved for every instance or for binary64. *)

From Stdlib Require Import ZArith QArith Qcanon Floats Uint63 Lia Btauto.
From stdpp Require Import base option list gmap strings pretty.

Local Open Scope nat_scope.

(** ** JavaScript numbers *)

(** The operations the modelled code performs on numbers.  [num_lt a b] is
    [a < b] (and [a > b] is [num_lt b a]); [num_nan] is what [undefined]
    becomes when it enters arithmetic; [num_truthy x] is the truth value
    of [x] in a condition ([x] is neither zero nor NaN). *)
Class JSNumber (T : Type) : Type := {
  num_of_Q : Q -> T;
  num_add : T -> T -> T;
  num_sub : T -> T -> T;
  num_mul : T -> T -> T;
  num_div : T -> T -> T;
  num_abs : T -> T;
  num_lt : T -> T -> bool;
  num_nan : T;
  num_truthy : T -> bool
}.

(** The part of the [Math] object the code calls.  ECMAScript leaves the
    transcendental functions implementation-approximated, so they stay
    uninterpreted parameters of the development. *)
Class JSMath (T : Type) : Type := {
  Math_PI : T;
  Math_log : T -> T;
  Math_tan : T -> T;
  Math_atan : T -> T;
  Math_exp : T -> T;
  Math_sqrt : T -> T;
  Math_pow : T -> T -> T;
  Math_max : list T -> T;
  Math_min : list T -> T
}.

(** *** Instance 1: IEEE 754 binary64 *)

Definition float_of_Z (z : Z) : float :=
  if (z <? 0)%Z then PrimFloat.opp (PrimFloat.of_uint63 (Uint63.of_Z (- z)))
  else PrimFloat.of_uint63 (Uint63.of_Z z).

(** A decimal literal [p/q] with [p] and [q] below 2^53: both convert
    exactly and the division rounds once, as the literal's parser does. *)
Definition float_of_Q (q : Q) : float :=
  PrimFloat.div (float_of_Z (Qnum q)) (float_of_Z (Zpos (Qden q))).

Definition float_is_nan (x : float) : bool := negb (PrimFloat.eqb x x).

Definition float_truthy (x : float) : bool :=
  negb (PrimFloat.eqb x PrimFloat.zero) && negb (float_is_nan x).

#[export] Instance float_number : JSNumber float := {|
  num_of_Q := float_of_Q;
  num_add := PrimFloat.add;
  num_sub := PrimFloat.sub;
  num_mul := PrimFloat.mul;
  num_div := PrimFloat.div;
  num_abs := PrimFloat.abs;
  num_lt := PrimFloat.ltb;
  num_nan := PrimFloat.nan;
  num_truthy := float_truthy
|}.

(** A [Math] for binary64, used to evaluate the model on sample inputs.
    The square root is IEEE's; the transcendental functions are series
    approximations, one admissible reading of what ECMAScript leaves
    implementation-approximated.  No theorem depends on this choice. *)
Section SeriesMath.
Local Open Scope float_scope.

Fixpoint exp_series (fuel : nat) (r k term acc : float) : float :=
  match fuel with
  | O => acc
  | S fuel =>
    let term := term * r / k in
    exp_series fuel r (k + 1) term (acc + term)
  end.

Fixpoint square_times (n : nat) (x : float) : float :=
  match n with O => x | S n => square_times n (x * x) end.

Definition series_exp (x : float) : float :=
  square_times 10 (exp_series 14 (x / 1024) 1 1 1).

Fixpoint sqrt_times (n : nat) (x : float) : float :=
  match n with O => x | S n => sqrt_times n (PrimFloat.sqrt x) end.

(** [sum of z^(2k+1) / (2k+1)], with sign [s] between terms. *)
Fixpoint odd_series (fuel : nat) (s z2 power k acc : float) : float :=
  match fuel with
  | O => acc
  | S fuel =>
    let power := s * power * z2 in
    odd_series fuel s z2 power (k + 2) (acc + power / (k + 2))
  end.

Definition series_log (x : float) : float :=
  let y := sqrt_times 8 x in
  let z := (y - 1) / (y + 1) in
  256 * (2 * odd_series 12 1 (z * z) z 1 z).

Fixpoint alternating_series (fuel : nat) (x2 k term acc : float) : float :=
  match fuel with
  | O => acc
  | S fuel =>
    let term := - term * x2 / ((k + 1) * (k + 2)) in
    alternating_series fuel x2 (k + 2) term (acc + term)
  end.

Definition series_tan (x : float) : float :=
  alternating_series 14 (x * x) 1 x x / alternating_series 14 (x * x) 0 1 1.

Fixpoint halve_angle (n : nat) (x : float) : float :=
  match n with O => x | S n => halve_angle n (x / (1 + PrimFloat.sqrt (1 + x * x))) end.

Definition series_atan (x : float) : float :=
  let z := halve_angle 4 x in
  16 * odd_series 12 (-1) (z * z) z 1 z.

Definition series_pow (x y : float) : float :=
  if PrimFloat.eqb y 2 then x * x
  else if PrimFloat.eqb y 1 then x
  else if PrimFloat.eqb y 0 then 1
  else series_exp (y * series_log x).

(** [Math.max(...values)] and [Math.min(...values)]: NaN if any value is
    NaN, the infinite identity for no value. *)
Definition float_max (values : list float) : float :=
  fold_left (fun acc v =>
               if float_is_nan acc || float_is_nan v then PrimFloat.nan
               else if PrimFloat.ltb acc v then v else acc)
            values PrimFloat.neg_infinity.

Definition float_min (values : list float) : float :=
  fold_left (fun acc v =>
               if float_is_nan acc || float_is_nan v then PrimFloat.nan
               else if PrimFloat.ltb v acc then v else acc)
            values PrimFloat.infinity.

End SeriesMath.

#[export] Instance series_math : JSMath float := {|
  Math_PI := 0x1.921fb54442d18p+1%float;
  Math_log := series_log;
  Math_tan := series_tan;
  Math_atan := series_atan;
  Math_exp := series_exp;
  Math_sqrt := PrimFloat.sqrt;
  Math_pow := series_pow;
  Math_max := float_max;
  Math_min := float_min
|}.

(** *** Instance 2: exact rationals with NaN *)

(** [XFin q] is the finite number [q]; [XNaN] is NaN.  There are no
    infinities and no rounding: a division by zero gives [XNaN]. *)
Inductive xnum : Type :=
| XFin (q : Qc)
| XNaN.

Definition Qc_ltb (a b : Qc) : bool :=
  match (a ?= b)%Qc with Lt => true | _ => false end.

Definition Qc_abs (a : Qc) : Qc := if Qc_ltb a 0%Qc then (- a)%Qc else a.

Definition xnum_lift2 (f : Qc -> Qc -> Qc) (x y : xnum) : xnum :=
  match x, y with
  | XFin a, XFin b => XFin (f a b)
  | _, _ => XNaN
  end.

Definition xnum_div (x y : xnum) : xnum :=
  match x, y with
  | XFin a, XFin b => if Qc_eq_bool b 0%Qc then XNaN else XFin (a / b)%Qc
  | _, _ => XNaN
  end.

Definition xnum_abs (x : xnum) : xnum :=
  match x with XFin a => XFin (Qc_abs a) | XNaN => XNaN end.

Definition xnum_lt (x y : xnum) : bool :=
  match x, y with
  | XFin a, XFin b => Qc_ltb a b
  | _, _ => false
  end.

Definition xnum_truthy (x : xnum) : bool :=
  match x with XFin a => negb (Qc_eq_bool a 0%Qc) | XNaN => false end.

#[export] Instance xnum_number : JSNumber xnum := {|
  num_of_Q := fun q => XFin (Q2Qc q);
  num_add := xnum_lift2 Qcplus;
  num_sub := xnum_lift2 Qcminus;
  num_mul := xnum_lift2 Qcmult;
  num_div := xnum_div;
  num_abs := xnum_abs;
  num_lt := xnum_lt;
  num_nan := XNaN;
  num_truthy := xnum_truthy
|}.

(** Equality test on exact numbers, for stating computed results. *)
Definition xnum_eqb (x y : xnum) : bool :=
  match x, y with
  | XFin a, XFin b => Qc_eq_bool a b
  | XNaN, XNaN => true
  | _, _ => false
  end.

(** Case analysis on the comparisons of indices in a goal. *)
Ltac nat_cases :=
  repeat match goal with
         | |- context [?a <=? ?b] => destruct (Nat.leb_spec a b)
         | |- context [?a <? ?b] => destruct (Nat.ltb_spec a b)
         | |- context [?a =? ?b] => destruct (Nat.eqb_spec a b)
         end;
  cbn [andb orb negb]; try subst; try lia; try reflexivity.

Section GeoReferencer.
Context {T : Type} {N : JSNumber T}.

(** ** JavaScript values of the model *)

(** An optional numeric property: [None] is [undefined]. *)
Definition opt_truthy (o : option T) : bool :=
  match o with Some x => num_truthy x | None => false end.

(** [undefined] coerced by an arithmetic operator. *)
Definition opt_num (o : option T) : T :=
  match o with Some x => x | None => num_nan end.

(** Truthiness of an optional string: absent and empty are falsy. *)
Definition str_truthy (o : option string) : bool :=
  match o with Some s => negb (String.eqb s "") | None => false end.

(** [a || b] on optional strings. *)
Definition str_or (a b : option string) : option string :=
  if str_truthy a then a else b.

(** [Math.abs(a - b) < tol] *)
Definition within (tol a b : T) : bool :=
  num_lt (num_abs (num_sub a b)) tol.

(** ** Coordinate math (math-utils.js) *)

Definition WEB_MERCATOR_MAX : T := num_of_Q (2003750834 # 100).

Definition lonToWebMercatorX (lon : T) : T :=
  num_div (num_mul lon WEB_MERCATOR_MAX) (num_of_Q 180).

Definition webMercatorXToLon (x : T) : T :=
  num_div (num_mul x (num_of_Q 180)) WEB_MERCATOR_MAX.

Record LatLng : Type := mkLatLng { lat : T; lng : T }.

(** A Leaflet [LatLngBounds], read through getSouthWest / getNorthEast. *)
Record LatLngBounds : Type := mkBounds { southWest : LatLng; northEast : LatLng }.

Definition convertImageCoordsToGps
  (imageX imageY : T) (imageBounds : option LatLngBounds)
  (imageWidth imageHeight : option T) : option (T * T) :=
  match imageBounds with
  | None => None
  | Some b =>
    if negb (opt_truthy imageWidth) || negb (opt_truthy imageHeight) then None
    else
      let sw := southWest b in
      let ne := northEast b in
      let xRatio := num_div imageX (opt_num imageWidth) in
      let yRatio := num_div imageY (opt_num imageHeight) in
      let lng' := num_add (lng sw) (num_mul (num_sub (lng ne) (lng sw)) xRatio) in
      let lat' := num_sub (lat ne) (num_mul (num_sub (lat ne) (lat sw)) yRatio) in
      Some (lat', lng')
  end.

Definition latToWebMercatorY `{JSMath T} (lat : T) : T :=
  let y := num_div
             (Math_log (Math_tan (num_div (num_mul (num_add (num_of_Q 90) lat) Math_PI)
                                          (num_of_Q 360))))
             (num_div Math_PI (num_of_Q 180)) in
  num_div (num_mul y WEB_MERCATOR_MAX) (num_of_Q 180).

Definition webMercatorYToLat `{JSMath T} (y : T) : T :=
  let lat := num_div (num_mul y (num_of_Q 180)) WEB_MERCATOR_MAX in
  num_mul (num_div (num_of_Q 180) Math_PI)
    (num_sub
       (num_mul (num_of_Q 2)
          (Math_atan (Math_exp (num_div (num_mul lat Math_PI) (num_of_Q 180)))))
       (num_div Math_PI (num_of_Q 2))).

(** ** Data of the estimator and the matching engine *)

(** An entry of the point JSON: identifier fields and pixel coordinates. *)
Record PointJson : Type := mkPointJson {
  pj_Id : option string;
  pj_id : option string;
  pj_name : option string;
  pj_imageX : option T;
  pj_imageY : option T
}.

Record GpsPoint : Type := mkGpsPoint {
  gps_pointId : option string;
  gps_lat : T;
  gps_lng : T
}.

(** A matched pair, [{pointJsonId, pointJson, gpsPoint}]. *)
Record ControlPoint : Type := mkControlPoint {
  pointJsonId : string;
  pointJson : PointJson;
  gpsPoint : GpsPoint
}.

(** The six coefficients [{a, b, c, d, e, f}]. *)
Record AffineParams : Type := mkAffineParams {
  tr_a : T; tr_b : T; tr_c : T; tr_d : T; tr_e : T; tr_f : T
}.

Record AccuracyReport : Type := mkAccuracy {
  meanError : T; maxError : T; minError : T; errors : list T
}.

(** The object calculatePreciseTransformation returns. *)
Record Transformation : Type := mkTransformation {
  t_type : string;
  t_transformation : option AffineParams;
  t_accuracy : AccuracyReport;
  t_controlPoints : list ControlPoint;
  t_usedPoints : nat
}.

Definition applyAffineTransform `{JSMath T}
  (imageX imageY : T) (transformation : option Transformation) : option (T * T) :=
  match transformation with
  | None => None
  | Some t =>
    match t_transformation t with
    | None => None
    | Some trans =>
      let webMercatorX :=
        num_add (num_add (num_mul (tr_a trans) imageX) (num_mul (tr_b trans) imageY))
                (tr_c trans) in
      let webMercatorY :=
        num_add (num_add (num_mul (tr_d trans) imageX) (num_mul (tr_e trans) imageY))
                (tr_f trans) in
      Some (webMercatorYToLat webMercatorY, webMercatorXToLon webMercatorX)
    end
  end.

(** ** JavaScript arrays of numbers *)

(** [row[j]] read by an arithmetic operator: a missing element is
    [undefined], hence NaN. *)
Definition aget (row : list T) (j : nat) : T := nth j row num_nan.

(** [row[j] = v]: in range the element is replaced; past the end the array
    grows, and the holes left before [j] read as [undefined]. *)
Definition aset (row : list T) (j : nat) (v : T) : list T :=
  if j <? length row then <[j := v]> row
  else row ++ replicate (j - length row) num_nan ++ [v].

(** A matrix is an array of rows. *)
Local Abbreviation Matrix := (list (list T)).

(** [M[k]] for a row index the loops keep in range. *)
Definition mget (M : Matrix) (k : nat) : list T := nth k M [].

(** How a call completes: with a value, or abruptly by an exception. *)
Inductive completion (A : Type) : Type :=
| Return (v : A)
| Throw.
Global Arguments Return {A} v.
Global Arguments Throw {A}.

(** ** Linear solver (math-utils.js) *)

Definition transpose (matrix : option Matrix) : option Matrix :=
  match matrix with
  | None => None
  | Some [] => None
  | Some (row0 :: rest) =>
    Some (imap (fun colIndex _ => map (fun row => aget row colIndex) (row0 :: rest)) row0)
  end.

Definition multiply (a b : option Matrix) : option Matrix :=
  match a, b with
  | Some a, Some b =>
    if (length a =? 0) || (length b =? 0) || negb (length (mget a 0) =? length b)
    then None
    else
      Some (map (fun rowa =>
                   map (fun j =>
                          foldl (fun acc k =>
                                   num_add acc (num_mul (aget rowa k) (aget (mget b k) j)))
                                (num_of_Q 0) (seq 0 (length b)))
                       (seq 0 (length (mget b 0))))
                a)
  | _, _ => None
  end.

(** [row.reduce((sum, val, i) => sum + val * vector[i], 0)] *)
Definition row_dot (row vector : list T) : T :=
  foldl (fun sum iv => num_add sum (num_mul (snd iv) (aget vector (fst iv))))
        (num_of_Q 0) (imap (fun i val => (i, val)) row).

(** With an empty matrix the guard reads [matrix[0].length] of [undefined]
    and throws. *)
Definition multiplyVector (matrix : option Matrix) (vector : option (list T))
  : completion (option (list T)) :=
  match matrix, vector with
  | Some m, Some v =>
    match m with
    | [] => Throw
    | row0 :: _ =>
      if negb (length row0 =? length v) then Return None
      else Return (Some (map (fun row => row_dot row v) m))
    end
  | _, _ => Return None
  end.

(** *** Gauss-Jordan elimination *)

Definition PIVOT_EPS : T := num_of_Q (1 # 10000000000).

(** [augmented = A.map((row, i) => [...row, B[i]])] *)
Definition augment (A : Matrix) (B : list T) : Matrix :=
  imap (fun i row => row ++ [aget B i]) A.

(** Partial pivoting: the scan [for k = i+1 .. n-1] keeping the row whose
    entry in column [i] is strictly larger in absolute value. *)
Definition select_pivot (n i : nat) (augmented : Matrix) : nat :=
  foldl (fun maxRow k =>
           if num_lt (num_abs (aget (mget augmented maxRow) i))
                     (num_abs (aget (mget augmented k) i))
           then k else maxRow)
        i (seq (i + 1) (n - (i + 1))).

(** [[augmented[i], augmented[maxRow]] = [augmented[maxRow], augmented[i]]] *)
Definition swap_rows (i maxRow : nat) (augmented : Matrix) : Matrix :=
  if i =? maxRow then augmented
  else <[maxRow := mget augmented i]> (<[i := mget augmented maxRow]> augmented).

(** [for j = i .. n: row[j] /= pivot] *)
Definition normalize_row (n i : nat) (pivot : T) (row : list T) : list T :=
  foldl (fun r j => aset r j (num_div (aget r j) pivot)) row (seq i (n + 1 - i)).

(** [for j = i .. n: rowk[j] -= factor * rowi[j]] *)
Definition eliminate_row (n i : nat) (factor : T) (rowi rowk : list T) : list T :=
  foldl (fun r j => aset r j (num_sub (aget r j) (num_mul factor (aget rowi j))))
        rowk (seq i (n + 1 - i)).

(** [for k = 0 .. n-1: if (k !== i) { ... }] *)
Definition eliminate_column (n i : nat) (augmented : Matrix) : Matrix :=
  foldl (fun M k =>
           if k =? i then M
           else <[k := eliminate_row n i (aget (mget M k) i) (mget M i) (mget M k)]> M)
        augmented (seq 0 n).

(** The matrix after the pivot of step [i] has been swapped into place. *)
Definition pivot_step (n i : nat) (augmented : Matrix) : Matrix :=
  swap_rows i (select_pivot n i augmented) augmented.

(** The rest of step [i], once the pivot has passed the singularity test. *)
Definition reduce_step (n i : nat) (augmented : Matrix) : Matrix :=
  let pivot := aget (mget augmented i) i in
  let normalized := <[i := normalize_row n i pivot (mget augmented i)]> augmented in
  eliminate_column n i normalized.

(** One iteration of the outer loop; [None] is the early [return null]. *)
Definition gj_step (n i : nat) (augmented : Matrix) : option Matrix :=
  let swapped := pivot_step n i augmented in
  if num_lt (num_abs (aget (mget swapped i) i)) PIVOT_EPS then None
  else Some (reduce_step n i swapped).

(** [for i = 0 .. n-1], as a loop over the remaining indices. *)
Fixpoint gj_loop (n : nat) (steps : list nat) (augmented : Matrix) : option Matrix :=
  match steps with
  | [] => Some augmented
  | i :: rest =>
    match gj_step n i augmented with
    | None => None
    | Some next => gj_loop n rest next
    end
  end.

Definition gaussJordan (A : option Matrix) (B : option (list T)) : option (list T) :=
  match A, B with
  | Some A, Some B =>
    if negb (length A =? length B) then None
    else
      let n := length A in
      match gj_loop n (seq 0 n) (augment A B) with
      | None => None
      | Some augmented => Some (map (fun row => aget row n) augmented)
      end
  | _, _ => None
  end.

(** ** Affine transform estimator (math-utils.js, affine-transformation.js) *)

(** [l.entries()]: the elements with their indices, for loops that use both. *)
Definition entries {A : Type} (l : list A) : list (nat * A) := imap pair l.

(** [A[r][c] = v] for a row index in range. *)
Definition mset (A : Matrix) (r c : nat) (v : T) : Matrix :=
  <[r := aset (mget A r) c v]> A.

(** The body of the loop that fills the design matrix and the targets;
    [gpsX] and [gpsY] are the projected coordinates of the GPS point. *)
Definition fill_equations (gpsX gpsY : T) (AB : Matrix * list T)
  (icp : nat * ControlPoint) : Matrix * list T :=
  let '(A, B) := AB in
  let '(i, cp) := icp in
  let imageX := opt_num (pj_imageX (pointJson cp)) in
  let imageY := opt_num (pj_imageY (pointJson cp)) in
  let A := mset A (i * 2) 0 imageX in
  let A := mset A (i * 2) 1 imageY in
  let A := mset A (i * 2) 2 (num_of_Q 1) in
  let A := mset A (i * 2) 3 (num_of_Q 0) in
  let A := mset A (i * 2) 4 (num_of_Q 0) in
  let A := mset A (i * 2) 5 (num_of_Q 0) in
  let B := aset B (i * 2) gpsX in
  let A := mset A (i * 2 + 1) 0 (num_of_Q 0) in
  let A := mset A (i * 2 + 1) 1 (num_of_Q 0) in
  let A := mset A (i * 2 + 1) 2 (num_of_Q 0) in
  let A := mset A (i * 2 + 1) 3 imageX in
  let A := mset A (i * 2 + 1) 4 imageY in
  let A := mset A (i * 2 + 1) 5 (num_of_Q 1) in
  let B := aset B (i * 2 + 1) gpsY in
  (A, B).

(** The filled [A] and [B] of calculateAffineTransformation. *)
Definition build_equations `{JSMath T} (controlPoints : list ControlPoint)
  : Matrix * list T :=
  let n := length controlPoints in
  let A := replicate (2 * n) (replicate 6 (num_of_Q 0)) in
  let B := replicate (2 * n) (num_of_Q 0) in
  foldl (fun AB icp =>
           fill_equations (lonToWebMercatorX (gps_lng (gpsPoint (snd icp))))
                          (latToWebMercatorY (gps_lat (gpsPoint (snd icp)))) AB icp)
        (A, B) (entries controlPoints).

Definition params_of (params : list T) : AffineParams :=
  {| tr_a := aget params 0; tr_b := aget params 1; tr_c := aget params 2;
     tr_d := aget params 3; tr_e := aget params 4; tr_f := aget params 5 |}.

Definition calculateAffineTransformation `{JSMath T}
  (controlPoints : list ControlPoint) : option AffineParams :=
  let '(A, B) := build_equations controlPoints in
  let At := transpose (Some A) in
  let AtA := multiply At (Some A) in
  match multiplyVector At (Some B) with
  | Throw => None
  | Return AtB =>
    match gaussJordan AtA AtB with
    | None => None
    | Some params => Some (params_of params)
    end
  end.

Definition calculateTransformationAccuracy `{JSMath T}
  (controlPoints : list ControlPoint) (transformation : AffineParams) : AccuracyReport :=
  let errors :=
    map (fun point =>
           let imageX := opt_num (pj_imageX (pointJson point)) in
           let imageY := opt_num (pj_imageY (pointJson point)) in
           let transformedX :=
             num_add (num_add (num_mul (tr_a transformation) imageX)
                              (num_mul (tr_b transformation) imageY))
                     (tr_c transformation) in
           let transformedY :=
             num_add (num_add (num_mul (tr_d transformation) imageX)
                              (num_mul (tr_e transformation) imageY))
                     (tr_f transformation) in
           let actualX := lonToWebMercatorX (gps_lng (gpsPoint point)) in
           let actualY := latToWebMercatorY (gps_lat (gpsPoint point)) in
           Math_sqrt (num_add (Math_pow (num_sub transformedX actualX) (num_of_Q 2))
                              (Math_pow (num_sub transformedY actualY) (num_of_Q 2))))
        controlPoints in
  {| meanError := num_div (foldl num_add (num_of_Q 0) errors)
                          (num_of_Q (inject_Z (Z.of_nat (length errors))));
     maxError := Math_max errors;
     minError := Math_min errors;
     errors := errors |}.

Definition calculatePreciseTransformation `{JSMath T}
  (controlPoints : list ControlPoint) : option Transformation :=
  if length controlPoints <? 3 then None
  else
    match calculateAffineTransformation controlPoints with
    | None => None
    | Some transformation =>
      Some {| t_type := "precise";
              t_transformation := Some transformation;
              t_accuracy := calculateTransformationAccuracy controlPoints transformation;
              t_controlPoints := controlPoints;
              t_usedPoints := length controlPoints |}
    end.

(** ** Matching engine (georeferencing.js) *)

(** The shapes [this.pointJsonData] takes: an array, an object with a
    [points] array, or a single entry. *)
Inductive PointJsonData : Type :=
| PJArray (items : list PointJson)
| PJPoints (points : list PointJson)
| PJSingle (item : PointJson).

Definition pointJsonArray (data : PointJsonData) : list PointJson :=
  match data with
  | PJArray items => items
  | PJPoints points => points
  | PJSingle item => [item]
  end.

Record MatchResult : Type := mkMatchResult {
  matchedPairs : list ControlPoint;
  unmatchedPointJsonIds : list string;
  totalPointJsons : nat
}.

(** [gpsPoints.forEach(p => gpsPointMap.set(p.pointId, p))] *)
Definition build_gpsPointMap (gpsPoints : list GpsPoint) : gmap (option string) GpsPoint :=
  foldl (fun m gpsPoint => <[gps_pointId gpsPoint := gpsPoint]> m) ∅ gpsPoints.

(** [pointJson.Id || pointJson.id || pointJson.name] *)
Definition resolve_id (pointJson : PointJson) : option string :=
  str_or (str_or (pj_Id pointJson) (pj_id pointJson)) (pj_name pointJson).

(** The entry pushed for an entity without identifier: its index in
    brackets, then a fixed note that the ID is missing. *)
Definition NO_ID_NOTE : string := " (IDなし)".

Definition placeholder_id (index : nat) : string :=
  "[" +:+ pretty index +:+ "]" +:+ NO_ID_NOTE.

Definition match_entity (gpsPointMap : gmap (option string) GpsPoint)
  (acc : list ControlPoint * list string) (ip : nat * PointJson)
  : list ControlPoint * list string :=
  let '(index, pointJson) := ip in
  let pointJsonId := resolve_id pointJson in
  if negb (str_truthy pointJsonId) then (fst acc, snd acc ++ [placeholder_id index])
  else
    match pointJsonId with
    | None => acc
    | Some id =>
      match gpsPointMap !! Some id with
      | Some matchingGpsPoint =>
        (fst acc ++ [{| pointJsonId := id; pointJson := pointJson;
                        gpsPoint := matchingGpsPoint |}], snd acc)
      | None => (fst acc, snd acc ++ [id])
      end
    end.

Definition matchPointJsonWithGPS (pointJsonData : option PointJsonData)
  (gpsPoints : list GpsPoint) : MatchResult :=
  match pointJsonData with
  | None => {| matchedPairs := []; unmatchedPointJsonIds := []; totalPointJsons := 0 |}
  | Some data =>
    let pointJsonArray := pointJsonArray data in
    let gpsPointMap := build_gpsPointMap gpsPoints in
    let '(matched, unmatched) :=
      foldl (match_entity gpsPointMap) ([], []) (entries pointJsonArray) in
    {| matchedPairs := matched; unmatchedPointJsonIds := unmatched;
       totalPointJsons := length pointJsonArray |}
  end.

(** ** Route and spot de-duplication (route-spot-handler.js) *)

Record Spot : Type := mkSpot {
  spot_imageX : option T;
  spot_imageY : option T;
  spot_coordinates : option LatLng
}.

Definition isSameSpot (spot1 spot2 : Spot) : bool :=
  match spot_imageX spot1, spot_imageY spot1, spot_imageX spot2, spot_imageY spot2 with
  | Some x1, Some y1, Some x2, Some y2 =>
    let imageXMatch := within (num_of_Q (1 # 10)) x1 x2 in
    let imageYMatch := within (num_of_Q (1 # 10)) y1 y2 in
    imageXMatch && imageYMatch
  | _, _, _, _ =>
    match spot_coordinates spot1, spot_coordinates spot2 with
    | Some coord1, Some coord2 =>
      let tolerance := num_of_Q (1 # 10000) in
      let latMatch := within tolerance (lat coord1) (lat coord2) in
      let lngMatch := within tolerance (lng coord1) (lng coord2) in
      latMatch && lngMatch
    | _, _ => false
    end
  end.

(** A route's start or end point, [{lat, lng, name, id}]. *)
Record RoutePoint : Type := mkRoutePoint {
  rp_lat : option T;
  rp_lng : option T;
  rp_name : option string;
  rp_id : option string
}.

Record Route : Type := mkRoute {
  startPoint : option RoutePoint;
  endPoint : option RoutePoint
}.

(** [a === b] on identifiers. *)
Definition id_eqb (a b : option string) : bool := bool_decide (a = b).

Definition isSameRoute (route1 route2 : Route) : bool :=
  match startPoint route1, endPoint route1, startPoint route2, endPoint route2 with
  | Some start1, Some end1, Some start2, Some end2 =>
    let start1Id := str_or (rp_id start1) (rp_name start1) in
    let end1Id := str_or (rp_id end1) (rp_name end1) in
    let start2Id := str_or (rp_id start2) (rp_name start2) in
    let end2Id := str_or (rp_id end2) (rp_name end2) in
    if str_truthy start1Id && str_truthy end1Id && str_truthy start2Id && str_truthy end2Id
    then
      let sameDirectionById := id_eqb start1Id start2Id && id_eqb end1Id end2Id in
      let reverseDirectionById := id_eqb start1Id end2Id && id_eqb end1Id start2Id in
      sameDirectionById || reverseDirectionById
    else
      let tolerance := num_of_Q (1 # 10000) in
      if opt_truthy (rp_lat start1) && opt_truthy (rp_lng start1) &&
         opt_truthy (rp_lat end1) && opt_truthy (rp_lng end1) &&
         opt_truthy (rp_lat start2) && opt_truthy (rp_lng start2) &&
         opt_truthy (rp_lat end2) && opt_truthy (rp_lng end2)
      then
        let sameDirection :=
          within tolerance (opt_num (rp_lat start1)) (opt_num (rp_lat start2)) &&
          within tolerance (opt_num (rp_lng start1)) (opt_num (rp_lng start2)) &&
          within tolerance (opt_num (rp_lat end1)) (opt_num (rp_lat end2)) &&
          within tolerance (opt_num (rp_lng end1)) (opt_num (rp_lng end2)) in
        let reverseDirection :=
          within tolerance (opt_num (rp_lat start1)) (opt_num (rp_lat end2)) &&
          within tolerance (opt_num (rp_lng start1)) (opt_num (rp_lng end2)) &&
          within tolerance (opt_num (rp_lat end1)) (opt_num (rp_lat start2)) &&
          within tolerance (opt_num (rp_lng end1)) (opt_num (rp_lng start2)) in
        sameDirection || reverseDirection
      else false
  | _, _, _, _ => false
  end.

(** ** Markers and the image overlay (Leaflet objects, as the core reads them) *)

(** [marker.__meta]: where the entity's coordinates came from. *)
Record MarkerMeta : Type := mkMeta {
  meta_origin : string;
  meta_imageX : option T;
  meta_imageY : option T
}.

(** A Leaflet marker: its position [(lat, lng)] and its [__meta]. *)
Record Marker : Type := mkMarker {
  m_latlng : T * T;
  m_meta : option MarkerMeta
}.

(** An element of [routeMarkers]: a marker (it has [setLatLng]), a
    polyline (it has [getLatLngs]; [__meta.points] holds one meta per
    vertex, and is read as empty when absent), or any other layer. *)
Inductive Layer : Type :=
| LMarker (marker : Marker)
| LPolyline (latlngs : list (T * T)) (metaPoints : list MarkerMeta)
| LOther.

Record RouteSpotHandler : Type := mkRouteSpotHandler {
  routeMarkers : list Layer;
  spotMarkers : list Marker
}.

(** [markerInfo.data] of an image-coordinate marker. *)
Record PointData : Type := mkPointData {
  pd_imageX : option T;
  pd_imageY : option T
}.

(** An element of [imageCoordinateMarkers]: [{marker, type, data}]. *)
Record MarkerInfo : Type := mkMarkerInfo {
  mi_marker : T * T;
  mi_type : string;
  mi_data : option PointData
}.

(** What the core reads of the image overlay and the map: the Leaflet
    layer (absent until an image is loaded) with the bounds [getBounds()]
    returns, the pixel size of the image, and the map's initial centre. *)
Record ImageOverlay : Type := mkImageOverlay {
  io_layer : option (option LatLngBounds);
  io_naturalWidth : T;
  io_width : T;
  io_naturalHeight : T;
  io_height : T;
  io_initialCenter : T * T
}.

(** [a || b] on numbers. *)
Definition num_or (a b : T) : T := if num_truthy a then a else b.

(** The position used while no usable bounds exist, around the map centre. *)
Definition center_fallback (center : T * T) (imageX imageY : T) : T * T :=
  let normalizedX := num_div (num_sub imageX (num_of_Q 500)) (num_of_Q 1000) in
  let normalizedY := num_div (num_sub imageY (num_of_Q 500)) (num_of_Q 1000) in
  (num_add (fst center) (num_mul normalizedY (num_of_Q (1 # 100))),
   num_add (snd center) (num_mul normalizedX (num_of_Q (1 # 100)))).

(** CoordinateDisplay.convertImageToLatLng (coordinate-display.js) *)
Definition convertImageToLatLng (overlay : ImageOverlay) (imageX imageY : T)
  : option (T * T) :=
  match io_layer overlay with
  | None => Some (center_fallback (io_initialCenter overlay) imageX imageY)
  | Some None => Some (center_fallback (io_initialCenter overlay) imageX imageY)
  | Some (Some imageBounds) =>
    let imageWidth := num_or (io_naturalWidth overlay) (io_width overlay) in
    let imageHeight := num_or (io_naturalHeight overlay) (io_height overlay) in
    if negb (num_truthy imageWidth) || negb (num_truthy imageHeight)
    then Some (center_fallback (io_initialCenter overlay) imageX imageY)
    else convertImageCoordsToGps imageX imageY (Some imageBounds)
                                 (Some imageWidth) (Some imageHeight)
  end.

(** ** Position synchronisation (georeferencing.js) *)

(** The fields of the Georeferencing object and of the collaborators it
    holds references to. *)
Record Georeferencing : Type := mkGeoreferencing {
  gpsData : list GpsPoint;
  pointJsonData : option PointJsonData;
  currentTransformation : option Transformation;
  imageCoordinateMarkers : list MarkerInfo;
  imageUpdateCallbackRegistered : bool;
  routeSpotHandler : option RouteSpotHandler;
  coordinateDisplay : bool;
  imageOverlay : ImageOverlay
}.

(** Reading [transformation.type] of [null] throws; the method catches
    and returns [null]. *)
Definition transformImageCoordsToGps `{JSMath T}
  (imageX imageY : T) (transformation : option Transformation) : option (T * T) :=
  match transformation with
  | None => None
  | Some t =>
    if String.eqb (t_type t) "precise"
    then applyAffineTransform imageX imageY transformation
    else None
  end.

(** [meta && meta.origin === 'image' && meta.imageX !== undefined &&
    meta.imageY !== undefined], giving the pixel coordinates when true. *)
Definition image_source (meta : option MarkerMeta) : option (T * T) :=
  match meta with
  | Some m =>
    if String.eqb (meta_origin m) "image" then
      match meta_imageX m, meta_imageY m with
      | Some x, Some y => Some (x, y)
      | _, _ => None
      end
    else None
  | None => None
  end.

(** The body of the loops over single markers. *)
Definition sync_marker `{JSMath T} (cur : option Transformation) (marker : Marker) : Marker :=
  match image_source (m_meta marker) with
  | Some (imageX, imageY) =>
    match transformImageCoordsToGps imageX imageY cur with
    | Some newPos => {| m_latlng := newPos; m_meta := m_meta marker |}
    | None => marker
    end
  | None => marker
  end.

(** The callback of [currentLatLngs.map((latlng, i) => ...)]. *)
Definition sync_vertex `{JSMath T} (cur : option Transformation)
  (metaPoints : list MarkerMeta) (i : nat) (latlng : T * T) : T * T :=
  match image_source (metaPoints !! i) with
  | Some (imageX, imageY) =>
    match transformImageCoordsToGps imageX imageY cur with
    | Some newPos => newPos
    | None => (fst latlng, snd latlng)
    end
  | None => (fst latlng, snd latlng)
  end.

Definition sync_layer `{JSMath T} (cur : option Transformation) (layer : Layer) : Layer :=
  match layer with
  | LMarker marker => LMarker (sync_marker cur marker)
  | LPolyline latlngs metaPoints =>
    LPolyline (imap (sync_vertex cur metaPoints) latlngs) metaPoints
  | LOther => LOther
  end.

Definition syncRouteMarkers `{JSMath T} (st : Georeferencing) : Georeferencing :=
  match routeSpotHandler st with
  | None => st
  | Some h =>
    {| gpsData := gpsData st; pointJsonData := pointJsonData st;
       currentTransformation := currentTransformation st;
       imageCoordinateMarkers := imageCoordinateMarkers st;
       imageUpdateCallbackRegistered := imageUpdateCallbackRegistered st;
       routeSpotHandler :=
         Some {| routeMarkers := map (sync_layer (currentTransformation st)) (routeMarkers h);
                 spotMarkers := spotMarkers h |};
       coordinateDisplay := coordinateDisplay st;
       imageOverlay := imageOverlay st |}
  end.

Definition syncSpotMarkers `{JSMath T} (st : Georeferencing) : Georeferencing :=
  match routeSpotHandler st with
  | None => st
  | Some h =>
    {| gpsData := gpsData st; pointJsonData := pointJsonData st;
       currentTransformation := currentTransformation st;
       imageCoordinateMarkers := imageCoordinateMarkers st;
       imageUpdateCallbackRegistered := imageUpdateCallbackRegistered st;
       routeSpotHandler :=
         Some {| routeMarkers := routeMarkers h;
                 spotMarkers := map (sync_marker (currentTransformation st)) (spotMarkers h) |};
       coordinateDisplay := coordinateDisplay st;
       imageOverlay := imageOverlay st |}
  end.

Definition routeMarkers_of (st : Georeferencing) : list Layer :=
  match routeSpotHandler st with Some h => routeMarkers h | None => [] end.

Definition spotMarkers_of (st : Georeferencing) : list Marker :=
  match routeSpotHandler st with Some h => spotMarkers h | None => [] end.

Definition syncRouteSpotPositions `{JSMath T} (st : Georeferencing) : Georeferencing :=
  match routeSpotHandler st with
  | None => st
  | Some _ =>
    let st := if 0 <? length (routeMarkers_of st) then syncRouteMarkers st else st in
    if 0 <? length (spotMarkers_of st) then syncSpotMarkers st else st
  end.

(** The callback of [georefMarkers.forEach] in updateMarkerPositions; the
    markers of another type are filtered out and stay as they are. *)
Definition update_point_marker `{JSMath T} (useTransformation : bool)
  (st : Georeferencing) (markerInfo : MarkerInfo) : MarkerInfo :=
  if negb (String.eqb (mi_type markerInfo) "georeference-point") then markerInfo
  else
    match mi_data markerInfo with
    | Some {| pd_imageX := Some imageX; pd_imageY := Some imageY |} =>
      let newLatLng :=
        match useTransformation, currentTransformation st with
        | true, Some _ => transformImageCoordsToGps imageX imageY (currentTransformation st)
        | _, _ =>
          if coordinateDisplay st then convertImageToLatLng (imageOverlay st) imageX imageY
          else None
        end in
      match newLatLng with
      | Some pos => {| mi_marker := pos; mi_type := mi_type markerInfo;
                       mi_data := mi_data markerInfo |}
      | None => markerInfo
      end
    | _ => markerInfo
    end.

Definition set_imageCoordinateMarkers (st : Georeferencing) (ms : list MarkerInfo)
  : Georeferencing :=
  {| gpsData := gpsData st; pointJsonData := pointJsonData st;
     currentTransformation := currentTransformation st;
     imageCoordinateMarkers := ms;
     imageUpdateCallbackRegistered := imageUpdateCallbackRegistered st;
     routeSpotHandler := routeSpotHandler st;
     coordinateDisplay := coordinateDisplay st;
     imageOverlay := imageOverlay st |}.

Definition updateMarkerPositions `{JSMath T} (useTransformation : bool)
  (st : Georeferencing) : Georeferencing :=
  set_imageCoordinateMarkers st
    (map (update_point_marker useTransformation st) (imageCoordinateMarkers st)).

Definition syncPointPositionsBasedOnImageBounds `{JSMath T} (st : Georeferencing)
  : Georeferencing :=
  updateMarkerPositions false st.

Definition syncPointPositions `{JSMath T} (st : Georeferencing) : Georeferencing :=
  match currentTransformation st with
  | None => syncPointPositionsBasedOnImageBounds st
  | Some _ => updateMarkerPositions true st
  end.

(** The callback registered with the image overlay: one full pass over
    the points, the route markers and the spots. *)
Definition synchronize `{JSMath T} (st : Georeferencing) : Georeferencing :=
  syncRouteSpotPositions (syncPointPositions st).

(** ** Estimation and installation of the transformation (georeferencing.js) *)

Definition set_currentTransformation (st : Georeferencing) (t : option Transformation)
  : Georeferencing :=
  {| gpsData := gpsData st; pointJsonData := pointJsonData st;
     currentTransformation := t;
     imageCoordinateMarkers := imageCoordinateMarkers st;
     imageUpdateCallbackRegistered := imageUpdateCallbackRegistered st;
     routeSpotHandler := routeSpotHandler st;
     coordinateDisplay := coordinateDisplay st;
     imageOverlay := imageOverlay st |}.

Definition set_imageOverlay (st : Georeferencing) (o : ImageOverlay) : Georeferencing :=
  {| gpsData := gpsData st; pointJsonData := pointJsonData st;
     currentTransformation := currentTransformation st;
     imageCoordinateMarkers := imageCoordinateMarkers st;
     imageUpdateCallbackRegistered := imageUpdateCallbackRegistered st;
     routeSpotHandler := routeSpotHandler st;
     coordinateDisplay := coordinateDisplay st;
     imageOverlay := o |}.

Definition set_callbackRegistered (st : Georeferencing) : Georeferencing :=
  {| gpsData := gpsData st; pointJsonData := pointJsonData st;
     currentTransformation := currentTransformation st;
     imageCoordinateMarkers := imageCoordinateMarkers st;
     imageUpdateCallbackRegistered := true;
     routeSpotHandler := routeSpotHandler st;
     coordinateDisplay := coordinateDisplay st;
     imageOverlay := imageOverlay st |}.

(** The failure performGeoreferencingCalculations throws, with the number
    of matched pairs it reports in the message. *)
Inductive GeorefError : Type :=
| InsufficientControlPoints (matched : nat).

(** The object performGeoreferencingCalculations returns. *)
Record GeorefSummary : Type := mkSummary {
  matchedCount : nat;
  unmatchedPoints : list string;
  totalPoints : nat;
  summary_totalPointJsons : nat;
  summary_matchedPairs : list ControlPoint;
  georeferenceCompleted : bool
}.

Section Estimation.
Context `{JSMath T}.

(** The rendering collaborator.  applyPreciseTransformation derives a
    centre and a scale from the transformation and hands them to
    [imageOverlay.setTransformedPosition], which moves the Leaflet layer;
    the result is the overlay afterwards and whether it notified its
    image-update callbacks. *)
Variable placeOverlay : Transformation -> ImageOverlay -> ImageOverlay * bool.

(** The body of the loop of updatePointJsonMarkersAfterTransformation. *)
Definition relocate_point_marker (st : Georeferencing) (markerInfo : MarkerInfo)
  : MarkerInfo :=
  if negb (String.eqb (mi_type markerInfo) "georeference-point") then markerInfo
  else
    match mi_data markerInfo with
    | Some {| pd_imageX := Some imageX; pd_imageY := Some imageY |} =>
      match transformImageCoordsToGps imageX imageY (currentTransformation st) with
      | Some transformedGpsCoords =>
        {| mi_marker := transformedGpsCoords; mi_type := mi_type markerInfo;
           mi_data := mi_data markerInfo |}
      | None => markerInfo
      end
    | _ => markerInfo
    end.

Definition updatePointJsonMarkersAfterTransformation (st : Georeferencing)
  : Georeferencing :=
  match currentTransformation st with
  | None => st
  | Some _ =>
    if length (imageCoordinateMarkers st) =? 0 then st
    else
      syncPointPositions
        (set_imageCoordinateMarkers st
           (map (relocate_point_marker st) (imageCoordinateMarkers st)))
  end.

Definition applyPreciseTransformation (st : Georeferencing)
  (transformation : Transformation) : Georeferencing :=
  let st := set_currentTransformation st (Some transformation) in
  let '(overlay, notified) := placeOverlay transformation (imageOverlay st) in
  let st := set_imageOverlay st overlay in
  let st := if notified && imageUpdateCallbackRegistered st then synchronize st else st in
  updatePointJsonMarkersAfterTransformation st.

Definition applyTransformationToImage (st : Georeferencing)
  (transformation : Transformation) : Georeferencing :=
  if String.eqb (t_type transformation) "precise"
  then applyPreciseTransformation st transformation
  else st.

Definition performAutomaticGeoreferencing (st : Georeferencing)
  (matchedPairs : list ControlPoint) : Georeferencing :=
  let controlPoints := matchedPairs in
  match calculatePreciseTransformation controlPoints with
  | Some transformation =>
    syncRouteSpotPositions (applyTransformationToImage st transformation)
  | None => st
  end.

Definition performGeoreferencingCalculations (st : Georeferencing)
  : (GeorefError + GeorefSummary) * Georeferencing :=
  let gpsPoints := gpsData st in
  let matchResult := matchPointJsonWithGPS (pointJsonData st) gpsPoints in
  if 3 <=? length (matchedPairs matchResult) then
    let st := performAutomaticGeoreferencing st (matchedPairs matchResult) in
    let st := if imageUpdateCallbackRegistered st then st else set_callbackRegistered st in
    (inr {| matchedCount := length (matchedPairs matchResult);
            unmatchedPoints := unmatchedPointJsonIds matchResult;
            totalPoints := length gpsPoints;
            summary_totalPointJsons := totalPointJsons matchResult;
            summary_matchedPairs := matchedPairs matchResult;
            georeferenceCompleted := true |}, st)
  else
    (inl (InsufficientControlPoints (length (matchedPairs matchResult))), st).

End Estimation.

(** * Specifications in the words of the design document *)

(** A spot carries pixel coordinates when both are defined. *)
Definition spot_image (s : Spot) : option (T * T) :=
  match spot_imageX s, spot_imageY s with
  | Some x, Some y => Some (x, y)
  | _, _ => None
  end.

(** Two spot records are the same entity: by pixel coordinates when both
    carry them, else by GPS coordinates when both carry them, else never. *)
Definition same_spot (s1 s2 : Spot) : Prop :=
  match spot_image s1, spot_image s2 with
  | Some (x1, y1), Some (x2, y2) =>
    within (num_of_Q (1 # 10)) x1 x2 = true /\ within (num_of_Q (1 # 10)) y1 y2 = true
  | _, _ =>
    match spot_coordinates s1, spot_coordinates s2 with
    | Some c1, Some c2 =>
      within (num_of_Q (1 # 10000)) (lat c1) (lat c2) = true /\
      within (num_of_Q (1 # 10000)) (lng c1) (lng c2) = true
    | _, _ => False
    end
  end.

(** The identifier of a route point: its id, else its name. *)
Definition route_point_id (p : RoutePoint) : option string :=
  if str_truthy (rp_id p) then rp_id p
  else if str_truthy (rp_name p) then rp_name p
  else None.

(** The GPS position of a route point, when it has both coordinates. *)
Definition route_point_position (p : RoutePoint) : option (T * T) :=
  match rp_lat p, rp_lng p with
  | Some la, Some lo => Some (la, lo)
  | _, _ => None
  end.

Definition near (p q : T * T) : Prop :=
  within (num_of_Q (1 # 10000)) (fst p) (fst q) = true /\
  within (num_of_Q (1 # 10000)) (snd p) (snd q) = true.

(** Two route records are the same entity: all four end points exist, and
    the identifiers agree forwards or backwards; without identifiers, the
    positions agree forwards or backwards within the tolerance. *)
Definition same_route (r1 r2 : Route) : Prop :=
  match startPoint r1, endPoint r1, startPoint r2, endPoint r2 with
  | Some s1, Some e1, Some s2, Some e2 =>
    match route_point_id s1, route_point_id e1, route_point_id s2, route_point_id e2 with
    | Some is1, Some ie1, Some is2, Some ie2 =>
      (is1 = is2 /\ ie1 = ie2) \/ (is1 = ie2 /\ ie1 = is2)
    | _, _, _, _ =>
      match route_point_position s1, route_point_position e1,
            route_point_position s2, route_point_position e2 with
      | Some ps1, Some pe1, Some ps2, Some pe2 =>
        (near ps1 ps2 /\ near pe1 pe2) \/ (near ps1 pe2 /\ near pe1 ps2)
      | _, _, _, _ => False
      end
    end
  | _, _, _, _ => False
  end.

(** Every coordinate a route point carries is a usable number: neither
    zero nor NaN. *)
Definition usable_coordinates (p : RoutePoint) : Prop :=
  (forall v, rp_lat p = Some v -> num_truthy v = true) /\
  (forall v, rp_lng p = Some v -> num_truthy v = true).

Definition route_usable (r : Route) : Prop :=
  (forall p, startPoint r = Some p -> usable_coordinates p) /\
  (forall p, endPoint r = Some p -> usable_coordinates p).

(** The GPS position of a route point whose two coordinates are usable
    numbers: present, non-zero and not NaN. *)
Definition position_if_usable (p : RoutePoint) : option (T * T) :=
  match rp_lat p, rp_lng p with
  | Some la, Some lo => if num_truthy la && num_truthy lo then Some (la, lo) else None
  | _, _ => None
  end.

(** Two route records are the same entity, the coordinate comparison
    being open to usable coordinates only: all four end points exist, and
    the identifiers agree forwards or backwards; some identifier being
    unavailable, all four positions are usable and agree forwards or
    backwards within the tolerance. *)
Definition same_route_where_usable (r1 r2 : Route) : Prop :=
  match startPoint r1, endPoint r1, startPoint r2, endPoint r2 with
  | Some s1, Some e1, Some s2, Some e2 =>
    match route_point_id s1, route_point_id e1, route_point_id s2, route_point_id e2 with
    | Some is1, Some ie1, Some is2, Some ie2 =>
      (is1 = is2 /\ ie1 = ie2) \/ (is1 = ie2 /\ ie1 = is2)
    | _, _, _, _ =>
      match position_if_usable s1, position_if_usable e1,
            position_if_usable s2, position_if_usable e2 with
      | Some ps1, Some pe1, Some ps2, Some pe2 =>
        (near ps1 ps2 /\ near pe1 pe2) \/ (near ps1 pe2 /\ near pe1 ps2)
      | _, _, _, _ => False
      end
    end
  | _, _, _, _ => False
  end.

(** Every end point the route has carries an identifier. *)
Definition route_identified (r : Route) : Prop :=
  (forall p, startPoint r = Some p -> route_point_id p <> None) /\
  (forall p, endPoint r = Some p -> route_point_id p <> None).

(** A dimension that is missing, zero or NaN. *)
Definition unusable_dimension (d : option T) : Prop := opt_truthy d = false.

(** The position of a pixel inside the displayed bounding box, by linear
    interpolation: west to east by [imageX / imageWidth], north to south
    by [imageY / imageHeight]. *)
Definition interpolate_in_bounds (b : LatLngBounds) (imageX imageY w h : T) : T * T :=
  (num_sub (lat (northEast b))
           (num_mul (num_sub (lat (northEast b)) (lat (southWest b))) (num_div imageY h)),
   num_add (lng (southWest b))
           (num_mul (num_sub (lng (northEast b)) (lng (southWest b))) (num_div imageX w))).

(** The first usable identifier of an ordered list of candidates. *)
Fixpoint first_truthy (candidates : list (option string)) : option string :=
  match candidates with
  | [] => None
  | Some s :: rest => if String.eqb s "" then first_truthy rest else Some s
  | None :: rest => first_truthy rest
  end.

(** The GPS point registered under an identifier: the last one loaded
    with exactly that identifier. *)
Definition gps_counterpart (gpsPoints : list GpsPoint) (id : string) : option GpsPoint :=
  last (filter (fun g => gps_pointId g = Some id) gpsPoints).

(** What the matching engine reports for one entity. *)
Inductive MatchOutcome : Type :=
| Matched (matchedPair : ControlPoint)
| Unmatched (reported : string).

Definition entity_outcome (gpsPoints : list GpsPoint) (index : nat) (pointJson : PointJson)
  : MatchOutcome :=
  match first_truthy [pj_Id pointJson; pj_id pointJson; pj_name pointJson] with
  | None => Unmatched (placeholder_id index)
  | Some id =>
    match gps_counterpart gpsPoints id with
    | Some g => Matched {| pointJsonId := id; pointJson := pointJson; gpsPoint := g |}
    | None => Unmatched id
    end
  end.

Definition matched_of (o : MatchOutcome) : option ControlPoint :=
  match o with Matched cp => Some cp | Unmatched _ => None end.

Definition unmatched_of (o : MatchOutcome) : option string :=
  match o with Matched _ => None | Unmatched id => Some id end.

(** The two equations a control point contributes: the X-equation
    [[imageX, imageY, 1, 0, 0, 0]] and the Y-equation
    [[0, 0, 0, imageX, imageY, 1]]. *)
Definition design_rows (cp : ControlPoint) : list (list T) :=
  let x := opt_num (pj_imageX (pointJson cp)) in
  let y := opt_num (pj_imageY (pointJson cp)) in
  [ [x; y; num_of_Q 1; num_of_Q 0; num_of_Q 0; num_of_Q 0];
    [num_of_Q 0; num_of_Q 0; num_of_Q 0; x; y; num_of_Q 1] ].

(** Their targets: the GPS longitude and latitude in Web Mercator. *)
Definition target_rows `{JSMath T} (cp : ControlPoint) : list T :=
  [ lonToWebMercatorX (gps_lng (gpsPoint cp));
    latToWebMercatorY (gps_lat (gpsPoint cp)) ].

Definition design_matrix (controlPoints : list ControlPoint) : Matrix :=
  concat (map design_rows controlPoints).

Definition target_vector `{JSMath T} (controlPoints : list ControlPoint) : list T :=
  concat (map target_rows controlPoints).

(** The normal equations [(AᵗA) x = AᵗB] of a system with six unknowns:
    entry [(r, c)] of [AᵗA] sums [row[r] * row[c]] over the rows of [A],
    entry [r] of [AᵗB] sums [row[r] * target] over rows and targets, both
    from zero and in row order. *)
Definition gram_entry (A : Matrix) (r c : nat) : T :=
  foldl (fun acc row => num_add acc (num_mul (aget row r) (aget row c))) (num_of_Q 0) A.

Definition moment_entry (A : Matrix) (B : list T) (r : nat) : T :=
  foldl (fun acc rb => num_add acc (num_mul (aget (fst rb) r) (snd rb)))
        (num_of_Q 0) (zip A B).

Definition normal_matrix (A : Matrix) : Matrix :=
  map (fun r => map (fun c => gram_entry A r c) (seq 0 6)) (seq 0 6).

Definition normal_rhs (A : Matrix) (B : list T) : list T :=
  map (moment_entry A B) (seq 0 6).

(** A transformation as the estimator builds it: of type "precise" and
    carrying its six coefficients. *)
Definition estimated (t : Transformation) : Prop :=
  t_type t = "precise" /\ exists trans, t_transformation t = Some trans.

(** The current transformation of a Georeferencing object: none yet, or
    one the estimator built. *)
Definition transformation_ok (cur : option Transformation) : Prop :=
  match cur with None => True | Some t => estimated t end.

(** A marker keeps its [__meta] and is tagged as coming from GPS data. *)
Definition gps_origin (meta : option MarkerMeta) : Prop :=
  exists m, meta = Some m /\ meta_origin m = "gps".

(** What makes the component move markers: an image-update notification
    (the registered callback runs one synchronisation pass) or a request
    to estimate the transformation. *)
Inductive SyncEvent : Type :=
| ImageUpdated
| EstimationRequested (placeOverlay : Transformation -> ImageOverlay -> ImageOverlay * bool).

Definition handle_event `{JSMath T} (st : Georeferencing) (ev : SyncEvent) : Georeferencing :=
  match ev with
  | ImageUpdated => synchronize st
  | EstimationRequested placeOverlay => snd (performGeoreferencingCalculations placeOverlay st)
  end.

(** One synchronisation pass, in closed form: every tracked collection is
    mapped by the rule of its entities, under the transformation current
    when the pass starts. *)
Definition synchronized `{JSMath T} (st : Georeferencing) : Georeferencing :=
  let cur := currentTransformation st in
  {| gpsData := gpsData st;
     pointJsonData := pointJsonData st;
     currentTransformation := cur;
     imageCoordinateMarkers :=
       map (update_point_marker (match cur with Some _ => true | None => false end) st)
           (imageCoordinateMarkers st);
     imageUpdateCallbackRegistered := imageUpdateCallbackRegistered st;
     routeSpotHandler :=
       match routeSpotHandler st with
       | Some h => Some {| routeMarkers := map (sync_layer cur) (routeMarkers h);
                           spotMarkers := map (sync_marker cur) (spotMarkers h) |}
       | None => None
       end;
     coordinateDisplay := coordinateDisplay st;
     imageOverlay := imageOverlay st |}.

(** An entity is image-sourced when its meta says so and carries both
    pixel coordinates; every other entity (GPS origin, no meta, missing
    pixel coordinates) must keep its position.  [marker_kept m m'] and
    [layer_kept l l'] say that [m'], [l'] are [m], [l] with at most the
    image-sourced positions changed. *)
Definition marker_kept (m m' : Marker) : Prop :=
  m_meta m' = m_meta m /\
  (image_source (m_meta m) = None -> m' = m).

Definition layer_kept (l l' : Layer) : Prop :=
  match l, l' with
  | LMarker m, LMarker m' => marker_kept m m'
  | LPolyline pts metas, LPolyline pts' metas' =>
    metas' = metas /\ length pts' = length pts /\
    (forall j p, pts !! j = Some p -> image_source (metas !! j) = None ->
                 pts' !! j = Some p)
  | LOther, LOther => True
  | _, _ => False
  end.

(** The position rule of an image-sourced entity: the transformed
    position when the transformation yields one, else the old position. *)
Definition affine_position `{JSMath T} (cur : option Transformation) (x y : T) (old : T * T)
  : T * T :=
  match applyAffineTransform x y cur with
  | Some p => p
  | None => old
  end.

(** The elimination without the singularity test: the augmented matrix
    the loop would hold after the given steps. *)
Fixpoint unchecked_loop (n : nat) (steps : list nat) (augmented : Matrix) : Matrix :=
  match steps with
  | [] => augmented
  | i :: rest => unchecked_loop n rest (reduce_step n i (pivot_step n i augmented))
  end.

(** The pivot of step [i], after the swap. *)
Definition pivot_at (A : Matrix) (B : list T) (i : nat) : T :=
  let n := length A in
  aget (mget (pivot_step n i (unchecked_loop n (seq 0 i) (augment A B))) i) i.

(** Some pivot is below the threshold in absolute value. *)
Definition near_singular (A : Matrix) (B : list T) : Prop :=
  exists i, i < length A /\ num_lt (num_abs (pivot_at A B i)) PIVOT_EPS = true.

(** Entry [(k, j)] of a matrix. *)
Definition entry (M : Matrix) (k j : nat) : T := aget (mget M k) j.

(** ** The solver over the heap of arrays (math-utils.js, [gaussJordan])

    Arrays are objects: the caller's matrix is an array of references to
    its rows, and the rows may be shared.  This second model of
    [gaussJordan] keeps the heap explicit, reads and writes one element
    at a time as the source does, and is typed: an array holds numbers or
    references to rows, and an access to an array of the other kind
    raises, which the [try]/[catch] of the source turns into null. *)

Definition ref := nat.

Inductive array : Type :=
| Numbers (elements : list T)
| Rows (elements : list ref).

Definition heap := gmap ref array.

(** A computation over the heap that completes with a value or raises. *)
Definition Heap (X : Type) : Type := heap -> completion X * heap.

Definition hret {X : Type} (x : X) : Heap X := fun h => (Return x, h).

Definition throw {X : Type} : Heap X := fun h => (Throw, h).

Definition hbind {X Y : Type} (m : Heap X) (f : X -> Heap Y) : Heap Y :=
  fun h =>
    match m h with
    | (Return x, h') => f x h'
    | (Throw, h') => (Throw, h')
    end.

Local Notation "'let!' x ':=' m 'in' k" := (hbind m (fun x => k))
  (at level 10, x name, m at level 100, k at level 200).

(** An array literal, [map] and the spread allocate a new array. *)
Definition new_array (a : array) : Heap ref :=
  fun h => let r := fresh (dom h) in (Return r, <[r := a]> h).

Definition numbers_of (r : ref) : Heap (list T) :=
  fun h =>
    match h !! r with
    | Some (Numbers xs) => (Return xs, h)
    | _ => (Throw, h)
    end.

Definition rows_of (r : ref) : Heap (list ref) :=
  fun h =>
    match h !! r with
    | Some (Rows rs) => (Return rs, h)
    | _ => (Throw, h)
    end.

Definition store (r : ref) (a : array) : Heap unit :=
  fun h => (Return tt, <[r := a]> h).

(** [a.length] *)
Definition array_length (r : ref) : Heap nat :=
  fun h =>
    match h !! r with
    | Some (Numbers xs) => (Return (length xs), h)
    | Some (Rows rs) => (Return (length rs), h)
    | None => (Throw, h)
    end.

(** [m[k]], for a row index the loops keep in range. *)
Definition row_at (m : ref) (k : nat) : Heap ref :=
  let! rs := rows_of m in
  match rs !! k with
  | Some r => hret r
  | None => throw
  end.

(** [m[k] = r] *)
Definition set_row (m : ref) (k : nat) (r : ref) : Heap unit :=
  let! rs := rows_of m in store m (Rows (<[k := r]> rs)).

(** [m[k][j]] *)
Definition elem_at (m : ref) (k j : nat) : Heap T :=
  let! r := row_at m k in
  let! xs := numbers_of r in
  hret (aget xs j).

(** [m[k][j] = v] *)
Definition set_elem (m : ref) (k j : nat) (v : T) : Heap unit :=
  let! r := row_at m k in
  let! xs := numbers_of r in
  store r (Numbers (aset xs j v)).

(** [for (... of l) body] *)
Fixpoint for_each (l : list nat) (body : nat -> Heap unit) : Heap unit :=
  match l with
  | [] => hret tt
  | k :: rest => let! _ := body k in for_each rest body
  end.

(** A loop that carries a local variable. *)
Fixpoint fold_each {X : Type} (l : list nat) (body : X -> nat -> Heap X) (s : X) : Heap X :=
  match l with
  | [] => hret s
  | k :: rest => let! s' := body s k in fold_each rest body s'
  end.

(** [rows.map((row, i) => f(i, row))], from index [i] on. *)
Fixpoint map_rows {X : Type} (f : nat -> ref -> Heap X) (i : nat) (rows : list ref)
  : Heap (list X) :=
  match rows with
  | [] => hret []
  | row :: rest =>
    let! x := f i row in
    let! xs := map_rows f (S i) rest in
    hret (x :: xs)
  end.

(** [[...row, B[i]]] *)
Definition copy_row (B : ref) (i : nat) (row : ref) : Heap ref :=
  let! xs := numbers_of row in
  let! bs := numbers_of B in
  new_array (Numbers (xs ++ [aget bs i])).

(** [A.map((row, i) => [...row, B[i]])] *)
Definition augment_on_heap (A B : ref) : Heap ref :=
  let! rows := rows_of A in
  let! copies := map_rows (copy_row B) 0 rows in
  new_array (Rows copies).

Definition select_pivot_on_heap (augmented : ref) (n i : nat) : Heap nat :=
  fold_each (seq (i + 1) (n - (i + 1)))
            (fun maxRow k =>
               let! x := elem_at augmented k i in
               let! y := elem_at augmented maxRow i in
               hret (if num_lt (num_abs y) (num_abs x) then k else maxRow))
            i.

(** The destructuring swap reads both rows before it writes. *)
Definition swap_rows_on_heap (augmented : ref) (i maxRow : nat) : Heap unit :=
  if i =? maxRow then hret tt
  else
    let! rm := row_at augmented maxRow in
    let! ri := row_at augmented i in
    let! _ := set_row augmented i rm in
    set_row augmented maxRow ri.

Definition normalize_on_heap (augmented : ref) (n i : nat) (pivot : T) : Heap unit :=
  for_each (seq i (n + 1 - i))
           (fun j =>
              let! x := elem_at augmented i j in
              set_elem augmented i j (num_div x pivot)).

Definition eliminate_on_heap (augmented : ref) (n i : nat) : Heap unit :=
  for_each (seq 0 n)
           (fun k =>
              if k =? i then hret tt
              else
                let! factor := elem_at augmented k i in
                for_each (seq i (n + 1 - i))
                         (fun j =>
                            let! x := elem_at augmented k j in
                            let! y := elem_at augmented i j in
                            set_elem augmented k j (num_sub x (num_mul factor y)))).

(** One iteration of the outer loop; [false] is the early [return null]. *)
Definition step_on_heap (augmented : ref) (n i : nat) : Heap bool :=
  let! maxRow := select_pivot_on_heap augmented n i in
  let! _ := swap_rows_on_heap augmented i maxRow in
  let! tested := elem_at augmented i i in
  if num_lt (num_abs tested) PIVOT_EPS then hret false
  else
    let! pivot := elem_at augmented i i in
    let! _ := normalize_on_heap augmented n i pivot in
    let! _ := eliminate_on_heap augmented n i in
    hret true.

Fixpoint loop_on_heap (augmented : ref) (n : nat) (steps : list nat) : Heap bool :=
  match steps with
  | [] => hret true
  | i :: rest =>
    let! continue := step_on_heap augmented n i in
    if continue then loop_on_heap augmented n rest else hret false
  end.

(** [augmented.map(row => row[n])] *)
Definition solution_on_heap (augmented : ref) (n : nat) : Heap ref :=
  let! rows := rows_of augmented in
  let! x := map_rows (fun _ row => let! xs := numbers_of row in hret (aget xs n)) 0 rows in
  new_array (Numbers x).

Definition gaussJordan_body (A B : ref) : Heap (option ref) :=
  let! rowsA := array_length A in
  let! rowsB := array_length B in
  if negb (rowsA =? rowsB) then hret None
  else
    let n := rowsA in
    let! augmented := augment_on_heap A B in
    let! completed := loop_on_heap augmented n (seq 0 n) in
    if completed then
      let! x := solution_on_heap augmented n in hret (Some x)
    else hret None.

(** [gaussJordan(A, B)] on the heap: the result, null or a reference to
    the solution vector, and the heap the call leaves. *)
Definition gaussJordan_on_heap (A B : option ref) (h : heap) : option ref * heap :=
  match A, B with
  | Some A, Some B =>
    match gaussJordan_body A B h with
    | (Return result, h') => (result, h')
    | (Throw, h') => (None, h')
    end
  | _, _ => (None, h)
  end.

(** The matrix and the vector an array stands for. *)
Definition read_vector (h : heap) (B : ref) : option (list T) :=
  match h !! B with
  | Some (Numbers xs) => Some xs
  | _ => None
  end.

Definition read_matrix (h : heap) (A : ref) : option Matrix :=
  match h !! A with
  | Some (Rows rs) => mapM (read_vector h) rs
  | _ => None
  end.

(** * Properties that hold in every number model *)

Lemma andb_true_conj (a b : bool) : a && b = true <-> a = true /\ b = true.
Proof. destruct a, b; simpl; intuition congruence. Qed.

Lemma route_point_id_or (p : RoutePoint) :
  str_truthy (str_or (rp_id p) (rp_name p)) = true ->
  route_point_id p = str_or (rp_id p) (rp_name p) /\
  exists s, route_point_id p = Some s.
Proof.
  unfold route_point_id, str_or. destruct (str_truthy (rp_id p)) eqn:E1.
  - intros _. split; [reflexivity|]. destruct (rp_id p); [eauto | discriminate].
  - intros E2. rewrite E2. split; [reflexivity|].
    destruct (rp_name p); [eauto | discriminate].
Qed.

Lemma route_point_id_none (p : RoutePoint) :
  str_truthy (str_or (rp_id p) (rp_name p)) = false -> route_point_id p = None.
Proof.
  unfold route_point_id, str_or. destruct (str_truthy (rp_id p)) eqn:E1.
  - intros E2. congruence.
  - intros E2. rewrite E2. reflexivity.
Qed.

Lemma isSameSpot_same_spot (s1 s2 : Spot) :
  isSameSpot s1 s2 = true <-> same_spot s1 s2.
Proof.
  unfold isSameSpot, same_spot, spot_image.
  destruct (spot_imageX s1), (spot_imageY s1), (spot_imageX s2), (spot_imageY s2);
    try apply andb_true_conj;
    destruct (spot_coordinates s1), (spot_coordinates s2);
    try apply andb_true_conj; split; (discriminate || tauto).
Qed.

Lemma id_eqb_some (a b : string) : id_eqb (Some a) (Some b) = true <-> a = b.
Proof.
  unfold id_eqb. rewrite bool_decide_eq_true. split; congruence.
Qed.

Lemma opt_truthy_position (p : RoutePoint) :
  opt_truthy (rp_lat p) = true -> opt_truthy (rp_lng p) = true ->
  route_point_position p = Some (opt_num (rp_lat p), opt_num (rp_lng p)).
Proof.
  unfold route_point_position. destruct (rp_lat p), (rp_lng p); simpl; congruence.
Qed.

Lemma usable_position_none (p : RoutePoint) :
  usable_coordinates p ->
  opt_truthy (rp_lat p) && opt_truthy (rp_lng p) = false ->
  route_point_position p = None.
Proof.
  intros [Hlat Hlng]. unfold route_point_position.
  destruct (rp_lat p) as [la|]; [|reflexivity].
  destruct (rp_lng p) as [lo|]; [|reflexivity].
  simpl. rewrite (Hlat la eq_refl), (Hlng lo eq_refl). discriminate.
Qed.

(** The comparison by identifiers, once all four exist. *)
Lemma ids_compare (a b c d : string) :
  id_eqb (Some a) (Some c) && id_eqb (Some b) (Some d)
  || id_eqb (Some a) (Some d) && id_eqb (Some b) (Some c) = true
  <-> (a = c /\ b = d) \/ (a = d /\ b = c).
Proof.
  rewrite orb_true_iff, !andb_true_conj, !id_eqb_some. reflexivity.
Qed.

Lemma route_ids_cases (s1 e1 s2 e2 : RoutePoint) :
  (str_truthy (str_or (rp_id s1) (rp_name s1)) &&
   str_truthy (str_or (rp_id e1) (rp_name e1)) &&
   str_truthy (str_or (rp_id s2) (rp_name s2)) &&
   str_truthy (str_or (rp_id e2) (rp_name e2)) = true /\
   exists a b c d,
     (route_point_id s1 = Some a /\ str_or (rp_id s1) (rp_name s1) = Some a) /\
     (route_point_id e1 = Some b /\ str_or (rp_id e1) (rp_name e1) = Some b) /\
     (route_point_id s2 = Some c /\ str_or (rp_id s2) (rp_name s2) = Some c) /\
     (route_point_id e2 = Some d /\ str_or (rp_id e2) (rp_name e2) = Some d))
  \/
  (str_truthy (str_or (rp_id s1) (rp_name s1)) &&
   str_truthy (str_or (rp_id e1) (rp_name e1)) &&
   str_truthy (str_or (rp_id s2) (rp_name s2)) &&
   str_truthy (str_or (rp_id e2) (rp_name e2)) = false /\
   (route_point_id s1 = None \/ route_point_id e1 = None \/
    route_point_id s2 = None \/ route_point_id e2 = None)).
Proof.
  destruct (str_truthy (str_or (rp_id s1) (rp_name s1))) eqn:I1;
    [|right; split; [reflexivity | left; apply route_point_id_none, I1]].
  destruct (str_truthy (str_or (rp_id e1) (rp_name e1))) eqn:I2;
    [|right; split; [reflexivity | right; left; apply route_point_id_none, I2]].
  destruct (str_truthy (str_or (rp_id s2) (rp_name s2))) eqn:I3;
    [|right; split; [reflexivity | do 2 right; left; apply route_point_id_none, I3]].
  destruct (str_truthy (str_or (rp_id e2) (rp_name e2))) eqn:I4;
    [|right; split; [reflexivity | do 3 right; apply route_point_id_none, I4]].
  left. split; [reflexivity|].
  destruct (route_point_id_or _ I1) as [E1 [a Ha]].
  destruct (route_point_id_or _ I2) as [E2 [b Hb]].
  destruct (route_point_id_or _ I3) as [E3 [c Hc]].
  destruct (route_point_id_or _ I4) as [E4 [d Hd]].
  exists a, b, c, d. rewrite <- E1, <- E2, <- E3, <- E4. tauto.
Qed.

(** The comparison by coordinates, for route points whose coordinates are
    usable numbers whenever present. *)
Lemma coords_compare (s1 e1 s2 e2 : RoutePoint) :
  usable_coordinates s1 -> usable_coordinates e1 ->
  usable_coordinates s2 -> usable_coordinates e2 ->
  (if opt_truthy (rp_lat s1) && opt_truthy (rp_lng s1) &&
      opt_truthy (rp_lat e1) && opt_truthy (rp_lng e1) &&
      opt_truthy (rp_lat s2) && opt_truthy (rp_lng s2) &&
      opt_truthy (rp_lat e2) && opt_truthy (rp_lng e2)
   then
     within (num_of_Q (1 # 10000)) (opt_num (rp_lat s1)) (opt_num (rp_lat s2)) &&
     within (num_of_Q (1 # 10000)) (opt_num (rp_lng s1)) (opt_num (rp_lng s2)) &&
     within (num_of_Q (1 # 10000)) (opt_num (rp_lat e1)) (opt_num (rp_lat e2)) &&
     within (num_of_Q (1 # 10000)) (opt_num (rp_lng e1)) (opt_num (rp_lng e2))
     || within (num_of_Q (1 # 10000)) (opt_num (rp_lat s1)) (opt_num (rp_lat e2)) &&
        within (num_of_Q (1 # 10000)) (opt_num (rp_lng s1)) (opt_num (rp_lng e2)) &&
        within (num_of_Q (1 # 10000)) (opt_num (rp_lat e1)) (opt_num (rp_lat s2)) &&
        within (num_of_Q (1 # 10000)) (opt_num (rp_lng e1)) (opt_num (rp_lng s2))
   else false) = true
  <->
  match route_point_position s1, route_point_position e1,
        route_point_position s2, route_point_position e2 with
  | Some ps1, Some pe1, Some ps2, Some pe2 =>
    (near ps1 ps2 /\ near pe1 pe2) \/ (near ps1 pe2 /\ near pe1 ps2)
  | _, _, _, _ => False
  end.
Proof.
  intros U1 U2 U3 U4.
  destruct (opt_truthy (rp_lat s1) && opt_truthy (rp_lng s1)) eqn:C1;
    [ apply andb_true_conj in C1 as [C1a C1b]; rewrite (opt_truthy_position s1 C1a C1b)
    | rewrite (usable_position_none s1 U1 C1); cbn [andb]; split; [discriminate | tauto] ].
  destruct (opt_truthy (rp_lat e1) && opt_truthy (rp_lng e1)) eqn:C2;
    [ apply andb_true_conj in C2 as [C2a C2b];
      rewrite C2a, C2b, (opt_truthy_position e1 C2a C2b)
    | rewrite (usable_position_none e1 U2 C2); cbn [andb];
      rewrite C2; cbn [andb]; split; [discriminate | tauto] ].
  destruct (opt_truthy (rp_lat s2) && opt_truthy (rp_lng s2)) eqn:C3;
    [ apply andb_true_conj in C3 as [C3a C3b];
      rewrite C3a, C3b, (opt_truthy_position s2 C3a C3b)
    | rewrite (usable_position_none s2 U3 C3); cbn [andb];
      rewrite C3; cbn [andb]; split; [discriminate | tauto] ].
  destruct (opt_truthy (rp_lat e2) && opt_truthy (rp_lng e2)) eqn:C4;
    [ apply andb_true_conj in C4 as [C4a C4b];
      rewrite C4a, C4b, (opt_truthy_position e2 C4a C4b)
    | rewrite (usable_position_none e2 U4 C4); cbn [andb];
      rewrite C4; cbn [andb]; split; [discriminate | tauto] ].
  cbn [andb]. unfold near. cbn [fst snd].
  rewrite orb_true_iff, !andb_true_iff. tauto.
Qed.

Lemma isSameRoute_same_route (r1 r2 : Route) :
  route_usable r1 -> route_usable r2 ->
  isSameRoute r1 r2 = true <-> same_route r1 r2.
Proof.
  intros [U1s U1e] [U2s U2e]. unfold isSameRoute, same_route.
  destruct (startPoint r1) as [s1|]; [|split; [discriminate | tauto]].
  destruct (endPoint r1) as [e1|]; [|split; [discriminate | tauto]].
  destruct (startPoint r2) as [s2|]; [|split; [discriminate | tauto]].
  destruct (endPoint r2) as [e2|]; [|split; [discriminate | tauto]].
  specialize (U1s s1 eq_refl). specialize (U1e e1 eq_refl).
  specialize (U2s s2 eq_refl). specialize (U2e e2 eq_refl).
  destruct (route_ids_cases s1 e1 s2 e2)
    as [[-> (a & b & c & d & [-> ->] & [-> ->] & [-> ->] & [-> ->])] | [-> Hnone]].
  - apply ids_compare.
  - rewrite (coords_compare s1 e1 s2 e2 U1s U1e U2s U2e).
    destruct Hnone as [-> | [-> | [-> | ->]]];
      repeat match goal with
             | |- context [match route_point_id ?x with _ => _ end] =>
               destruct (route_point_id x)
             end; reflexivity.
Qed.

Lemma position_if_usable_some (p : RoutePoint) :
  opt_truthy (rp_lat p) = true -> opt_truthy (rp_lng p) = true ->
  position_if_usable p = Some (opt_num (rp_lat p), opt_num (rp_lng p)).
Proof.
  unfold position_if_usable. destruct (rp_lat p), (rp_lng p); simpl; try congruence.
  intros -> ->. reflexivity.
Qed.

Lemma position_if_usable_none (p : RoutePoint) :
  opt_truthy (rp_lat p) && opt_truthy (rp_lng p) = false ->
  position_if_usable p = None.
Proof.
  unfold position_if_usable. destruct (rp_lat p), (rp_lng p); simpl; try reflexivity.
  intros ->. reflexivity.
Qed.

(** The comparison by coordinates, whatever the coordinates are. *)
Lemma coords_compare_where_usable (s1 e1 s2 e2 : RoutePoint) :
  (if opt_truthy (rp_lat s1) && opt_truthy (rp_lng s1) &&
      opt_truthy (rp_lat e1) && opt_truthy (rp_lng e1) &&
      opt_truthy (rp_lat s2) && opt_truthy (rp_lng s2) &&
      opt_truthy (rp_lat e2) && opt_truthy (rp_lng e2)
   then
     within (num_of_Q (1 # 10000)) (opt_num (rp_lat s1)) (opt_num (rp_lat s2)) &&
     within (num_of_Q (1 # 10000)) (opt_num (rp_lng s1)) (opt_num (rp_lng s2)) &&
     within (num_of_Q (1 # 10000)) (opt_num (rp_lat e1)) (opt_num (rp_lat e2)) &&
     within (num_of_Q (1 # 10000)) (opt_num (rp_lng e1)) (opt_num (rp_lng e2))
     || within (num_of_Q (1 # 10000)) (opt_num (rp_lat s1)) (opt_num (rp_lat e2)) &&
        within (num_of_Q (1 # 10000)) (opt_num (rp_lng s1)) (opt_num (rp_lng e2)) &&
        within (num_of_Q (1 # 10000)) (opt_num (rp_lat e1)) (opt_num (rp_lat s2)) &&
        within (num_of_Q (1 # 10000)) (opt_num (rp_lng e1)) (opt_num (rp_lng s2))
   else false) = true
  <->
  match position_if_usable s1, position_if_usable e1,
        position_if_usable s2, position_if_usable e2 with
  | Some ps1, Some pe1, Some ps2, Some pe2 =>
    (near ps1 ps2 /\ near pe1 pe2) \/ (near ps1 pe2 /\ near pe1 ps2)
  | _, _, _, _ => False
  end.
Proof.
  destruct (opt_truthy (rp_lat s1) && opt_truthy (rp_lng s1)) eqn:C1;
    [ apply andb_true_conj in C1 as [C1a C1b]; rewrite (position_if_usable_some s1 C1a C1b)
    | rewrite (position_if_usable_none s1 C1); cbn [andb]; split; [discriminate | tauto] ].
  destruct (opt_truthy (rp_lat e1) && opt_truthy (rp_lng e1)) eqn:C2;
    [ apply andb_true_conj in C2 as [C2a C2b];
      rewrite C2a, C2b, (position_if_usable_some e1 C2a C2b)
    | rewrite (position_if_usable_none e1 C2); cbn [andb];
      rewrite C2; cbn [andb]; split; [discriminate | tauto] ].
  destruct (opt_truthy (rp_lat s2) && opt_truthy (rp_lng s2)) eqn:C3;
    [ apply andb_true_conj in C3 as [C3a C3b];
      rewrite C3a, C3b, (position_if_usable_some s2 C3a C3b)
    | rewrite (position_if_usable_none s2 C3); cbn [andb];
      rewrite C3; cbn [andb]; split; [discriminate | tauto] ].
  destruct (opt_truthy (rp_lat e2) && opt_truthy (rp_lng e2)) eqn:C4;
    [ apply andb_true_conj in C4 as [C4a C4b];
      rewrite C4a, C4b, (position_if_usable_some e2 C4a C4b)
    | rewrite (position_if_usable_none e2 C4); cbn [andb];
      rewrite C4; cbn [andb]; split; [discriminate | tauto] ].
  cbn [andb]. unfold near. cbn [fst snd].
  rewrite orb_true_iff, !andb_true_iff. tauto.
Qed.

Lemma isSameRoute_where_usable (r1 r2 : Route) :
  isSameRoute r1 r2 = true <-> same_route_where_usable r1 r2.
Proof.
  unfold isSameRoute, same_route_where_usable.
  destruct (startPoint r1) as [s1|]; [|split; [discriminate | tauto]].
  destruct (endPoint r1) as [e1|]; [|split; [discriminate | tauto]].
  destruct (startPoint r2) as [s2|]; [|split; [discriminate | tauto]].
  destruct (endPoint r2) as [e2|]; [|split; [discriminate | tauto]].
  destruct (route_ids_cases s1 e1 s2 e2)
    as [[-> (a & b & c & d & [-> ->] & [-> ->] & [-> ->] & [-> ->])] | [-> Hnone]].
  - apply ids_compare.
  - rewrite (coords_compare_where_usable s1 e1 s2 e2).
    destruct Hnone as [-> | [-> | [-> | ->]]];
      repeat match goal with
             | |- context [match route_point_id ?x with _ => _ end] =>
               destruct (route_point_id x)
             end; reflexivity.
Qed.

(** Between routes whose end points all carry identifiers, the positions
    play no part. *)
Lemma same_route_identified (r1 r2 : Route) :
  route_identified r1 -> route_identified r2 ->
  same_route_where_usable r1 r2 <-> same_route r1 r2.
Proof.
  intros [I1s I1e] [I2s I2e]. unfold same_route_where_usable, same_route.
  destruct (startPoint r1) as [s1|]; [|tauto].
  destruct (endPoint r1) as [e1|]; [|tauto].
  destruct (startPoint r2) as [s2|]; [|tauto].
  destruct (endPoint r2) as [e2|]; [|tauto].
  specialize (I1s s1 eq_refl). specialize (I1e e1 eq_refl).
  specialize (I2s s2 eq_refl). specialize (I2e e2 eq_refl).
  destruct (route_point_id s1); [|congruence].
  destruct (route_point_id e1); [|congruence].
  destruct (route_point_id s2); [|congruence].
  destruct (route_point_id e2); [|congruence].
  tauto.
Qed.

(** *** Image coordinates to GPS *)

Lemma convertImageCoordsToGps_null (imageX imageY : T) (b : option LatLngBounds)
  (w h : option T) :
  convertImageCoordsToGps imageX imageY b w h = None
  <-> b = None \/ unusable_dimension w \/ unusable_dimension h.
Proof.
  unfold convertImageCoordsToGps, unusable_dimension.
  destruct b as [b|]; [|tauto].
  destruct (opt_truthy w), (opt_truthy h); simpl; split; intros H;
    try discriminate; try tauto;
    destruct H as [H | [H | H]]; discriminate.
Qed.

(** *** Matching *)

Lemma first_truthy_resolve (p : PointJson) :
  first_truthy [pj_Id p; pj_id p; pj_name p]
  = if str_truthy (resolve_id p) then resolve_id p else None.
Proof.
  unfold resolve_id, str_or. simpl.
  destruct (pj_Id p) as [a|], (pj_id p) as [b|], (pj_name p) as [c|]; simpl;
    repeat match goal with
           | |- context [String.eqb ?x ""] => destruct (String.eqb x "") eqn:?; simpl
           end; try congruence.
Qed.

Lemma last_cons_cases {A : Type} (x : A) (l : list A) :
  last (x :: l) = match last l with Some y => Some y | None => Some x end.
Proof.
  destruct l as [|a l]; [reflexivity|].
  change (last (x :: a :: l)) with (last (a :: l)).
  destruct (last (a :: l)) eqn:E; [reflexivity|].
  apply last_None in E. discriminate.
Qed.

Lemma build_gpsPointMap_lookup (gpsPoints : list GpsPoint) (m : gmap (option string) GpsPoint)
  (id : string) :
  foldl (fun m g => <[gps_pointId g := g]> m) m gpsPoints !! Some id
  = match gps_counterpart gpsPoints id with
    | Some g => Some g
    | None => m !! Some id
    end.
Proof.
  unfold gps_counterpart. revert m.
  induction gpsPoints as [|g gs IH]; intros m; simpl; [reflexivity|].
  rewrite IH. destruct (decide (gps_pointId g = Some id)) as [Hg|Hg].
  - rewrite filter_cons_True by exact Hg. rewrite last_cons_cases.
    destruct (last (filter _ gs)); [reflexivity|].
    rewrite Hg. apply lookup_insert_eq.
  - rewrite filter_cons_False by exact Hg.
    destruct (last (filter _ gs)); [reflexivity|].
    apply lookup_insert_ne. exact Hg.
Qed.

Lemma match_entity_outcome (gpsPoints : list GpsPoint)
  (acc : list ControlPoint * list string) (index : nat) (p : PointJson) :
  match_entity (build_gpsPointMap gpsPoints) acc (index, p)
  = (fst acc ++ option_list (matched_of (entity_outcome gpsPoints index p)),
     snd acc ++ option_list (unmatched_of (entity_outcome gpsPoints index p))).
Proof.
  unfold match_entity, entity_outcome. rewrite first_truthy_resolve.
  destruct (str_truthy (resolve_id p)) eqn:E; simpl.
  - destruct (resolve_id p) as [id|]; [|discriminate].
    unfold build_gpsPointMap. rewrite build_gpsPointMap_lookup, lookup_empty.
    destruct (gps_counterpart gpsPoints id); simpl; rewrite ?app_nil_r;
      destruct acc; reflexivity.
  - rewrite app_nil_r. destruct acc; reflexivity.
Qed.

Lemma match_loop_outcomes (gpsPoints : list GpsPoint) (l : list PointJson) :
  forall (k : nat) (acc : list ControlPoint * list string),
  foldl (match_entity (build_gpsPointMap gpsPoints)) acc (imap (fun i x => (k + i, x)) l)
  = (fst acc ++ omap matched_of (imap (fun i => entity_outcome gpsPoints (k + i)) l),
     snd acc ++ omap unmatched_of (imap (fun i => entity_outcome gpsPoints (k + i)) l)).
Proof.
  induction l as [|p l IH]; intros k acc.
  - simpl. rewrite !app_nil_r. destruct acc; reflexivity.
  - cbn [imap foldl]. rewrite Nat.add_0_r, match_entity_outcome.
    rewrite (imap_ext _ (fun i x => (S k + i, x)) l) by (intros; simpl; f_equal; lia).
    rewrite IH. cbn [fst snd].
    rewrite (imap_ext ((fun i => entity_outcome gpsPoints (k + i)) ∘ S)
                      (fun i => entity_outcome gpsPoints (S k + i)) l)
      by (intros; simpl; f_equal; lia).
    destruct (entity_outcome gpsPoints k p); simpl; rewrite <- ?app_assoc; reflexivity.
Qed.

Lemma matchPointJsonWithGPS_outcomes (data : PointJsonData) (gpsPoints : list GpsPoint) :
  let outcomes := imap (entity_outcome gpsPoints) (pointJsonArray data) in
  matchPointJsonWithGPS (Some data) gpsPoints
  = {| matchedPairs := omap matched_of outcomes;
       unmatchedPointJsonIds := omap unmatched_of outcomes;
       totalPointJsons := length (pointJsonArray data) |}.
Proof.
  unfold matchPointJsonWithGPS, entries. cbv zeta.
  rewrite (imap_ext pair (fun i x => (0 + i, x)) _) by reflexivity.
  rewrite match_loop_outcomes. reflexivity.
Qed.






(** *** The design matrix of the affine estimator *)

Lemma mget_middle (P : Matrix) (r : list T) (rest : Matrix) (i : nat) :
  length P = i -> mget (P ++ r :: rest) i = r.
Proof. intros <-. unfold mget. apply nth_middle. Qed.

Lemma insert_middle {A : Type} (P : list A) (x y : A) (rest : list A) (i : nat) :
  length P = i -> <[i := y]> (P ++ x :: rest) = P ++ y :: rest.
Proof.
  intros <-. rewrite insert_app_r_alt by lia. rewrite Nat.sub_diag. reflexivity.
Qed.

Lemma mset_middle (P : Matrix) (r : list T) (rest : Matrix) (i c : nat) (v : T) :
  length P = i -> mset (P ++ r :: rest) i c v = P ++ aset r c v :: rest.
Proof.
  intros Hi. unfold mset. rewrite (mget_middle _ _ _ _ Hi).
  apply insert_middle, Hi.
Qed.

Lemma aset_middle (P : list T) (x : T) (rest : list T) (i : nat) (v : T) :
  length P = i -> aset (P ++ x :: rest) i v = P ++ v :: rest.
Proof.
  intros Hi. unfold aset. rewrite length_app. simpl.
  destruct (i <? length P + S (length rest)) eqn:E.
  - apply insert_middle, Hi.
  - apply Nat.ltb_ge in E. lia.
Qed.

Lemma fill_equations_middle (gpsX gpsY : T) (PA : Matrix) (SA : Matrix)
  (PB SB : list T) (z1 z2 : T) (i : nat) (cp : ControlPoint) :
  length PA = i * 2 -> length PB = i * 2 ->
  fill_equations gpsX gpsY
    (PA ++ replicate 6 (num_of_Q 0) :: replicate 6 (num_of_Q 0) :: SA,
     PB ++ z1 :: z2 :: SB) (i, cp)
  = ((PA ++ design_rows cp) ++ SA, (PB ++ [gpsX; gpsY]) ++ SB).
Proof.
  intros HA HB. unfold fill_equations.
  rewrite !(mset_middle PA _ _ (i * 2)) by exact HA.
  rewrite (aset_middle PB _ _ (i * 2)) by exact HB.
  assert (HA' : length (PA ++ [aset (aset (aset (aset (aset (aset
                  (replicate 6 (num_of_Q 0)) 0 (opt_num (pj_imageX (pointJson cp))))
                  1 (opt_num (pj_imageY (pointJson cp)))) 2 (num_of_Q 1))
                  3 (num_of_Q 0)) 4 (num_of_Q 0)) 5 (num_of_Q 0)]) = i * 2 + 1)
    by (rewrite length_app; simpl; lia).
  assert (HB' : length (PB ++ [gpsX]) = i * 2 + 1)
    by (rewrite length_app; simpl; lia).
  rewrite (cons_middle _ PA), (cons_middle gpsX PB), !app_assoc.
  rewrite !(mset_middle _ _ _ (i * 2 + 1)) by exact HA'.
  rewrite (aset_middle _ _ _ (i * 2 + 1)) by exact HB'.
  rewrite <- !app_assoc. reflexivity.
Qed.

Lemma replicate_double {A : Type} (m : nat) (z : A) :
  replicate (2 * S m) z = z :: z :: replicate (2 * m) z.
Proof. replace (2 * S m) with (S (S (2 * m))) by lia. reflexivity. Qed.

Lemma build_equations_loop `{JSMath T} (l : list ControlPoint) :
  forall (k : nat) (PA : Matrix) (PB : list T),
  length PA = k * 2 -> length PB = k * 2 ->
  foldl (fun AB icp =>
           fill_equations (lonToWebMercatorX (gps_lng (gpsPoint (snd icp))))
                          (latToWebMercatorY (gps_lat (gpsPoint (snd icp)))) AB icp)
        (PA ++ replicate (2 * length l) (replicate 6 (num_of_Q 0)),
         PB ++ replicate (2 * length l) (num_of_Q 0))
        (imap (fun i x => (k + i, x)) l)
  = (PA ++ design_matrix l, PB ++ target_vector l).
Proof.
  induction l as [|cp l IH]; intros k PA PB HA HB.
  - reflexivity.
  - cbn [imap foldl length]. rewrite !replicate_double, Nat.add_0_r. cbn [snd].
    rewrite (fill_equations_middle _ _ PA _ PB _ _ _ k cp HA HB).
    rewrite (imap_ext _ (fun i x => (S k + i, x)) l) by (intros; simpl; f_equal; lia).
    rewrite IH.
    + unfold design_matrix, target_vector. cbn [map concat].
      rewrite <- !app_assoc. reflexivity.
    + rewrite length_app. simpl. lia.
    + rewrite length_app. simpl. lia.
Qed.

Lemma build_equations_spec `{JSMath T} (controlPoints : list ControlPoint) :
  build_equations controlPoints
  = (design_matrix controlPoints, target_vector controlPoints).
Proof.
  unfold build_equations, entries.
  rewrite (imap_ext pair (fun i x => (0 + i, x)) _) by reflexivity.
  apply (build_equations_loop controlPoints 0 [] []); reflexivity.
Qed.

Lemma design_matrix_length (controlPoints : list ControlPoint) :
  length (design_matrix controlPoints) = 2 * length controlPoints.
Proof.
  unfold design_matrix. induction controlPoints as [|cp l IH]; [reflexivity|].
  cbn [map concat length]. rewrite length_app, IH. simpl. lia.
Qed.

Lemma target_vector_length `{JSMath T} (controlPoints : list ControlPoint) :
  length (target_vector controlPoints) = 2 * length controlPoints.
Proof.
  unfold target_vector. induction controlPoints as [|cp l IH]; [reflexivity|].
  cbn [map concat length]. rewrite length_app, IH. simpl. lia.
Qed.

Lemma design_matrix_lookup (controlPoints : list ControlPoint) (i : nat) (cp : ControlPoint) :
  controlPoints !! i = Some cp ->
  design_matrix controlPoints !! (2 * i) = design_rows cp !! 0 /\
  design_matrix controlPoints !! (2 * i + 1) = design_rows cp !! 1.
Proof.
  unfold design_matrix. revert i.
  induction controlPoints as [|c l IH]; intros i Hi; [discriminate|].
  destruct i as [|i].
  - injection Hi as ->. split; reflexivity.
  - cbn [map concat]. simpl in Hi.
    destruct (IH i Hi) as [H0 H1].
    replace (2 * S i) with (2 + 2 * i) by lia.
    replace (2 + 2 * i + 1) with (2 + (2 * i + 1)) by lia.
    split; [exact H0 | exact H1].
Qed.

Lemma target_vector_lookup `{JSMath T} (controlPoints : list ControlPoint) (i : nat)
  (cp : ControlPoint) :
  controlPoints !! i = Some cp ->
  target_vector controlPoints !! (2 * i) = target_rows cp !! 0 /\
  target_vector controlPoints !! (2 * i + 1) = target_rows cp !! 1.
Proof.
  unfold target_vector. revert i.
  induction controlPoints as [|c l IH]; intros i Hi; [discriminate|].
  destruct i as [|i].
  - injection Hi as ->. split; reflexivity.
  - cbn [map concat]. simpl in Hi.
    destruct (IH i Hi) as [H0 H1].
    replace (2 * S i) with (2 + 2 * i) by lia.
    replace (2 + 2 * i + 1) with (2 + (2 * i + 1)) by lia.
    split; [exact H0 | exact H1].
Qed.

Lemma design_matrix_width (controlPoints : list ControlPoint) (row : list T) :
  row ∈ design_matrix controlPoints -> length row = 6.
Proof.
  unfold design_matrix. induction controlPoints as [|cp l IH]; intros Hrow.
  - inversion Hrow.
  - cbn [map concat] in Hrow. unfold design_rows in Hrow. cbv zeta in Hrow.
    cbn [app] in Hrow.
    apply elem_of_cons in Hrow as [-> | Hrow]; [reflexivity|].
    apply elem_of_cons in Hrow as [-> | Hrow]; [reflexivity|].
    apply IH, Hrow.
Qed.

(** *** The normal equations *)

Lemma foldl_seq_nth {A B : Type} (f : B -> A -> B) (d : A) (l : list A) :
  forall (p : list A) (a : B),
  foldl (fun acc k => f acc (nth k (p ++ l) d)) a (seq (length p) (length l))
  = foldl f a l.
Proof.
  induction l as [|x l IH]; intros p a; [reflexivity|].
  cbn [length seq foldl]. rewrite nth_middle.
  specialize (IH (p ++ [x]) (f a x)).
  rewrite length_app, <- app_assoc in IH. cbn [length app] in IH.
  rewrite Nat.add_1_r in IH. exact IH.
Qed.

Lemma foldl_ext_all {A B : Type} (f g : B -> A -> B) (l : list A) :
  (forall acc x, f acc x = g acc x) -> forall a, foldl f a l = foldl g a l.
Proof.
  intros Hfg. induction l as [|x l IH]; intros a; [reflexivity|].
  simpl. rewrite Hfg. apply IH.
Qed.

Lemma aget_map_row (A : Matrix) (r k : nat) :
  aget (map (fun row => aget row r) A) k = aget (mget A k) r.
Proof.
  unfold aget, mget.
  assert (Hd : num_nan = (fun row : list T => nth r row num_nan) [])
    by (destruct r; reflexivity).
  rewrite Hd at 1. apply (map_nth (fun row : list T => nth r row num_nan)).
Qed.

Lemma multiply_entry (A : Matrix) (r c : nat) :
  foldl (fun acc k =>
           num_add acc (num_mul (aget (map (fun row => aget row r) A) k)
                                (aget (mget A k) c)))
        (num_of_Q 0) (seq 0 (length A))
  = gram_entry A r c.
Proof.
  unfold gram_entry.
  rewrite <- (foldl_seq_nth
                (fun acc row => num_add acc (num_mul (aget row r) (aget row c)))
                [] A [] (num_of_Q 0)).
  apply foldl_ext_all. intros acc k. rewrite aget_map_row. reflexivity.
Qed.

Lemma aget_middle (P : list T) (x : T) (rest : list T) (i : nat) :
  length P = i -> aget (P ++ x :: rest) i = x.
Proof. intros <-. apply nth_middle. Qed.

Lemma row_dot_loop (f : list T -> T) (A : Matrix) :
  forall (k : nat) (a : T) (P B : list T),
  length P = k -> length A = length B ->
  foldl (fun sum iv => num_add sum (num_mul (snd iv) (aget (P ++ B) (fst iv))))
        a (imap (fun i x => (k + i, x)) (map f A))
  = foldl (fun acc rb => num_add acc (num_mul (f (fst rb)) (snd rb))) a (zip A B).
Proof.
  induction A as [|row A IH]; intros k a P B HP HB; [reflexivity|].
  destruct B as [|b B]; [discriminate|].
  cbn [map imap foldl zip zip_with fst snd]. rewrite Nat.add_0_r.
  rewrite (aget_middle P b B k HP).
  rewrite (imap_ext _ (fun i x => (S k + i, x)) (map f A))
    by (intros; simpl; f_equal; lia).
  specialize (IH (S k) (num_add a (num_mul (f row) b)) (P ++ [b]) B).
  rewrite <- app_assoc in IH. cbn [app] in IH. apply IH.
  - rewrite length_app. simpl. lia.
  - simpl in HB. lia.
Qed.

Lemma row_dot_column (A : Matrix) (B : list T) (r : nat) :
  length A = length B ->
  row_dot (map (fun row => aget row r) A) B = moment_entry A B r.
Proof.
  intros HB. unfold row_dot, moment_entry.
  rewrite (imap_ext pair (fun i x => (0 + i, x)) _) by reflexivity.
  apply (row_dot_loop (fun row => aget row r) A 0 (num_of_Q 0) [] B); [reflexivity | exact HB].
Qed.

(** The products the estimator forms from a design matrix of at least
    two rows of width six. *)
Lemma normal_equations_products (row0 : list T) (rest : Matrix) (B : list T) :
  length row0 = 6 -> length (row0 :: rest) = length B ->
  multiply (transpose (Some (row0 :: rest))) (Some (row0 :: rest))
  = Some (normal_matrix (row0 :: rest)) /\
  multiplyVector (transpose (Some (row0 :: rest))) (Some B)
  = Return (Some (normal_rhs (row0 :: rest) B)).
Proof.
  intros H6 HB.
  destruct row0 as [|a0 [|a1 [|a2 [|a3 [|a4 [|a5 [|]]]]]]]; try discriminate.
  set (A := [a0; a1; a2; a3; a4; a5] :: rest) in *.
  assert (Ht : transpose (Some A)
               = Some (map (fun r => map (fun row => aget row r) A) (seq 0 6)))
    by reflexivity.
  rewrite Ht. split.
  - unfold multiply. cbn [length map seq Nat.eqb orb negb mget nth].
    rewrite length_map.
    replace (length A =? 0) with false by reflexivity.
    rewrite Nat.eqb_refl. cbn [orb negb].
    unfold normal_matrix. f_equal. cbn [map seq].
    replace (length (mget A 0)) with 6 by reflexivity. cbn [map seq].
    rewrite !multiply_entry. reflexivity.
  - unfold multiplyVector. cbn [map seq]. rewrite length_map, HB, Nat.eqb_refl.
    cbn [negb]. unfold normal_rhs. cbn [map seq].
    rewrite !row_dot_column by exact HB. reflexivity.
Qed.

Lemma design_matrix_cons (cp : ControlPoint) (l : list ControlPoint) :
  design_matrix (cp :: l)
  = [opt_num (pj_imageX (pointJson cp)); opt_num (pj_imageY (pointJson cp));
     num_of_Q 1; num_of_Q 0; num_of_Q 0; num_of_Q 0]
    :: ([num_of_Q 0; num_of_Q 0; num_of_Q 0;
         opt_num (pj_imageX (pointJson cp)); opt_num (pj_imageY (pointJson cp));
         num_of_Q 1] :: design_matrix l).
Proof. reflexivity. Qed.

Lemma calculateAffineTransformation_spec `{JSMath T} (controlPoints : list ControlPoint) :
  calculateAffineTransformation controlPoints
  = match controlPoints with
    | [] => None
    | _ :: _ =>
      match gaussJordan (Some (normal_matrix (design_matrix controlPoints)))
                        (Some (normal_rhs (design_matrix controlPoints)
                                          (target_vector controlPoints))) with
      | None => None
      | Some params => Some (params_of params)
      end
    end.
Proof.
  unfold calculateAffineTransformation. rewrite build_equations_spec.
  destruct controlPoints as [|cp l]; [reflexivity|].
  pose proof (design_matrix_length (cp :: l)) as HA.
  pose proof (target_vector_length (cp :: l)) as HB.
  rewrite <- HB in HA. clear HB.
  remember (target_vector (cp :: l)) as B eqn:EB. clear EB.
  rewrite design_matrix_cons in *. cbv beta iota zeta.
  match goal with
  | |- context [transpose (Some (?r0 :: ?rs))] =>
    destruct (normal_equations_products r0 rs B eq_refl HA) as [H1 H2]
  end.
  rewrite H2. cbv beta iota. rewrite H1. reflexivity.
Qed.

(** *** Position synchronisation *)

Section Synchronisation.
Context `{JSMath T}.

Lemma image_source_gps (meta : option MarkerMeta) :
  gps_origin meta -> image_source meta = None.
Proof. intros [m [-> Ho]]. unfold image_source. rewrite Ho. reflexivity. Qed.

Lemma transformImageCoordsToGps_ok (x y : T) (cur : option Transformation) :
  transformation_ok cur ->
  transformImageCoordsToGps x y cur = applyAffineTransform x y cur.
Proof.
  destruct cur as [t|]; [|reflexivity]. intros [Ht _].
  unfold transformImageCoordsToGps. rewrite Ht. reflexivity.
Qed.

Lemma sync_marker_meta (cur : option Transformation) (m : Marker) :
  m_meta (sync_marker cur m) = m_meta m.
Proof.
  unfold sync_marker. destruct (image_source (m_meta m)) as [[x y]|]; [|reflexivity].
  destruct (transformImageCoordsToGps x y cur); reflexivity.
Qed.

Lemma sync_marker_fixed (cur : option Transformation) (m : Marker) :
  image_source (m_meta m) = None -> sync_marker cur m = m.
Proof. intros Hs. unfold sync_marker. rewrite Hs. reflexivity. Qed.

Lemma sync_marker_idem (cur : option Transformation) (m : Marker) :
  sync_marker cur (sync_marker cur m) = sync_marker cur m.
Proof.
  unfold sync_marker at 1. rewrite sync_marker_meta.
  unfold sync_marker. destruct (image_source (m_meta m)) as [[x y]|]; [|reflexivity].
  destruct (transformImageCoordsToGps x y cur); reflexivity.
Qed.

Lemma sync_vertex_idem (cur : option Transformation) (metaPoints : list MarkerMeta)
  (i : nat) (p : T * T) :
  sync_vertex cur metaPoints i (sync_vertex cur metaPoints i p)
  = sync_vertex cur metaPoints i p.
Proof.
  unfold sync_vertex. destruct (image_source (metaPoints !! i)) as [[x y]|].
  - destruct (transformImageCoordsToGps x y cur); reflexivity.
  - reflexivity.
Qed.

Lemma imap_imap_same {A : Type} (f : nat -> A -> A) (l : list A) :
  (forall i x, f i (f i x) = f i x) -> imap f (imap f l) = imap f l.
Proof.
  revert f. induction l as [|x l IH]; intros f Hf; [reflexivity|].
  cbn [imap]. rewrite Hf. f_equal. apply IH. intros i y. apply Hf.
Qed.

Lemma sync_layer_idem (cur : option Transformation) (l : Layer) :
  sync_layer cur (sync_layer cur l) = sync_layer cur l.
Proof.
  destruct l as [m | pts metas |]; simpl; [| |reflexivity].
  - rewrite sync_marker_idem. reflexivity.
  - f_equal. apply imap_imap_same. intros i x. apply sync_vertex_idem.
Qed.

Lemma map_map_same {A : Type} (f : A -> A) (l : list A) :
  (forall x, f (f x) = f x) -> map f (map f l) = map f l.
Proof.
  intros Hf. rewrite map_map. apply map_ext. exact Hf.
Qed.

(** The fields of the state a pass reads and does not change. *)
Definition same_environment (st st' : Georeferencing) : Prop :=
  currentTransformation st' = currentTransformation st /\
  coordinateDisplay st' = coordinateDisplay st /\
  imageOverlay st' = imageOverlay st /\
  imageUpdateCallbackRegistered st' = imageUpdateCallbackRegistered st /\
  gpsData st' = gpsData st /\
  pointJsonData st' = pointJsonData st.

Lemma update_point_marker_env (b : bool) (st st' : Georeferencing) (mi : MarkerInfo) :
  same_environment st st' -> update_point_marker b st' mi = update_point_marker b st mi.
Proof.
  intros (Hc & Hd & Ho & _). unfold update_point_marker. rewrite Hc, Hd, Ho. reflexivity.
Qed.

Lemma update_point_marker_idem (b : bool) (st : Georeferencing) (mi : MarkerInfo) :
  update_point_marker b st (update_point_marker b st mi) = update_point_marker b st mi.
Proof.
  unfold update_point_marker.
  destruct (negb (String.eqb (mi_type mi) "georeference-point")) eqn:Et;
    [rewrite Et; reflexivity|].
  destruct (mi_data mi) as [[[x|] [y|]]|] eqn:Ed; try (rewrite Et, Ed; reflexivity).
  match goal with
  | |- context [match ?e with Some pos => _ | None => mi end] => destruct e as [pos|] eqn:En
  end.
  - cbn [mi_type mi_data]. rewrite Et, En. reflexivity.
  - rewrite Et, Ed, En. reflexivity.
Qed.

(** The three collections after the passes. *)
Lemma syncPointPositions_markers (st : Georeferencing) :
  syncPointPositions st
  = set_imageCoordinateMarkers st
      (map (update_point_marker
              (match currentTransformation st with Some _ => true | None => false end) st)
           (imageCoordinateMarkers st)).
Proof.
  unfold syncPointPositions, syncPointPositionsBasedOnImageBounds, updateMarkerPositions.
  destruct (currentTransformation st); reflexivity.
Qed.

Lemma syncRouteSpotPositions_closed (st : Georeferencing) :
  syncRouteSpotPositions st
  = {| gpsData := gpsData st;
       pointJsonData := pointJsonData st;
       currentTransformation := currentTransformation st;
       imageCoordinateMarkers := imageCoordinateMarkers st;
       imageUpdateCallbackRegistered := imageUpdateCallbackRegistered st;
       routeSpotHandler :=
         match routeSpotHandler st with
         | Some h =>
           Some {| routeMarkers := map (sync_layer (currentTransformation st)) (routeMarkers h);
                   spotMarkers := map (sync_marker (currentTransformation st)) (spotMarkers h) |}
         | None => None
         end;
       coordinateDisplay := coordinateDisplay st;
       imageOverlay := imageOverlay st |}.
Proof.
  unfold syncRouteSpotPositions, syncRouteMarkers, syncSpotMarkers,
    routeMarkers_of, spotMarkers_of.
  destruct st as [g pj cur ms reg [[[|r rs] [|m sp]]|] cd io]; reflexivity.
Qed.

Lemma synchronize_closed (st : Georeferencing) : synchronize st = synchronized st.
Proof.
  unfold synchronize. rewrite syncRouteSpotPositions_closed, syncPointPositions_markers.
  reflexivity.
Qed.

Lemma synchronized_environment (st : Georeferencing) :
  same_environment st (synchronized st).
Proof. unfold same_environment. simpl. auto 10. Qed.

Lemma synchronized_idem (st : Georeferencing) :
  synchronized (synchronized st) = synchronized st.
Proof.
  unfold synchronized at 1. cbn [gpsData pointJsonData currentTransformation
    imageCoordinateMarkers imageUpdateCallbackRegistered routeSpotHandler
    coordinateDisplay imageOverlay synchronized].
  unfold synchronized. f_equal.
  - rewrite map_map. apply map_ext. intros mi.
    rewrite (update_point_marker_env _ st _ _ (synchronized_environment st)).
    apply update_point_marker_idem.
  - destruct (routeSpotHandler st) as [h|]; [|reflexivity].
    cbn [routeMarkers spotMarkers]. f_equal. f_equal.
    + apply map_map_same, sync_layer_idem.
    + apply map_map_same, sync_marker_idem.
Qed.

(** *** Entities that are not image-sourced keep their position *)

Lemma marker_kept_refl (m : Marker) : marker_kept m m.
Proof. split; auto. Qed.

Lemma marker_kept_trans (m1 m2 m3 : Marker) :
  marker_kept m1 m2 -> marker_kept m2 m3 -> marker_kept m1 m3.
Proof.
  intros [A1 A2] [B1 B2]. split; [congruence|].
  intros Hs. rewrite <- (A2 Hs). apply B2. rewrite A1. exact Hs.
Qed.

Lemma sync_marker_kept (cur : option Transformation) (m : Marker) :
  marker_kept m (sync_marker cur m).
Proof. split; [apply sync_marker_meta | apply sync_marker_fixed]. Qed.

Lemma layer_kept_refl (l : Layer) : layer_kept l l.
Proof. destruct l; simpl; auto using marker_kept_refl. Qed.

Lemma layer_kept_trans (l1 l2 l3 : Layer) :
  layer_kept l1 l2 -> layer_kept l2 l3 -> layer_kept l1 l3.
Proof.
  destruct l1 as [m1|p1 t1|], l2 as [m2|p2 t2|], l3 as [m3|p3 t3|]; simpl;
    try tauto.
  - apply marker_kept_trans.
  - intros (-> & L1 & K1) (-> & L2 & K2). split; [reflexivity|].
    split; [congruence|]. intros j p Hp Hs. apply K2; [|exact Hs]. apply K1; assumption.
Qed.

Lemma sync_layer_kept (cur : option Transformation) (l : Layer) :
  layer_kept l (sync_layer cur l).
Proof.
  destruct l as [m|pts metas|]; simpl; [apply sync_marker_kept | | exact I].
  split; [reflexivity|]. split; [apply length_imap|].
  intros j p Hp Hs. rewrite list_lookup_imap, Hp. simpl.
  unfold sync_vertex. rewrite Hs. destruct p; reflexivity.
Qed.

Lemma Forall2_kept_refl {A : Type} (R : A -> A -> Prop) (l : list A) :
  (forall x, R x x) -> Forall2 R l l.
Proof. intros HR. induction l; constructor; auto. Qed.

Lemma Forall2_kept_trans {A : Type} (R : A -> A -> Prop) (l1 l2 l3 : list A) :
  (forall x y z, R x y -> R y z -> R x z) ->
  Forall2 R l1 l2 -> Forall2 R l2 l3 -> Forall2 R l1 l3.
Proof.
  intros HR H12. revert l3. induction H12; intros l3 H23; inversion H23; subst;
    constructor; eauto.
Qed.

Lemma Forall2_kept_map {A : Type} (R : A -> A -> Prop) (f : A -> A) (l : list A) :
  (forall x, R x (f x)) -> Forall2 R l (map f l).
Proof. intros HR. induction l; simpl; constructor; auto. Qed.

(** What a pass or an estimation may do to the route and spot markers. *)
Definition handler_kept (st st' : Georeferencing) : Prop :=
  Forall2 layer_kept (routeMarkers_of st) (routeMarkers_of st') /\
  Forall2 marker_kept (spotMarkers_of st) (spotMarkers_of st') /\
  gpsData st' = gpsData st.

Lemma handler_kept_refl (st : Georeferencing) : handler_kept st st.
Proof.
  repeat split; [apply Forall2_kept_refl, layer_kept_refl
                | apply Forall2_kept_refl, marker_kept_refl].
Qed.

Lemma handler_kept_trans (st1 st2 st3 : Georeferencing) :
  handler_kept st1 st2 -> handler_kept st2 st3 -> handler_kept st1 st3.
Proof.
  intros (A1 & A2 & A3) (B1 & B2 & B3). repeat split.
  - exact (Forall2_kept_trans _ _ _ _ layer_kept_trans A1 B1).
  - exact (Forall2_kept_trans _ _ _ _ marker_kept_trans A2 B2).
  - congruence.
Qed.

Lemma handler_kept_same (st st' : Georeferencing) :
  routeSpotHandler st' = routeSpotHandler st -> gpsData st' = gpsData st ->
  handler_kept st st'.
Proof.
  intros Hh Hg. unfold handler_kept, routeMarkers_of, spotMarkers_of. rewrite Hh.
  repeat split; [apply Forall2_kept_refl, layer_kept_refl
                | apply Forall2_kept_refl, marker_kept_refl | exact Hg].
Qed.

Lemma syncRouteSpotPositions_kept (st : Georeferencing) :
  handler_kept st (syncRouteSpotPositions st).
Proof.
  rewrite syncRouteSpotPositions_closed.
  unfold handler_kept, routeMarkers_of, spotMarkers_of. cbn [routeSpotHandler gpsData].
  destruct (routeSpotHandler st) as [h|]; cbn [routeMarkers spotMarkers].
  - repeat split; [apply Forall2_kept_map, sync_layer_kept
                  | apply Forall2_kept_map, sync_marker_kept].
  - repeat split; constructor.
Qed.

Lemma syncPointPositions_kept (st : Georeferencing) :
  handler_kept st (syncPointPositions st).
Proof. rewrite syncPointPositions_markers. apply handler_kept_same; reflexivity. Qed.

Lemma synchronize_kept (st : Georeferencing) : handler_kept st (synchronize st).
Proof.
  unfold synchronize.
  exact (handler_kept_trans _ _ _ (syncPointPositions_kept st)
                            (syncRouteSpotPositions_kept _)).
Qed.

(** *** Estimation *)

Lemma calculatePreciseTransformation_insufficient (controlPoints : list ControlPoint) :
  length controlPoints < 3 -> calculatePreciseTransformation controlPoints = None.
Proof.
  intros Hlt. unfold calculatePreciseTransformation.
  apply Nat.ltb_lt in Hlt. rewrite Hlt. reflexivity.
Qed.

Lemma calculatePreciseTransformation_estimated (controlPoints : list ControlPoint)
  (t : Transformation) :
  calculatePreciseTransformation controlPoints = Some t ->
  estimated t /\ 3 <= length controlPoints /\ t_controlPoints t = controlPoints.
Proof.
  unfold calculatePreciseTransformation.
  destruct (length controlPoints <? 3) eqn:E; [discriminate|].
  apply Nat.ltb_ge in E.
  destruct (calculateAffineTransformation controlPoints) as [trans|]; [|discriminate].
  intros Ht. injection Ht as <-. split; [|split; [exact E | reflexivity]].
  split; [reflexivity | eexists; reflexivity].
Qed.

Lemma updatePointJsonMarkersAfterTransformation_kept (st : Georeferencing) :
  handler_kept st (updatePointJsonMarkersAfterTransformation st) /\
  currentTransformation (updatePointJsonMarkersAfterTransformation st)
  = currentTransformation st.
Proof.
  unfold updatePointJsonMarkersAfterTransformation.
  destruct (currentTransformation st) as [t|] eqn:Ec;
    [|split; [apply handler_kept_refl | exact Ec]].
  destruct (length (imageCoordinateMarkers st) =? 0);
    [split; [apply handler_kept_refl | exact Ec]|].
  rewrite syncPointPositions_markers. split; [|exact Ec].
  apply handler_kept_same; reflexivity.
Qed.

Lemma applyPreciseTransformation_kept
  (placeOverlay : Transformation -> ImageOverlay -> ImageOverlay * bool)
  (st : Georeferencing) (t : Transformation) :
  handler_kept st (applyPreciseTransformation placeOverlay st t) /\
  currentTransformation (applyPreciseTransformation placeOverlay st t) = Some t.
Proof.
  unfold applyPreciseTransformation.
  destruct (placeOverlay t (imageOverlay (set_currentTransformation st (Some t))))
    as [overlay notified].
  set (st1 := set_imageOverlay (set_currentTransformation st (Some t)) overlay).
  set (st2 := if notified && imageUpdateCallbackRegistered st1 then synchronize st1 else st1).
  assert (H1 : handler_kept st st1) by (apply handler_kept_same; reflexivity).
  assert (H2 : handler_kept st1 st2 /\ currentTransformation st2 = Some t).
  { unfold st2. destruct (notified && imageUpdateCallbackRegistered st1).
    - split; [apply synchronize_kept|]. rewrite synchronize_closed. reflexivity.
    - split; [apply handler_kept_refl | reflexivity]. }
  destruct H2 as [H2 Hc].
  destruct (updatePointJsonMarkersAfterTransformation_kept st2) as [H3 Hc3].
  split; [|rewrite Hc3; exact Hc].
  exact (handler_kept_trans _ _ _ H1 (handler_kept_trans _ _ _ H2 H3)).
Qed.

Lemma performAutomaticGeoreferencing_kept
  (placeOverlay : Transformation -> ImageOverlay -> ImageOverlay * bool)
  (st : Georeferencing) (matched : list ControlPoint) :
  handler_kept st (performAutomaticGeoreferencing placeOverlay st matched) /\
  (transformation_ok (currentTransformation st) ->
   transformation_ok
     (currentTransformation (performAutomaticGeoreferencing placeOverlay st matched))).
Proof.
  unfold performAutomaticGeoreferencing.
  destruct (calculatePreciseTransformation matched) as [t|] eqn:Et;
    [|split; [apply handler_kept_refl | auto]].
  apply calculatePreciseTransformation_estimated in Et as [Hest _].
  unfold applyTransformationToImage. destruct Hest as [Hty Htr]. rewrite Hty. simpl.
  destruct (applyPreciseTransformation_kept placeOverlay st t) as [H1 Hc].
  split.
  - exact (handler_kept_trans _ _ _ H1 (syncRouteSpotPositions_kept _)).
  - intros _. rewrite syncRouteSpotPositions_closed. cbn [currentTransformation].
    rewrite Hc. split; assumption.
Qed.

Lemma performGeoreferencingCalculations_kept
  (placeOverlay : Transformation -> ImageOverlay -> ImageOverlay * bool)
  (st : Georeferencing) :
  handler_kept st (snd (performGeoreferencingCalculations placeOverlay st)) /\
  (transformation_ok (currentTransformation st) ->
   transformation_ok
     (currentTransformation (snd (performGeoreferencingCalculations placeOverlay st)))).
Proof.
  unfold performGeoreferencingCalculations.
  destruct (3 <=? length (matchedPairs (matchPointJsonWithGPS (pointJsonData st) (gpsData st))));
    cbn [snd]; [|split; [apply handler_kept_refl | auto]].
  destruct (performAutomaticGeoreferencing_kept placeOverlay st
              (matchedPairs (matchPointJsonWithGPS (pointJsonData st) (gpsData st))))
    as [H1 H2].
  destruct (imageUpdateCallbackRegistered _); [split; assumption|].
  split; [|exact H2].
  refine (handler_kept_trans _ _ _ H1 _). apply handler_kept_same; reflexivity.
Qed.

Lemma performGeoreferencingCalculations_insufficient
  (placeOverlay : Transformation -> ImageOverlay -> ImageOverlay * bool)
  (st : Georeferencing) :
  length (matchedPairs (matchPointJsonWithGPS (pointJsonData st) (gpsData st))) < 3 ->
  performGeoreferencingCalculations placeOverlay st
  = (inl (InsufficientControlPoints
            (length (matchedPairs (matchPointJsonWithGPS (pointJsonData st) (gpsData st))))),
     st).
Proof.
  intros Hlt. unfold performGeoreferencingCalculations.
  destruct (3 <=? _) eqn:E; [|reflexivity].
  apply Nat.leb_le in E. lia.
Qed.

Lemma handle_event_kept (st : Georeferencing) (ev : SyncEvent) :
  handler_kept st (handle_event st ev) /\
  (transformation_ok (currentTransformation st) ->
   transformation_ok (currentTransformation (handle_event st ev))).
Proof.
  destruct ev as [|placeOverlay]; simpl.
  - split; [apply synchronize_kept|]. rewrite synchronize_closed. auto.
  - apply performGeoreferencingCalculations_kept.
Qed.

Lemma handle_events_kept (events : list SyncEvent) :
  forall st : Georeferencing,
  handler_kept st (foldl handle_event st events) /\
  (transformation_ok (currentTransformation st) ->
   transformation_ok (currentTransformation (foldl handle_event st events))).
Proof.
  induction events as [|ev events IH]; intros st; simpl.
  - split; [apply handler_kept_refl | auto].
  - destruct (handle_event_kept st ev) as [H1 H2].
    destruct (IH (handle_event st ev)) as [H3 H4].
    split; [exact (handler_kept_trans _ _ _ H1 H3) | auto].
Qed.

(** *** Image-sourced entities are repositioned *)

Lemma sync_marker_position (cur : option Transformation) (m : Marker) (x y : T) :
  transformation_ok cur -> image_source (m_meta m) = Some (x, y) ->
  sync_marker cur m
  = {| m_latlng := affine_position cur x y (m_latlng m); m_meta := m_meta m |}.
Proof.
  intros Hok Hs. unfold sync_marker, affine_position.
  rewrite Hs, (transformImageCoordsToGps_ok _ _ _ Hok).
  destruct (applyAffineTransform x y cur); [reflexivity|]. destruct m; reflexivity.
Qed.

Lemma sync_vertex_position (cur : option Transformation) (metas : list MarkerMeta)
  (j : nat) (p : T * T) (x y : T) :
  transformation_ok cur -> image_source (metas !! j) = Some (x, y) ->
  sync_vertex cur metas j p = affine_position cur x y p.
Proof.
  intros Hok Hs. unfold sync_vertex, affine_position.
  rewrite Hs, (transformImageCoordsToGps_ok _ _ _ Hok).
  destruct (applyAffineTransform x y cur); [reflexivity|]. destruct p; reflexivity.
Qed.

Lemma update_point_marker_position (st : Georeferencing) (t : Transformation)
  (mi : MarkerInfo) (x y : T) :
  currentTransformation st = Some t -> estimated t ->
  mi_type mi = "georeference-point" ->
  mi_data mi = Some {| pd_imageX := Some x; pd_imageY := Some y |} ->
  update_point_marker true st mi
  = {| mi_marker := affine_position (Some t) x y (mi_marker mi);
       mi_type := mi_type mi; mi_data := mi_data mi |}.
Proof.
  intros Hc Hest Hty Hd. unfold update_point_marker, affine_position.
  rewrite Hty, Hd, Hc.
  assert (E : negb (String.eqb "georeference-point" "georeference-point") = false)
    by reflexivity.
  rewrite E, (transformImageCoordsToGps_ok x y (Some t) Hest).
  destruct (applyAffineTransform x y (Some t)); [reflexivity|].
  destruct mi; simpl in *; subst; reflexivity.
Qed.

Lemma lookup_map_Some {A B : Type} (f : A -> B) (l : list A) (i : nat) (x : A) :
  l !! i = Some x -> map f l !! i = Some (f x).
Proof.
  revert i. induction l as [|a l IH]; intros [|i] Hi; try discriminate; simpl in *.
  - injection Hi as ->. reflexivity.
  - apply IH, Hi.
Qed.

Lemma kept_marker_lookup (l l' : list Layer) (i : nat) (m : Marker) :
  Forall2 layer_kept l l' -> l !! i = Some (LMarker m) ->
  image_source (m_meta m) = None -> l' !! i = Some (LMarker m).
Proof.
  intros HF Hi Hs. destruct (Forall2_lookup_l _ _ _ _ _ HF Hi) as [y [Hy Hk]].
  rewrite Hy. destruct y as [m'| |]; simpl in Hk; try contradiction.
  destruct Hk as [_ Hk]. rewrite (Hk Hs). reflexivity.
Qed.

Lemma kept_vertex_lookup (l l' : list Layer) (i j : nat) (pts : list (T * T))
  (metas : list MarkerMeta) (p : T * T) :
  Forall2 layer_kept l l' -> l !! i = Some (LPolyline pts metas) ->
  pts !! j = Some p -> image_source (metas !! j) = None ->
  exists pts', l' !! i = Some (LPolyline pts' metas) /\ length pts' = length pts /\
               pts' !! j = Some p.
Proof.
  intros HF Hi Hp Hs. destruct (Forall2_lookup_l _ _ _ _ _ HF Hi) as [y [Hy Hk]].
  destruct y as [|pts' metas'|]; simpl in Hk; try contradiction.
  destruct Hk as (-> & Hlen & Hk). exists pts'. rewrite Hy. auto.
Qed.

Lemma kept_spot_lookup (l l' : list Marker) (i : nat) (m : Marker) :
  Forall2 marker_kept l l' -> l !! i = Some m ->
  image_source (m_meta m) = None -> l' !! i = Some m.
Proof.
  intros HF Hi Hs. destruct (Forall2_lookup_l _ _ _ _ _ HF Hi) as [y [Hy Hk]].
  rewrite Hy. destruct Hk as [_ Hk]. rewrite (Hk Hs). reflexivity.
Qed.

End Synchronisation.

(** *** Gauss-Jordan: when the solver gives up *)

Lemma gj_loop_cases (n : nat) (steps : list nat) :
  forall M : Matrix,
  (gj_loop n steps M = Some (unchecked_loop n steps M) /\
   forall pre i post, steps = pre ++ i :: post ->
     num_lt (num_abs (aget (mget (pivot_step n i (unchecked_loop n pre M)) i) i)) PIVOT_EPS
     = false)
  \/
  (gj_loop n steps M = None /\
   exists pre i post, steps = pre ++ i :: post /\
     num_lt (num_abs (aget (mget (pivot_step n i (unchecked_loop n pre M)) i) i)) PIVOT_EPS
     = true).
Proof.
  induction steps as [|i rest IH]; intros M.
  - left. split; [reflexivity|]. intros [|? ?] ? ? Heq; discriminate.
  - cbn [gj_loop unchecked_loop]. unfold gj_step.
    destruct (num_lt (num_abs (aget (mget (pivot_step n i M) i) i)) PIVOT_EPS) eqn:Et.
    + right. split; [reflexivity|]. exists [], i, rest. split; [reflexivity | exact Et].
    + destruct (IH (reduce_step n i (pivot_step n i M))) as [[He Hall] | [He Hex]].
      * left. split; [exact He|]. intros [|i' pre] j post Heq.
        -- injection Heq as -> _. exact Et.
        -- injection Heq as -> Heq. cbn [unchecked_loop]. exact (Hall pre j post Heq).
      * right. split; [exact He|].
        destruct Hex as (pre & j & post & Heq & Hj).
        exists (i :: pre), j, post. split; [rewrite Heq; reflexivity | exact Hj].
Qed.

Lemma seq_split_at (n : nat) (pre : list nat) (i : nat) (post : list nat) :
  seq 0 n = pre ++ i :: post -> pre = seq 0 i /\ i < n.
Proof.
  intros Heq.
  assert (Hlen : length pre < n).
  { apply (f_equal length) in Heq. rewrite length_seq, length_app in Heq.
    simpl in Heq. lia. }
  assert (Hi : i = length pre).
  { assert (Hn : nth (length pre) (seq 0 n) 0 = i) by (rewrite Heq; apply nth_middle).
    rewrite seq_nth in Hn by exact Hlen. simpl in Hn. symmetry. exact Hn. }
  subst i. split; [|exact Hlen].
  assert (Ht : take (length pre) (seq 0 n) = pre)
    by (rewrite Heq; apply take_app_length).
  rewrite <- Ht at 1. rewrite take_seq. f_equal. lia.
Qed.

Lemma gaussJordan_null (A : Matrix) (B : list T) :
  gaussJordan (Some A) (Some B) = None
  <-> length A <> length B \/ near_singular A B.
Proof.
  unfold gaussJordan. destruct (length A =? length B) eqn:El; cbn [negb].
  - apply Nat.eqb_eq in El.
    destruct (gj_loop_cases (length A) (seq 0 (length A)) (augment A B))
      as [[-> Hall] | [-> Hex]].
    + split; [discriminate|]. intros [Hne | (i & Hi & Hp)]; [contradiction|].
      unfold pivot_at in Hp.
      assert (Hs : seq 0 (length A) = seq 0 i ++ i :: seq (S i) (length A - S i)).
      { replace (length A) with (i + S (length A - S i)) at 1 by lia.
        rewrite seq_app. reflexivity. }
      rewrite (Hall _ _ _ Hs) in Hp. discriminate.
    + split; [|reflexivity]. intros _. right.
      destruct Hex as (pre & i & post & Hs & Hp).
      apply seq_split_at in Hs as [-> Hi]. exists i. split; [exact Hi | exact Hp].
  - apply Nat.eqb_neq in El. split; [auto | reflexivity].
Qed.

Lemma gaussJordan_value (A : Matrix) (B : list T) (x : list T) :
  gaussJordan (Some A) (Some B) = Some x ->
  length A = length B /\
  x = map (fun row => aget row (length A))
          (unchecked_loop (length A) (seq 0 (length A)) (augment A B)) /\
  forall i, i < length A -> num_lt (num_abs (pivot_at A B i)) PIVOT_EPS = false.
Proof.
  unfold gaussJordan. destruct (length A =? length B) eqn:El; cbn [negb]; [|discriminate].
  apply Nat.eqb_eq in El.
  destruct (gj_loop_cases (length A) (seq 0 (length A)) (augment A B))
    as [[-> Hall] | [-> Hex]]; [|discriminate].
  intros Hx. injection Hx as <-. split; [exact El|]. split; [reflexivity|].
  intros i Hi. unfold pivot_at. apply (Hall (seq 0 i) i (seq (S i) (length A - S i))).
  replace (length A) with (i + S (length A - S i)) at 1 by lia.
  rewrite seq_app. reflexivity.
Qed.

(** *** Gauss-Jordan: the row operations, entry by entry *)

Lemma aget_lookup (row : list T) (j : nat) : aget row j = default num_nan (row !! j).
Proof. unfold aget. apply nth_lookup. Qed.

Lemma aget_aset (row : list T) (j j' : nat) (v : T) :
  aget (aset row j v) j' = if j =? j' then v else aget row j'.
Proof.
  unfold aset. destruct (j <? length row) eqn:Ej.
  - apply Nat.ltb_lt in Ej. rewrite !aget_lookup.
    destruct (j =? j') eqn:E.
    + apply Nat.eqb_eq in E. subst j'. rewrite list_lookup_insert_eq by exact Ej. reflexivity.
    + apply Nat.eqb_neq in E. rewrite list_lookup_insert_ne by exact E. reflexivity.
  - apply Nat.ltb_ge in Ej. rewrite !aget_lookup.
    destruct (j =? j') eqn:E.
    + apply Nat.eqb_eq in E. subst j'.
      rewrite lookup_app_r by exact Ej.
      rewrite lookup_app_r by (rewrite length_replicate; lia).
      rewrite length_replicate, Nat.sub_diag. reflexivity.
    + apply Nat.eqb_neq in E.
      destruct (decide (j' < length row)) as [Hlt|Hge].
      * rewrite lookup_app_l by exact Hlt. reflexivity.
      * rewrite lookup_app_r by lia.
        rewrite (lookup_ge_None_2 row j') by lia. simpl.
        destruct (decide (j' - length row < j - length row)) as [Hl|Hg].
        -- rewrite lookup_app_l by (rewrite length_replicate; exact Hl).
           rewrite lookup_replicate_2 by exact Hl. reflexivity.
        -- rewrite lookup_app_r by (rewrite length_replicate; lia).
           rewrite length_replicate.
           destruct (j' - length row - (j - length row)) as [|d] eqn:Ed; [lia|].
           reflexivity.
Qed.

(** Columns [i .. n] of a row. *)
Definition in_columns (i n j : nat) : bool := (i <=? j) && (j <=? n).

Lemma row_loop_aget (f : nat -> T -> T) (m : nat) :
  forall (i : nat) (row : list T) (j : nat),
  aget (foldl (fun r c => aset r c (f c (aget r c))) row (seq i m)) j
  = if (i <=? j) && (j <? i + m) then f j (aget row j) else aget row j.
Proof.
  induction m as [|m IH]; intros i row j.
  - simpl. nat_cases.
  - cbn [seq foldl]. rewrite IH, !aget_aset. nat_cases.
Qed.

Lemma in_columns_range (i n j : nat) :
  i <= n -> ((i <=? j) && (j <? i + (n + 1 - i))) = in_columns i n j.
Proof. intros Hin. unfold in_columns. nat_cases. Qed.

Lemma normalize_row_aget (n i : nat) (pivot : T) (row : list T) (j : nat) :
  i <= n ->
  aget (normalize_row n i pivot row) j
  = if in_columns i n j then num_div (aget row j) pivot else aget row j.
Proof.
  intros Hin. unfold normalize_row.
  rewrite (row_loop_aget (fun _ v => num_div v pivot)), in_columns_range by exact Hin.
  reflexivity.
Qed.

Lemma eliminate_row_aget (n i : nat) (factor : T) (rowi rowk : list T) (j : nat) :
  i <= n ->
  aget (eliminate_row n i factor rowi rowk) j
  = if in_columns i n j
    then num_sub (aget rowk j) (num_mul factor (aget rowi j))
    else aget rowk j.
Proof.
  intros Hin. unfold eliminate_row.
  rewrite (row_loop_aget (fun c v => num_sub v (num_mul factor (aget rowi c)))),
    in_columns_range by exact Hin.
  reflexivity.
Qed.

Lemma mget_lookup (M : list (list T)) (k : nat) : mget M k = default [] (M !! k).
Proof. unfold mget. apply nth_lookup. Qed.

Lemma mget_insert (M : list (list T)) (k k' : nat) (row : list T) :
  k < length M ->
  mget (<[k := row]> M) k' = if k =? k' then row else mget M k'.
Proof.
  intros Hk. rewrite !mget_lookup. destruct (k =? k') eqn:E.
  - apply Nat.eqb_eq in E. subst k'. rewrite list_lookup_insert_eq by exact Hk. reflexivity.
  - apply Nat.eqb_neq in E. rewrite list_lookup_insert_ne by exact E. reflexivity.
Qed.

(** The row index that ends at position [k] when rows [i] and [m] swap. *)
Definition swapped_index (i m k : nat) : nat :=
  if k =? i then m else if k =? m then i else k.

Lemma swap_rows_mget (i m : nat) (M : Matrix) (k : nat) :
  i < length M -> m < length M ->
  mget (swap_rows i m M) k = mget M (swapped_index i m k).
Proof.
  intros Hi Hm. unfold swap_rows, swapped_index.
  destruct (Nat.eqb_spec i m) as [->|Hne].
  - nat_cases.
  - rewrite mget_insert by (rewrite length_insert; exact Hm).
    rewrite mget_insert by exact Hi. nat_cases.
Qed.

Lemma swap_rows_length (i m : nat) (M : Matrix) :
  length (swap_rows i m M) = length M.
Proof.
  unfold swap_rows. destruct (i =? m); [reflexivity|]. rewrite !length_insert. reflexivity.
Qed.

Lemma select_pivot_loop_range (i : nat) (M : Matrix) (m : nat) :
  forall (start best : nat), i <= best < start ->
  i <= foldl (fun maxRow k =>
                if num_lt (num_abs (aget (mget M maxRow) i)) (num_abs (aget (mget M k) i))
                then k else maxRow) best (seq start m) < start + m.
Proof.
  induction m as [|m IH]; intros start best Hb; simpl; [lia|].
  destruct (num_lt _ _).
  - specialize (IH (S start) start). lia.
  - specialize (IH (S start) best). lia.
Qed.

Lemma select_pivot_range (n i : nat) (M : Matrix) :
  i < n -> i <= select_pivot n i M < n.
Proof.
  intros Hi. unfold select_pivot.
  pose proof (select_pivot_loop_range i M (n - (i + 1)) (i + 1) i) as H.
  lia.
Qed.

Lemma pivot_step_length (n i : nat) (M : Matrix) :
  length (pivot_step n i M) = length M.
Proof. apply swap_rows_length. Qed.

Lemma pivot_step_entry (n i : nat) (M : Matrix) (k j : nat) :
  length M = n -> i < n ->
  entry (pivot_step n i M) k j = entry M (swapped_index i (select_pivot n i M) k) j.
Proof.
  intros Hlen Hi. unfold entry, pivot_step.
  pose proof (select_pivot_range n i M Hi).
  rewrite swap_rows_mget by lia. reflexivity.
Qed.

Lemma eliminate_column_loop (n i : nat) (M : Matrix) (m : nat) :
  length M = n -> i < n -> m <= n ->
  let step := fun (M : Matrix) (k : nat) =>
    if k =? i then M
    else <[k := eliminate_row n i (aget (mget M k) i) (mget M i) (mget M k)]> M in
  length (foldl step M (seq 0 m)) = n /\
  forall k, mget (foldl step M (seq 0 m)) k
            = if (k <? m) && negb (k =? i)
              then eliminate_row n i (aget (mget M k) i) (mget M i) (mget M k)
              else mget M k.
Proof.
  intros Hlen Hi Hm step. induction m as [|m IH].
  - split; [exact Hlen|]. intros k. reflexivity.
  - destruct IH as [IHlen IHrows]; [lia|].
    rewrite seq_S, foldl_app. cbn [foldl Nat.add].
    set (Mm := foldl step M (seq 0 m)) in *.
    unfold step. destruct (Nat.eqb_spec m i) as [->|Hne].
    + split; [exact IHlen|]. intros k. rewrite IHrows. nat_cases.
    + split; [rewrite length_insert; exact IHlen|]. intros k.
      rewrite mget_insert by lia. rewrite !IHrows.
      destruct (Nat.eqb_spec m k) as [<-|Hk].
      * replace (m <? m) with false by (symmetry; apply Nat.ltb_ge; lia).
        replace (i <? m) with (i <? m) by reflexivity.
        rewrite Nat.eqb_refl. cbn [andb negb]. rewrite andb_false_r.
        replace (m <? S m) with true by (symmetry; apply Nat.ltb_lt; lia).
        replace (m =? i) with false by (symmetry; apply Nat.eqb_neq; exact Hne).
        reflexivity.
      * nat_cases.
Qed.

Lemma eliminate_column_length (n i : nat) (M : Matrix) :
  length M = n -> i < n -> length (eliminate_column n i M) = n.
Proof.
  intros Hlen Hi. apply (eliminate_column_loop n i M n Hlen Hi (Nat.le_refl n)).
Qed.

Lemma eliminate_column_entry (n i : nat) (M : Matrix) (k j : nat) :
  length M = n -> i < n ->
  entry (eliminate_column n i M) k j
  = if (k <? n) && negb (k =? i) && in_columns i n j
    then num_sub (entry M k j) (num_mul (entry M k i) (entry M i j))
    else entry M k j.
Proof.
  intros Hlen Hi. unfold entry, eliminate_column.
  rewrite (proj2 (eliminate_column_loop n i M n Hlen Hi (Nat.le_refl n))).
  destruct ((k <? n) && negb (k =? i)); cbn [andb]; [|reflexivity].
  rewrite eliminate_row_aget by lia. reflexivity.
Qed.

Lemma reduce_step_length (n i : nat) (M : Matrix) :
  length M = n -> i < n -> length (reduce_step n i M) = n.
Proof.
  intros Hlen Hi. unfold reduce_step. apply eliminate_column_length; [|exact Hi].
  rewrite length_insert. exact Hlen.
Qed.

Lemma normalized_entry (n i : nat) (M : Matrix) (k j : nat) :
  length M = n -> i < n ->
  entry (<[i := normalize_row n i (entry M i i) (mget M i)]> M) k j
  = if (k =? i) && in_columns i n j
    then num_div (entry M i j) (entry M i i)
    else entry M k j.
Proof.
  intros Hlen Hi. unfold entry. rewrite mget_insert by lia.
  destruct (Nat.eqb_spec i k) as [<-|Hk].
  - rewrite Nat.eqb_refl. cbn [andb]. apply normalize_row_aget. lia.
  - replace (k =? i) with false by (symmetry; apply Nat.eqb_neq; lia). reflexivity.
Qed.

Lemma reduce_step_entry (n i : nat) (M : Matrix) (k j : nat) :
  length M = n -> i < n -> k < n ->
  entry (reduce_step n i M) k j
  = if in_columns i n j
    then if k =? i
         then num_div (entry M i j) (entry M i i)
         else num_sub (entry M k j)
                      (num_mul (entry M k i) (num_div (entry M i j) (entry M i i)))
    else entry M k j.
Proof.
  intros Hlen Hi Hk. unfold reduce_step. fold (entry M i i).
  rewrite eliminate_column_entry by (rewrite ?length_insert; assumption).
  rewrite !normalized_entry by assumption.
  replace (k <? n) with true by (symmetry; apply Nat.ltb_lt; exact Hk).
  rewrite Nat.eqb_refl. cbn [andb].
  destruct (Nat.eqb_spec k i) as [->|Hne]; cbn [andb negb];
    destruct (in_columns i n j); reflexivity.
Qed.

(** ** The solver writes to arrays of its own only *)

(** A computation keeps an invariant of the heap, whether it completes or
    raises, and its value satisfies [Q]. *)
Definition keeps {X : Type} (I : heap -> Prop) (m : Heap X) (Q : X -> Prop) : Prop :=
  forall h, I h -> I (m h).2 /\ forall x, (m h).1 = Return x -> Q x.

Lemma keeps_ret {X : Type} (I : heap -> Prop) (x : X) (Q : X -> Prop) :
  Q x -> keeps I (hret x) Q.
Proof. intros Hq h Hi. split; [exact Hi|]. intros y [= <-]. exact Hq. Qed.

Lemma keeps_throw {X : Type} (I : heap -> Prop) (Q : X -> Prop) : keeps I throw Q.
Proof. intros h Hi. split; [exact Hi | discriminate]. Qed.

Lemma keeps_bind {X Y : Type} (I : heap -> Prop) (m : Heap X) (f : X -> Heap Y)
    (P : X -> Prop) (Q : Y -> Prop) :
  keeps I m P -> (forall x, P x -> keeps I (f x) Q) -> keeps I (hbind m f) Q.
Proof.
  intros Hm Hf h Hi. unfold hbind.
  destruct (Hm h Hi) as [Hi' Hp]. destruct (m h) as [[x|] h'].
  - apply (Hf x (Hp x eq_refl) h' Hi').
  - split; [exact Hi' | discriminate].
Qed.

Lemma keeps_weaken {X : Type} (I : heap -> Prop) (m : Heap X) (P Q : X -> Prop) :
  keeps I m P -> (forall x, P x -> Q x) -> keeps I m Q.
Proof.
  intros Hm Hpq h Hi. destruct (Hm h Hi) as [Hi' Hp].
  split; [exact Hi'|]. intros x Hx. apply Hpq, Hp, Hx.
Qed.

(** A computation that only reads keeps every invariant. *)
Lemma keeps_read {X : Type} (I : heap -> Prop) (m : Heap X) :
  (forall h, (m h).2 = h) -> keeps I m (fun _ => True).
Proof. intros Hr h Hi. rewrite Hr. split; [exact Hi | trivial]. Qed.

Lemma numbers_of_read (r : ref) (h : heap) : (numbers_of r h).2 = h.
Proof. unfold numbers_of. destruct (h !! r) as [[xs|rs]|]; reflexivity. Qed.

Lemma rows_of_read (r : ref) (h : heap) : (rows_of r h).2 = h.
Proof. unfold rows_of. destruct (h !! r) as [[xs|rs]|]; reflexivity. Qed.

Lemma array_length_read (r : ref) (h : heap) : (array_length r h).2 = h.
Proof. unfold array_length. destruct (h !! r) as [[xs|rs]|]; reflexivity. Qed.

Lemma row_at_read (m : ref) (k : nat) (h : heap) : (row_at m k h).2 = h.
Proof.
  unfold row_at, hbind, rows_of.
  destruct (h !! m) as [[xs|rs]|]; try reflexivity.
  destruct (rs !! k); reflexivity.
Qed.

Lemma elem_at_read (m : ref) (k j : nat) (h : heap) : (elem_at m k j h).2 = h.
Proof.
  unfold elem_at, hbind. pose proof (row_at_read m k h) as Hr.
  destruct (row_at m k h) as [[r|] h']; simpl in Hr; subst h'; [|reflexivity].
  pose proof (numbers_of_read r h) as Hn.
  destruct (numbers_of r h) as [[xs|] h']; simpl in Hn; subst h'; reflexivity.
Qed.

Lemma keeps_for_each (I : heap -> Prop) (l : list nat) (body : nat -> Heap unit) :
  (forall k, keeps I (body k) (fun _ => True)) ->
  keeps I (for_each l body) (fun _ => True).
Proof.
  intros Hb. induction l as [|k rest IH]; simpl.
  - apply keeps_ret. trivial.
  - apply (keeps_bind I _ _ (fun _ => True)); [apply Hb | intros _ _; exact IH].
Qed.

Lemma keeps_fold_each {X : Type} (I : heap -> Prop) (l : list nat)
    (body : X -> nat -> Heap X) (s : X) :
  (forall s k, keeps I (body s k) (fun _ => True)) ->
  keeps I (fold_each l body s) (fun _ => True).
Proof.
  intros Hb. revert s. induction l as [|k rest IH]; intros s; simpl.
  - apply keeps_ret. trivial.
  - apply (keeps_bind I _ _ (fun _ => True)); [apply Hb | intros s' _; apply IH].
Qed.

Lemma keeps_map_rows {X : Type} (I : heap -> Prop) (f : nat -> ref -> Heap X)
    (Q : X -> Prop) (rows : list ref) (i : nat) :
  (forall i r, keeps I (f i r) Q) ->
  keeps I (map_rows f i rows) (Forall Q).
Proof.
  intros Hf. revert i. induction rows as [|row rest IH]; intros i; simpl.
  - apply keeps_ret. constructor.
  - apply (keeps_bind I _ _ Q); [apply Hf|]. intros x Hx.
    apply (keeps_bind I _ _ (Forall Q)); [apply IH|]. intros xs Hxs.
    apply keeps_ret. constructor; assumption.
Qed.

(** The heap [h0] of the caller is part of the current heap: no array that
    existed at the call has been written. *)
Definition grown (h0 h : heap) : Prop := h0 ⊆ h.

(** Moreover the augmented matrix and the rows it refers to were
    allocated after the call. *)
Definition owned (h0 : heap) (augmented : ref) (h : heap) : Prop :=
  h0 ⊆ h /\ h0 !! augmented = None /\
  forall rs, h !! augmented = Some (Rows rs) -> Forall (fun r => h0 !! r = None) rs.

Lemma heap_lookup_weaken (h0 h : heap) (r : ref) (a : array) :
  h0 ⊆ h -> h0 !! r = Some a -> h !! r = Some a.
Proof. intros Hsub E. exact (lookup_weaken _ _ _ _ E Hsub). Qed.

Lemma heap_lookup_insert (h : heap) (r : ref) (a : array) :
  <[r := a]> h !! r = Some a.
Proof. apply lookup_insert_eq. Qed.

Lemma heap_lookup_insert_ne (h : heap) (r r' : ref) (a : array) :
  r <> r' -> <[r := a]> h !! r' = h !! r'.
Proof. apply lookup_insert_ne. Qed.

Lemma heap_insert_grown (h0 h : heap) (r : ref) (a : array) :
  h0 !! r = None -> h0 ⊆ h -> h0 ⊆ <[r := a]> h.
Proof. apply insert_subseteq_r. Qed.

Lemma subseteq_fresh (h0 h : heap) (r : ref) :
  h0 ⊆ h -> h !! r = None -> h0 !! r = None.
Proof.
  intros Hsub Hr. destruct (h0 !! r) as [a|] eqn:E; [|reflexivity].
  rewrite (heap_lookup_weaken h0 h r a Hsub E) in Hr. discriminate.
Qed.

Lemma fresh_ref (h : heap) : h !! fresh (dom h) = None.
Proof. apply not_elem_of_dom, is_fresh. Qed.

Lemma new_array_grown (h0 : heap) (a : array) :
  keeps (grown h0) (new_array a) (fun r => h0 !! r = None).
Proof.
  intros h Hi. unfold new_array; simpl. pose proof (fresh_ref h) as Hf. split.
  - unfold grown in *. apply heap_insert_grown; [|exact Hi].
    apply (subseteq_fresh h0 h); assumption.
  - intros x [= <-]. apply (subseteq_fresh h0 h); assumption.
Qed.

Lemma copy_row_grown (h0 : heap) (B : ref) (i : nat) (row : ref) :
  keeps (grown h0) (copy_row B i row) (fun r => h0 !! r = None).
Proof.
  unfold copy_row.
  apply (keeps_bind _ _ _ (fun _ => True)); [apply keeps_read, numbers_of_read|].
  intros xs _.
  apply (keeps_bind _ _ _ (fun _ => True)); [apply keeps_read, numbers_of_read|].
  intros bs _. apply new_array_grown.
Qed.

Lemma augment_on_heap_owned (h0 h : heap) (A B : ref) :
  grown h0 h ->
  match augment_on_heap A B h with
  | (Return augmented, h') => owned h0 augmented h'
  | (Throw, h') => grown h0 h'
  end.
Proof.
  intros Hi. unfold augment_on_heap, hbind.
  pose proof (rows_of_read A h) as Hr.
  destruct (rows_of A h) as [[rows|] h1]; simpl in Hr; subst h1; [|exact Hi].
  destruct (keeps_map_rows (grown h0) (copy_row B) (fun r => h0 !! r = None) rows 0
              (copy_row_grown h0 B) h Hi) as [Hi1 Hq].
  destruct (map_rows (copy_row B) 0 rows h) as [[copies|] h1]; simpl in Hi1, Hq;
    [|exact Hi1].
  specialize (Hq copies eq_refl).
  unfold new_array. pose proof (fresh_ref h1) as Hf.
  assert (Hf0 : h0 !! fresh (dom h1) = None) by (apply (subseteq_fresh h0 h1); assumption).
  split; [apply heap_insert_grown; assumption|].
  split; [exact Hf0|].
  intros rs. rewrite heap_lookup_insert. intros [= <-]. exact Hq.
Qed.

Lemma owned_rows_of (h0 : heap) (augmented : ref) :
  keeps (owned h0 augmented) (rows_of augmented) (Forall (fun r => h0 !! r = None)).
Proof.
  intros h Hi. rewrite rows_of_read. split; [exact Hi|].
  intros rs. unfold rows_of. destruct (h !! augmented) as [[xs|rs']|] eqn:E; try discriminate.
  intros [= <-]. apply Hi, E.
Qed.

Lemma owned_row_at (h0 : heap) (augmented : ref) (k : nat) :
  keeps (owned h0 augmented) (row_at augmented k) (fun r => h0 !! r = None).
Proof.
  unfold row_at. apply (keeps_bind _ _ _ _ _ (owned_rows_of h0 augmented)).
  intros rs Hrs. destruct (rs !! k) as [r|] eqn:E; [|apply keeps_throw].
  apply keeps_ret. apply (proj1 (Forall_lookup _ rs) Hrs k r E).
Qed.

Lemma owned_store_numbers (h0 : heap) (augmented r : ref) (xs : list T) :
  h0 !! r = None -> keeps (owned h0 augmented) (store r (Numbers xs)) (fun _ => True).
Proof.
  intros Hr h (Hsub & Ha & Hrows). unfold store; simpl.
  split; [|trivial]. split; [apply heap_insert_grown; assumption|].
  split; [exact Ha|]. intros rs.
  destruct (decide (r = augmented)) as [->|Hne].
  - rewrite heap_lookup_insert. discriminate.
  - rewrite heap_lookup_insert_ne by exact Hne. apply Hrows.
Qed.

Lemma owned_store_rows (h0 : heap) (augmented : ref) (rs : list ref) :
  Forall (fun r => h0 !! r = None) rs ->
  keeps (owned h0 augmented) (store augmented (Rows rs)) (fun _ => True).
Proof.
  intros Hrs h (Hsub & Ha & Hrows). unfold store; simpl.
  split; [|trivial]. split; [apply heap_insert_grown; assumption|].
  split; [exact Ha|]. intros rs'. rewrite heap_lookup_insert. intros [= <-]. exact Hrs.
Qed.

Lemma owned_set_row (h0 : heap) (augmented : ref) (k : nat) (r : ref) :
  h0 !! r = None -> keeps (owned h0 augmented) (set_row augmented k r) (fun _ => True).
Proof.
  intros Hr. unfold set_row.
  apply (keeps_bind _ _ _ _ _ (owned_rows_of h0 augmented)).
  intros rs Hrs. apply owned_store_rows.
  apply Forall_insert; assumption.
Qed.

Lemma owned_set_elem (h0 : heap) (augmented : ref) (k j : nat) (v : T) :
  keeps (owned h0 augmented) (set_elem augmented k j v) (fun _ => True).
Proof.
  unfold set_elem.
  apply (keeps_bind _ _ _ _ _ (owned_row_at h0 augmented k)).
  intros r Hr.
  apply (keeps_bind _ _ _ (fun _ => True)); [apply keeps_read, numbers_of_read|].
  intros xs _. apply owned_store_numbers, Hr.
Qed.

Lemma owned_elem_at (h0 : heap) (augmented : ref) (k j : nat) :
  keeps (owned h0 augmented) (elem_at augmented k j) (fun _ => True).
Proof. apply keeps_read, elem_at_read. Qed.

Lemma owned_step (h0 : heap) (augmented : ref) (n i : nat) :
  keeps (owned h0 augmented) (step_on_heap augmented n i) (fun _ => True).
Proof.
  unfold step_on_heap.
  apply (keeps_bind _ _ _ (fun _ => True)).
  { unfold select_pivot_on_heap. apply keeps_fold_each. intros s k.
    apply (keeps_bind _ _ _ _ _ (owned_elem_at h0 augmented k i)). intros x _.
    apply (keeps_bind _ _ _ _ _ (owned_elem_at h0 augmented s i)). intros y _.
    apply keeps_ret. trivial. }
  intros maxRow _.
  apply (keeps_bind _ _ _ (fun _ => True)).
  { unfold swap_rows_on_heap. destruct (i =? maxRow); [apply keeps_ret; trivial|].
    apply (keeps_bind _ _ _ _ _ (owned_row_at h0 augmented maxRow)). intros rm Hrm.
    apply (keeps_bind _ _ _ _ _ (owned_row_at h0 augmented i)). intros ri Hri.
    apply (keeps_bind _ _ _ _ _ (owned_set_row h0 augmented i rm Hrm)). intros _ _.
    apply owned_set_row, Hri. }
  intros _ _.
  apply (keeps_bind _ _ _ _ _ (owned_elem_at h0 augmented i i)). intros tested _.
  destruct (num_lt (num_abs tested) PIVOT_EPS); [apply keeps_ret; trivial|].
  apply (keeps_bind _ _ _ _ _ (owned_elem_at h0 augmented i i)). intros pivot _.
  apply (keeps_bind _ _ _ (fun _ => True)).
  { unfold normalize_on_heap. apply keeps_for_each. intros j.
    apply (keeps_bind _ _ _ _ _ (owned_elem_at h0 augmented i j)). intros x _.
    apply owned_set_elem. }
  intros _ _.
  apply (keeps_bind _ _ _ (fun _ => True)); [|intros _ _; apply keeps_ret; trivial].
  unfold eliminate_on_heap. apply keeps_for_each. intros k.
  destruct (k =? i); [apply keeps_ret; trivial|].
  apply (keeps_bind _ _ _ _ _ (owned_elem_at h0 augmented k i)). intros factor _.
  apply keeps_for_each. intros j.
  apply (keeps_bind _ _ _ _ _ (owned_elem_at h0 augmented k j)). intros x _.
  apply (keeps_bind _ _ _ _ _ (owned_elem_at h0 augmented i j)). intros y _.
  apply owned_set_elem.
Qed.

Lemma owned_loop (h0 : heap) (augmented : ref) (n : nat) (steps : list nat) :
  keeps (owned h0 augmented) (loop_on_heap augmented n steps) (fun _ => True).
Proof.
  induction steps as [|i rest IH]; simpl.
  - apply keeps_ret. trivial.
  - apply (keeps_bind _ _ _ _ _ (owned_step h0 augmented n i)).
    intros [|] _; [exact IH | apply keeps_ret; trivial].
Qed.

Lemma owned_solution (h0 : heap) (augmented : ref) (n : nat) :
  keeps (owned h0 augmented) (solution_on_heap augmented n) (fun _ => True).
Proof.
  unfold solution_on_heap.
  apply (keeps_bind _ _ _ _ _ (owned_rows_of h0 augmented)). intros rows _.
  apply (keeps_bind _ _ _ (fun _ => True)).
  { apply (keeps_weaken _ _ (Forall (fun _ => True))); [|trivial].
    apply keeps_map_rows. intros _ r.
    apply (keeps_bind _ _ _ (fun _ => True)); [apply keeps_read, numbers_of_read|].
    intros xs _. apply keeps_ret. trivial. }
  intros x _ h (Hsub & Ha & Hrows). unfold new_array; simpl.
  pose proof (fresh_ref h) as Hf.
  split; [|trivial]. split.
  - apply heap_insert_grown; [|exact Hsub]. apply (subseteq_fresh h0 h); assumption.
  - split; [exact Ha|]. intros rs.
    destruct (decide (fresh (dom h) = augmented)) as [E|Hne].
    + rewrite E, heap_lookup_insert. discriminate.
    + rewrite heap_lookup_insert_ne by exact Hne. apply Hrows.
Qed.

Lemma gaussJordan_body_grown (h : heap) (A B : ref) :
  h ⊆ (gaussJordan_body A B h).2.
Proof.
  unfold gaussJordan_body, hbind.
  pose proof (array_length_read A h) as Ha.
  destruct (array_length A h) as [[rowsA|] h1]; simpl in Ha; subst h1; [|reflexivity].
  pose proof (array_length_read B h) as Hb.
  destruct (array_length B h) as [[rowsB|] h1]; simpl in Hb; subst h1; [|reflexivity].
  destruct (negb (rowsA =? rowsB)); [reflexivity|].
  pose proof (augment_on_heap_owned h h A B (reflexivity h)) as Haug.
  destruct (augment_on_heap A B h) as [[augmented|] h1]; [|exact Haug].
  destruct (owned_loop h augmented rowsA (seq 0 rowsA) h1 Haug) as [Hloop _].
  destruct (loop_on_heap augmented rowsA (seq 0 rowsA) h1) as [[[|]|] h2];
    simpl in Hloop; try apply Hloop.
  destruct (owned_solution h augmented rowsA h2 Hloop) as [Hsol _].
  destruct (solution_on_heap augmented rowsA h2) as [[x|] h3]; simpl in Hsol; apply Hsol.
Qed.

(** The heap the call leaves extends the heap it found. *)
Lemma gaussJordan_on_heap_grown (A B : option ref) (h : heap) :
  h ⊆ (gaussJordan_on_heap A B h).2.
Proof.
  unfold gaussJordan_on_heap. destruct A as [A|], B as [B|]; try reflexivity.
  pose proof (gaussJordan_body_grown h A B) as H.
  destruct (gaussJordan_body A B h) as [[result|] h']; exact H.
Qed.

Lemma read_vector_grown (h h' : heap) (B : ref) (v : list T) :
  h ⊆ h' -> read_vector h B = Some v -> read_vector h' B = Some v.
Proof.
  intros Hsub. unfold read_vector.
  destruct (h !! B) as [[xs|rs]|] eqn:E; try discriminate.
  rewrite (heap_lookup_weaken _ _ _ _ Hsub E). trivial.
Qed.

Lemma read_matrix_grown (h h' : heap) (A : ref) (M : Matrix) :
  h ⊆ h' -> read_matrix h A = Some M -> read_matrix h' A = Some M.
Proof.
  intros Hsub. unfold read_matrix.
  destruct (h !! A) as [[xs|rs]|] eqn:E; try discriminate.
  rewrite (heap_lookup_weaken _ _ _ _ Hsub E).
  intros HM. apply mapM_Some in HM. apply mapM_Some.
  eapply Forall2_impl; [exact HM|]. intros r v Hr.
  apply (read_vector_grown h h'); assumption.
Qed.

(** ** The solver over the heap computes what the solver over values does *)

(** The array [augmented] stands for the matrix [M]: its rows are distinct
    arrays of numbers. *)
Definition represents (h : heap) (augmented : ref) (M : Matrix) : Prop :=
  exists rs, h !! augmented = Some (Rows rs) /\ NoDup rs /\
             Forall2 (fun r row => h !! r = Some (Numbers row)) rs M.

Lemma mget_lookup_Some (M : Matrix) (k : nat) :
  k < length M -> M !! k = Some (mget M k).
Proof.
  intros Hk. rewrite mget_lookup.
  destruct (M !! k) as [row|] eqn:E; [reflexivity|].
  apply lookup_ge_None in E. lia.
Qed.

Lemma represents_row (h : heap) (augmented : ref) (M : Matrix) (k : nat) :
  represents h augmented M -> k < length M ->
  exists rs r, h !! augmented = Some (Rows rs) /\ rs !! k = Some r /\
               h !! r = Some (Numbers (mget M k)).
Proof.
  intros (rs & Ha & _ & Hrows) Hk.
  destruct (Forall2_lookup_r _ _ _ k _ Hrows (mget_lookup_Some M k Hk)) as (r & Hr & Hnum).
  exists rs, r. auto.
Qed.

Lemma row_at_represents (h : heap) (augmented : ref) (M : Matrix) (k : nat) :
  represents h augmented M -> k < length M ->
  exists r, row_at augmented k h = (Return r, h) /\ h !! r = Some (Numbers (mget M k)).
Proof.
  intros Hrep Hk. destruct (represents_row h augmented M k Hrep Hk) as (rs & r & Ha & Hr & Hn).
  exists r. split; [|exact Hn].
  unfold row_at, hbind, rows_of. rewrite Ha, Hr. reflexivity.
Qed.

Lemma elem_at_represents (h : heap) (augmented : ref) (M : Matrix) (k j : nat) :
  represents h augmented M -> k < length M ->
  elem_at augmented k j h = (Return (entry M k j), h).
Proof.
  intros Hrep Hk. destruct (row_at_represents h augmented M k Hrep Hk) as (r & Hrow & Hn).
  unfold elem_at, hbind. rewrite Hrow. unfold numbers_of. rewrite Hn. reflexivity.
Qed.

Lemma set_elem_represents (h : heap) (augmented : ref) (M : Matrix) (k j : nat) (v : T) :
  represents h augmented M -> k < length M ->
  exists h', set_elem augmented k j v h = (Return tt, h') /\
             represents h' augmented (<[k := aset (mget M k) j v]> M).
Proof.
  intros Hrep Hk. destruct (represents_row h augmented M k Hrep Hk) as (rs & r & Ha & Hr & Hn).
  destruct Hrep as (rs' & Ha' & Hnd & Hrows). rewrite Ha in Ha'. injection Ha' as <-.
  exists (<[r := Numbers (aset (mget M k) j v)]> h). split.
  - unfold set_elem, hbind, row_at, hbind, rows_of. rewrite Ha, Hr.
    unfold hret, numbers_of. rewrite Hn. reflexivity.
  - exists rs. split.
    { rewrite heap_lookup_insert_ne; [exact Ha|]. intros ->. rewrite Ha in Hn. discriminate. }
    split; [exact Hnd|].
    apply Forall2_same_length_lookup_2.
    { rewrite length_insert. apply (Forall2_length _ _ _ Hrows). }
    intros k' r' row Hr' Hrow.
    apply list_lookup_insert_Some in Hrow as [(<- & <- & _) | (Hne & Hrow)].
    + rewrite Hr in Hr'. injection Hr' as <-. apply heap_lookup_insert.
    + rewrite heap_lookup_insert_ne.
      * apply (Forall2_lookup_lr _ _ _ k' _ _ Hrows Hr' Hrow).
      * intros ->. apply Hne. apply (NoDup_lookup rs k k' r' Hnd Hr Hr').
Qed.

Lemma swap_rows_represents (h : heap) (augmented : ref) (M : Matrix) (i m : nat) :
  represents h augmented M -> i < length M -> m < length M ->
  exists h', swap_rows_on_heap augmented i m h = (Return tt, h') /\
             represents h' augmented (swap_rows i m M).
Proof.
  intros Hrep Hi Hm. unfold swap_rows_on_heap, swap_rows.
  destruct (i =? m) eqn:E; [exists h; split; [reflexivity | exact Hrep]|].
  apply Nat.eqb_neq in E.
  destruct (represents_row h augmented M i Hrep Hi) as (rs & ri & Ha & Hri & Hni).
  destruct (represents_row h augmented M m Hrep Hm) as (rs' & rm & Ha' & Hrm & Hnm).
  rewrite Ha in Ha'. injection Ha' as <-.
  destruct Hrep as (rs' & Ha' & Hnd & Hrows). rewrite Ha in Ha'. injection Ha' as <-.
  set (h1 := <[augmented := Rows (<[i := rm]> rs)]> h).
  set (h2 := <[augmented := Rows (<[m := ri]> (<[i := rm]> rs))]> h1).
  exists h2. split.
  - assert (Hrow : forall k r, rs !! k = Some r -> row_at augmented k h = (Return r, h)).
    { intros k r Hr. unfold row_at, hbind, rows_of. rewrite Ha, Hr. reflexivity. }
    unfold hbind. rewrite (Hrow m rm Hrm), (Hrow i ri Hri).
    unfold set_row, hbind, rows_of. rewrite Ha. unfold store. fold h1.
    unfold h1 at 1. rewrite (heap_lookup_insert h). reflexivity.
  - exists (<[m := ri]> (<[i := rm]> rs)). split; [apply heap_lookup_insert|].
    split; [rewrite (Permutation_insert_swap rs i m ri rm Hri Hrm); exact Hnd|].
    assert (Hnot : forall r row, h !! r = Some (Numbers row) -> h2 !! r = Some (Numbers row)).
    { intros r row Hr. unfold h2, h1.
      rewrite !heap_lookup_insert_ne; [exact Hr| |]; intros ->; rewrite Ha in Hr; discriminate. }
    apply Forall2_insert; [apply Forall2_insert|].
    + eapply Forall2_impl; [exact Hrows|]. intros r row Hr. apply Hnot, Hr.
    + apply Hnot, Hnm.
    + apply Hnot, Hni.
Qed.

Lemma for_each_represents (augmented : ref) (Inv : Matrix -> Prop)
    (g : Matrix -> nat -> Matrix) (body : nat -> Heap unit) (l : list nat) :
  (forall k M h, k ∈ l -> Inv M -> represents h augmented M ->
     exists h', body k h = (Return tt, h') /\ represents h' augmented (g M k) /\ Inv (g M k)) ->
  forall M h, Inv M -> represents h augmented M ->
  exists h', for_each l body h = (Return tt, h') /\
             represents h' augmented (foldl g M l) /\ Inv (foldl g M l).
Proof.
  induction l as [|k rest IH]; intros Hbody M h Hinv Hrep.
  - exists h. auto.
  - destruct (Hbody k M h ltac:(left) Hinv Hrep) as (h1 & Hrun & Hrep1 & Hinv1).
    destruct (IH (fun k' M' h' Hk' => Hbody k' M' h' ltac:(right; exact Hk')) (g M k) h1 Hinv1 Hrep1)
      as (h2 & Hrun2 & Hrep2 & Hinv2).
    exists h2. split; [|auto].
    cbn [for_each]. unfold hbind. rewrite Hrun. exact Hrun2.
Qed.

(** Element-wise updates of row [k] amount to one update of the row. *)
Lemma row_updates (k : nat) (upd : list T -> nat -> T) (js : list nat) :
  forall M : Matrix, k < length M ->
  foldl (fun M j => <[k := aset (mget M k) j (upd (mget M k) j)]> M) M js
  = <[k := foldl (fun r j => aset r j (upd r j)) (mget M k) js]> M.
Proof.
  induction js as [|j rest IH]; intros M Hk; cbn [foldl].
  - symmetry. apply list_insert_id, mget_lookup_Some, Hk.
  - rewrite IH by (rewrite length_insert; exact Hk).
    rewrite mget_insert by exact Hk. rewrite Nat.eqb_refl.
    apply list_insert_insert_eq.
Qed.

Lemma normalize_represents (h : heap) (augmented : ref) (M : Matrix) (n i : nat) (pivot : T) :
  represents h augmented M -> length M = n -> i < n ->
  exists h', normalize_on_heap augmented n i pivot h = (Return tt, h') /\
             represents h' augmented (<[i := normalize_row n i pivot (mget M i)]> M).
Proof.
  intros Hrep Hlen Hi. unfold normalize_on_heap, normalize_row.
  rewrite <- (row_updates i (fun r j => num_div (aget r j) pivot)) by lia.
  destruct (for_each_represents augmented (fun M => length M = n)
              (fun M j => <[i := aset (mget M i) j (num_div (aget (mget M i) j) pivot)]> M)
              (fun j => let! x := elem_at augmented i j in
                        set_elem augmented i j (num_div x pivot))
              (seq i (n + 1 - i))) with (M := M) (h := h) as (h' & Hrun & Hrep' & _);
    try assumption; [|exists h'; auto].
  intros j M1 h1 _ Hlen1 Hrep1.
  destruct (set_elem_represents h1 augmented M1 i j (num_div (entry M1 i j) pivot) Hrep1
              ltac:(lia)) as (h2 & Hset & Hrep2).
  exists h2. split; [|split; [exact Hrep2 | rewrite length_insert; exact Hlen1]].
  unfold hbind. rewrite (elem_at_represents h1 augmented M1 i j Hrep1) by lia. exact Hset.
Qed.

Lemma eliminate_row_represents (h : heap) (augmented : ref) (M : Matrix) (n i k : nat)
    (factor : T) :
  represents h augmented M -> length M = n -> i < n -> k < n -> k <> i ->
  exists h',
    for_each (seq i (n + 1 - i))
             (fun j =>
                let! x := elem_at augmented k j in
                let! y := elem_at augmented i j in
                set_elem augmented k j (num_sub x (num_mul factor y))) h
    = (Return tt, h') /\
    represents h' augmented (<[k := eliminate_row n i factor (mget M i) (mget M k)]> M).
Proof.
  intros Hrep Hlen Hi Hk Hne. unfold eliminate_row.
  rewrite <- (row_updates k (fun r j => num_sub (aget r j) (num_mul factor (aget (mget M i) j))))
    by lia.
  destruct (for_each_represents augmented (fun M' => length M' = n /\ mget M' i = mget M i)
              (fun M' j => <[k := aset (mget M' k) j
                                   (num_sub (aget (mget M' k) j)
                                            (num_mul factor (aget (mget M i) j)))]> M')
              (fun j => let! x := elem_at augmented k j in
                        let! y := elem_at augmented i j in
                        set_elem augmented k j (num_sub x (num_mul factor y)))
              (seq i (n + 1 - i))) with (M := M) (h := h) as (h' & Hrun & Hrep' & _);
    try assumption; [|split; [exact Hlen | reflexivity]|exists h'; auto].
  intros j M1 h1 _ [Hlen1 Hrow1] Hrep1.
  destruct (set_elem_represents h1 augmented M1 k j
              (num_sub (entry M1 k j) (num_mul factor (entry M1 i j))) Hrep1 ltac:(lia))
    as (h2 & Hset & Hrep2).
  exists h2. split; [|split].
  - unfold hbind. rewrite (elem_at_represents h1 augmented M1 k j Hrep1) by lia.
    rewrite (elem_at_represents h1 augmented M1 i j Hrep1) by lia. exact Hset.
  - unfold entry in Hrep2. rewrite Hrow1 in Hrep2. exact Hrep2.
  - split; [rewrite length_insert; exact Hlen1|].
    rewrite mget_insert by lia.
    replace (k =? i) with false by (symmetry; apply Nat.eqb_neq; exact Hne). exact Hrow1.
Qed.

Lemma eliminate_represents (h : heap) (augmented : ref) (M : Matrix) (n i : nat) :
  represents h augmented M -> length M = n -> i < n ->
  exists h', eliminate_on_heap augmented n i h = (Return tt, h') /\
             represents h' augmented (eliminate_column n i M).
Proof.
  intros Hrep Hlen Hi. unfold eliminate_on_heap, eliminate_column.
  destruct (for_each_represents augmented (fun M => length M = n)
              (fun M k => if k =? i then M
                          else <[k := eliminate_row n i (aget (mget M k) i) (mget M i) (mget M k)]> M)
              (fun k =>
                 if k =? i then hret tt
                 else
                   let! factor := elem_at augmented k i in
                   for_each (seq i (n + 1 - i))
                            (fun j =>
                               let! x := elem_at augmented k j in
                               let! y := elem_at augmented i j in
                               set_elem augmented k j (num_sub x (num_mul factor y))))
              (seq 0 n)) with (M := M) (h := h) as (h' & Hrun & Hrep' & _);
    try assumption; [|exists h'; auto].
  intros k M1 h1 Hk Hlen1 Hrep1. apply elem_of_seq in Hk.
  destruct (k =? i) eqn:E; [exists h1; auto|]. apply Nat.eqb_neq in E.
  destruct (eliminate_row_represents h1 augmented M1 n i k (aget (mget M1 k) i) Hrep1 Hlen1 Hi
              ltac:(lia) E) as (h2 & Hrun & Hrep2).
  exists h2. split; [|split; [exact Hrep2 | rewrite length_insert; exact Hlen1]].
  unfold hbind. rewrite (elem_at_represents h1 augmented M1 k i Hrep1) by lia. exact Hrun.
Qed.

Lemma select_pivot_loop_represents (h : heap) (augmented : ref) (M : Matrix) (i : nat)
    (l : list nat) :
  represents h augmented M -> Forall (fun k => k < length M) l ->
  forall s, s < length M ->
  fold_each l (fun maxRow k =>
                 let! x := elem_at augmented k i in
                 let! y := elem_at augmented maxRow i in
                 hret (if num_lt (num_abs y) (num_abs x) then k else maxRow)) s h
  = (Return (foldl (fun maxRow k =>
                      if num_lt (num_abs (aget (mget M maxRow) i))
                                (num_abs (aget (mget M k) i))
                      then k else maxRow) s l), h).
Proof.
  intros Hrep Hl. induction Hl as [|k rest Hk Hrest IH]; intros s Hs; [reflexivity|].
  cbn [fold_each foldl]. unfold hbind at 1.
  unfold hbind at 1. rewrite (elem_at_represents h augmented M k i Hrep Hk).
  unfold hbind at 1. rewrite (elem_at_represents h augmented M s i Hrep Hs).
  unfold hret at 1. unfold entry. apply IH.
  destruct (num_lt _ _); assumption.
Qed.

Lemma select_pivot_represents (h : heap) (augmented : ref) (M : Matrix) (n i : nat) :
  represents h augmented M -> length M = n -> i < n ->
  select_pivot_on_heap augmented n i h = (Return (select_pivot n i M), h).
Proof.
  intros Hrep Hlen Hi. unfold select_pivot_on_heap, select_pivot.
  apply select_pivot_loop_represents; [exact Hrep| |lia].
  apply Forall_forall. intros k Hk. apply elem_of_seq in Hk. lia.
Qed.

Lemma step_represents (h : heap) (augmented : ref) (M : Matrix) (n i : nat) :
  represents h augmented M -> length M = n -> i < n ->
  exists h',
    match gj_step n i M with
    | None => step_on_heap augmented n i h = (Return false, h')
    | Some M' => step_on_heap augmented n i h = (Return true, h') /\
                 represents h' augmented M' /\ length M' = n
    end.
Proof.
  intros Hrep Hlen Hi.
  pose proof (select_pivot_represents h augmented M n i Hrep Hlen Hi) as Hsel.
  pose proof (select_pivot_range n i M Hi) as Hr.
  destruct (swap_rows_represents h augmented M i (select_pivot n i M) Hrep ltac:(lia) ltac:(lia))
    as (h1 & Hswap & Hrep1).
  fold (pivot_step n i M) in Hrep1.
  assert (Hlen1 : length (pivot_step n i M) = n) by (rewrite pivot_step_length; exact Hlen).
  pose proof (elem_at_represents h1 augmented _ i i Hrep1 ltac:(lia)) as Hpiv.
  unfold entry in Hpiv.
  destruct (normalize_represents h1 augmented _ n i (aget (mget (pivot_step n i M) i) i)
              Hrep1 Hlen1 Hi) as (h2 & Hnorm & Hrep2).
  destruct (eliminate_represents h2 augmented _ n i Hrep2
              ltac:(rewrite length_insert; exact Hlen1) Hi) as (h3 & Helim & Hrep3).
  unfold gj_step. cbv zeta.
  destruct (num_lt (num_abs (aget (mget (pivot_step n i M) i) i)) PIVOT_EPS) eqn:Et.
  - exists h1. unfold step_on_heap, hbind. rewrite Hsel, Hswap, Hpiv, Et. reflexivity.
  - exists h3. split; [|split; [exact Hrep3 | apply reduce_step_length; assumption]].
    unfold step_on_heap, hbind. rewrite Hsel, Hswap, Hpiv, Et, Hpiv, Hnorm, Helim.
    reflexivity.
Qed.

Lemma loop_represents (augmented : ref) (n : nat) (steps : list nat) :
  Forall (fun i => i < n) steps ->
  forall (h : heap) (M : Matrix), represents h augmented M -> length M = n ->
  exists h',
    match gj_loop n steps M with
    | None => loop_on_heap augmented n steps h = (Return false, h')
    | Some M' => loop_on_heap augmented n steps h = (Return true, h') /\
                 represents h' augmented M' /\ length M' = n
    end.
Proof.
  intros Hsteps. induction Hsteps as [|i rest Hi Hrest IH]; intros h M Hrep Hlen.
  - exists h. cbn [gj_loop loop_on_heap]. auto.
  - cbn [gj_loop loop_on_heap]. unfold hbind.
    destruct (step_represents h augmented M n i Hrep Hlen Hi) as (h1 & Hstep).
    destruct (gj_step n i M) as [M1|].
    + destruct Hstep as (Hrun & Hrep1 & Hlen1). rewrite Hrun. apply IH; assumption.
    + rewrite Hstep. exists h1. reflexivity.
Qed.

Lemma numbers_of_read_vector (h : heap) (r : ref) (v : list T) :
  read_vector h r = Some v -> numbers_of r h = (Return v, h).
Proof.
  unfold read_vector, numbers_of. destruct (h !! r) as [[xs|rs]|]; try discriminate.
  intros [= <-]. reflexivity.
Qed.

Lemma read_vector_lookup (h : heap) (r : ref) (v : list T) :
  read_vector h r = Some v <-> h !! r = Some (Numbers v).
Proof.
  unfold read_vector. destruct (h !! r) as [[xs|rs]|]; split; intros H;
    try discriminate; injection H as <-; reflexivity.
Qed.

(** The copies of the rows are new, distinct arrays. *)
Lemma copy_rows_represents (B : ref) (Bv : list T) (rows : list ref) (Ms : Matrix) :
  forall (i : nat) (h : heap),
  Forall2 (fun r row => read_vector h r = Some row) rows Ms ->
  read_vector h B = Some Bv ->
  exists copies h',
    map_rows (copy_row B) i rows h = (Return copies, h') /\ h ⊆ h' /\
    Forall (fun r => h !! r = None) copies /\ NoDup copies /\
    Forall2 (fun r row => h' !! r = Some (Numbers row)) copies
            (imap (fun k row => row ++ [aget Bv (i + k)]) Ms).
Proof.
  revert Ms. induction rows as [|r rest IH]; intros Ms i h Hrows HB.
  - apply Forall2_nil_inv_l in Hrows as ->. exists [], h.
    split; [reflexivity|]. split; [reflexivity|]. repeat constructor.
  - apply Forall2_cons_inv_l in Hrows as (row & Mrest & Hr & Hrest & ->).
    set (r0 := fresh (dom h)).
    set (h1 := <[r0 := Numbers (row ++ [aget Bv i])]> h).
    assert (Hf : h !! r0 = None) by apply fresh_ref.
    assert (Hsub : h ⊆ h1) by (apply heap_insert_grown; [exact Hf | reflexivity]).
    assert (Hcopy : copy_row B i r h = (Return r0, h1)).
    { unfold copy_row, hbind.
      rewrite (numbers_of_read_vector h r row Hr), (numbers_of_read_vector h B Bv HB).
      reflexivity. }
    destruct (IH Mrest (S i) h1) as (copies & h' & Hrun & Hsub' & Hfresh & Hnd & Hall).
    { eapply Forall2_impl; [exact Hrest|]. intros r' row' Hr'.
      apply read_vector_lookup. apply (heap_lookup_weaken h h1 _ _ Hsub).
      apply read_vector_lookup, Hr'. }
    { apply read_vector_lookup. apply (heap_lookup_weaken h h1 _ _ Hsub).
      apply read_vector_lookup, HB. }
    exists (r0 :: copies), h'. split.
    { cbn [map_rows]. unfold hbind. rewrite Hcopy, Hrun. reflexivity. }
    split; [transitivity h1; assumption|].
    split.
    { constructor; [exact Hf|]. eapply Forall_impl; [exact Hfresh|].
      intros r' Hr'. apply (subseteq_fresh h h1); assumption. }
    split.
    { constructor; [|exact Hnd]. intros Hin.
      pose proof (proj1 (Forall_forall _ copies) Hfresh r0 Hin) as Hnone.
      unfold h1 in Hnone. rewrite heap_lookup_insert in Hnone. discriminate. }
    cbn [imap]. constructor.
    { rewrite Nat.add_0_r. apply (heap_lookup_weaken h1 h' _ _ Hsub'), heap_lookup_insert. }
    rewrite (imap_ext _ (fun k row' => row' ++ [aget Bv (S i + k)])); [exact Hall|].
    intros k row' _. simpl. do 3 f_equal. lia.
Qed.

Lemma augment_on_heap_represents (h : heap) (A B : ref) (Am : Matrix) (Bv : list T) :
  read_matrix h A = Some Am -> read_vector h B = Some Bv ->
  exists augmented h',
    augment_on_heap A B h = (Return augmented, h') /\
    represents h' augmented (augment Am Bv).
Proof.
  intros HA HB. unfold read_matrix in HA.
  destruct (h !! A) as [[xs|rs]|] eqn:E; try discriminate.
  apply mapM_Some in HA.
  destruct (copy_rows_represents B Bv rs Am 0 h HA HB)
    as (copies & h1 & Hrun & Hsub & Hfresh & Hnd & Hall).
  pose proof (fresh_ref h1) as Hf.
  exists (fresh (dom h1)), (<[fresh (dom h1) := Rows copies]> h1). split.
  - unfold augment_on_heap, hbind, rows_of. rewrite E, Hrun. reflexivity.
  - exists copies. split; [apply heap_lookup_insert|]. split; [exact Hnd|].
    unfold augment. eapply Forall2_impl; [exact Hall|].
    intros r row Hr. rewrite heap_lookup_insert_ne; [exact Hr|].
    intros Heq. rewrite <- Heq, Hf in Hr. discriminate.
Qed.

Lemma read_column (h : heap) (n : nat) (rs : list ref) (M : Matrix) :
  Forall2 (fun r row => h !! r = Some (Numbers row)) rs M ->
  forall i,
  map_rows (fun _ row => let! xs := numbers_of row in hret (aget xs n)) i rs h
  = (Return (map (fun row => aget row n) M), h).
Proof.
  intros Hall. induction Hall as [|r row rs' M' Hr Hrest IH]; intros i; [reflexivity|].
  cbn [map_rows map]. unfold hbind at 1. unfold hbind at 1.
  rewrite (numbers_of_read_vector h r row) by (apply read_vector_lookup, Hr).
  unfold hret at 1. unfold hbind. rewrite IH. reflexivity.
Qed.

Lemma solution_represents (h : heap) (augmented : ref) (M : Matrix) (n : nat) :
  represents h augmented M ->
  solution_on_heap augmented n h
  = (Return (fresh (dom h)),
     <[fresh (dom h) := Numbers (map (fun row => aget row n) M)]> h).
Proof.
  intros (rs & Ha & _ & Hall).
  unfold solution_on_heap, hbind, rows_of. rewrite Ha.
  rewrite (read_column h n rs M Hall). reflexivity.
Qed.

(** On a matrix and a vector of the heap, the call returns null exactly
    when the solver over values does, and otherwise a new array holding
    the vector that solver returns. *)
Lemma gaussJordan_on_heap_refines (h : heap) (A B : ref) (Am : Matrix) (Bv : list T) :
  read_matrix h A = Some Am -> read_vector h B = Some Bv ->
  match gaussJordan_on_heap (Some A) (Some B) h with
  | (None, _) => gaussJordan (Some Am) (Some Bv) = None
  | (Some r, h') =>
    h !! r = None /\
    exists x, h' !! r = Some (Numbers x) /\ gaussJordan (Some Am) (Some Bv) = Some x
  end.
Proof.
  intros HA HB.
  assert (HlenA : array_length A h = (Return (length Am), h)).
  { unfold read_matrix in HA. unfold array_length.
    destruct (h !! A) as [[xs|rs]|]; try discriminate.
    apply mapM_Some, Forall2_length in HA. rewrite HA. reflexivity. }
  assert (HlenB : array_length B h = (Return (length Bv), h)).
  { apply read_vector_lookup in HB. unfold array_length. rewrite HB. reflexivity. }
  unfold gaussJordan_on_heap, gaussJordan_body, gaussJordan, hbind.
  rewrite HlenA, HlenB.
  destruct (negb (length Am =? length Bv)); [reflexivity|].
  destruct (augment_on_heap_represents h A B Am Bv HA HB) as (augmented & h1 & Haug & Hrep).
  pose proof (augment_on_heap_owned h h A B (reflexivity h)) as Hown.
  rewrite Haug in *.
  assert (Hlen : length (augment Am Bv) = length Am) by (unfold augment; apply length_imap).
  destruct (loop_represents augmented (length Am) (seq 0 (length Am))
              ltac:(apply Forall_forall; intros i Hi; apply elem_of_seq in Hi; lia)
              h1 (augment Am Bv) Hrep Hlen) as (h2 & Hloop).
  destruct (owned_loop h augmented (length Am) (seq 0 (length Am)) h1 Hown) as [Hown2 _].
  destruct (gj_loop (length Am) (seq 0 (length Am)) (augment Am Bv)) as [M'|].
  - destruct Hloop as (Hrun & Hrep2 & _). rewrite Hrun in *. simpl in Hown2.
    rewrite (solution_represents h2 augmented M' (length Am) Hrep2).
    split.
    + apply (subseteq_fresh h h2); [apply Hown2 | apply fresh_ref].
    + eexists. split; [apply heap_lookup_insert | reflexivity].
  - rewrite Hloop. reflexivity.
Qed.

End GeoReferencer.

(** * The order of binary64 *)









(** * Partial pivoting *)

Section PartialPivoting.
Context {T : Type} {N : JSNumber T}.




Lemma unchecked_loop_length (n : nat) (steps : list nat) :
  Forall (fun i => i < n) steps ->
  forall M : list (list T), length M = n -> length (unchecked_loop n steps M) = n.
Proof.
  intros Hsteps. induction Hsteps as [|i rest Hi Hrest IH]; intros M HM; [exact HM|].
  cbn [unchecked_loop]. apply IH. apply reduce_step_length; [|exact Hi].
  rewrite pivot_step_length. exact HM.
Qed.


End PartialPivoting.


Arguments LatLng T : clear implicits.
Arguments LatLngBounds T : clear implicits.
Arguments PointJson T : clear implicits.
Arguments GpsPoint T : clear implicits.
Arguments ControlPoint T : clear implicits.
Arguments AffineParams T : clear implicits.
Arguments Transformation T : clear implicits.
Arguments PointJsonData T : clear implicits.
Arguments MatchResult T : clear implicits.
Arguments MatchOutcome T : clear implicits.
Arguments Spot T : clear implicits.
Arguments RoutePoint T : clear implicits.
Arguments Route T : clear implicits.
Arguments MarkerMeta T : clear implicits.
Arguments Marker T : clear implicits.
Arguments Layer T : clear implicits.
Arguments RouteSpotHandler T : clear implicits.
Arguments PointData T : clear implicits.
Arguments MarkerInfo T : clear implicits.
Arguments ImageOverlay T : clear implicits.
Arguments Georeferencing T : clear implicits.
Arguments GeorefSummary T : clear implicits.
Arguments LOther {T}.
Arguments SyncEvent T : clear implicits.
Arguments array T : clear implicits.
Arguments heap T : clear implicits.

(** * The documented behaviour, claim by claim *)

(** ** Sample data *)

(** A spot known by its pixel coordinates only. *)
Definition image_spot {T : Type} {N : JSNumber T} (x y : Q) : Spot T :=
  {| spot_imageX := Some (num_of_Q x); spot_imageY := Some (num_of_Q y);
     spot_coordinates := None |}.

(** A route end point as extractStartPoint builds it from [routeInfo]:
    the identifier is both id and name, and there are no coordinates. *)
Definition named_point {T : Type} (id : string) : RoutePoint T :=
  {| rp_lat := None; rp_lng := None; rp_name := Some id; rp_id := Some id |}.

Definition named_route {T : Type} (s e : string) : Route T :=
  {| startPoint := Some (named_point s); endPoint := Some (named_point e) |}.

(** A route end point known by its coordinates only. *)
Definition located_point {T : Type} {N : JSNumber T} (la lo : Q) : RoutePoint T :=
  {| rp_lat := Some (num_of_Q la); rp_lng := Some (num_of_Q lo);
     rp_name := None; rp_id := None |}.

Definition located_route {T : Type} {N : JSNumber T} (la1 lo1 la2 lo2 : Q) : Route T :=
  {| startPoint := Some (located_point la1 lo1);
     endPoint := Some (located_point la2 lo2) |}.

Definition sample_bounds {T : Type} {N : JSNumber T} : LatLngBounds T :=
  {| southWest := {| lat := num_of_Q 35; lng := num_of_Q 135 |};
     northEast := {| lat := num_of_Q 36; lng := num_of_Q 136 |} |}.

(** ** Spot de-duplication *)

(** C6.  Two spot records are the same entity when both carry pixel
    coordinates and these differ by less than 0.1 px on each axis;
    otherwise (one of them carries no pixel coordinates), when both carry
    GPS coordinates and these differ by less than 1e-4 degrees on each
    axis; in every other case they are distinct.  The spots at
    (100.00, 50.00) and (100.05, 50.05) are duplicates, the spot at
    (100.2, 50.0) is distinct from the first; both hold in binary64 and
    in exact arithmetic. *)
Theorem spot_duplicate_detection :
  (forall (T : Type) (N : JSNumber T) (s1 s2 : Spot T),
     isSameSpot s1 s2 = true <-> same_spot s1 s2) /\
  isSameSpot (T := float) (image_spot 100 50) (image_spot (10005 # 100) (5005 # 100)) = true /\
  isSameSpot (T := float) (image_spot 100 50) (image_spot (1002 # 10) 50) = false /\
  isSameSpot (T := xnum) (image_spot 100 50) (image_spot (10005 # 100) (5005 # 100)) = true /\
  isSameSpot (T := xnum) (image_spot 100 50) (image_spot (1002 # 10) 50) = false.
Proof.
  split; [intros T N s1 s2; apply isSameSpot_same_spot|].
  repeat split; vm_compute; reflexivity.
Qed.

(** ** Route de-duplication *)

(** C7, as the code has it.  Two route records are the same entity
    exactly when all four end points exist and their identifiers (id,
    else name) agree in forward or in reverse order, or, some identifier
    being unavailable, all eight coordinates are usable numbers (present,
    non-zero, not NaN) and the GPS positions agree within 1e-4 degrees
    in forward or in reverse order.  Hence the comparison by identifiers
    is the documented one whatever the coordinates are, and the
    comparison as a whole is the documented one for routes whose
    coordinates, where present, are usable numbers.  A route with a
    missing start or end point is never a duplicate. *)
Theorem route_duplicate_detection (T : Type) (N : JSNumber T) (r1 r2 : Route T) :
  (isSameRoute r1 r2 = true <-> same_route_where_usable r1 r2) /\
  (route_identified r1 -> route_identified r2 ->
   (isSameRoute r1 r2 = true <-> same_route r1 r2)) /\
  (route_usable r1 -> route_usable r2 ->
   (isSameRoute r1 r2 = true <-> same_route r1 r2)) /\
  (startPoint r1 = None \/ endPoint r1 = None \/ startPoint r2 = None \/ endPoint r2 = None ->
   isSameRoute r1 r2 = false).
Proof.
  split; [apply isSameRoute_where_usable|].
  split; [intros I1 I2; rewrite isSameRoute_where_usable;
          apply same_route_identified; assumption|].
  split; [intros U1 U2; apply isSameRoute_same_route; assumption|].
  unfold isSameRoute.
  intros [-> | [H | [H | H]]]; [reflexivity | | | ];
    destruct (startPoint r1), (endPoint r1), (startPoint r2), (endPoint r2);
    try reflexivity; discriminate.
Qed.

Lemma located_route_usable :
  route_usable (T := float) (located_route 35 135 36 136).
Proof.
  split; intros p Hp; injection Hp as <-; split; intros v Hv; injection Hv as <-;
    vm_compute; reflexivity.
Qed.

Lemma named_route_identified (T : Type) (N : JSNumber T) (s e : string) :
  String.eqb s "" = false -> String.eqb e "" = false ->
  route_identified (named_route (T := T) s e).
Proof.
  intros Hs He.
  split; intros p Hp; injection Hp as <-; unfold route_point_id; simpl;
    rewrite ?Hs, ?He; discriminate.
Qed.

(** Routes known by coordinates only are compared by position; and the
    example of the design document: A-01 to A-05 and A-05 to A-01 are the
    same route, A-01 to A-09 is another one. *)
Lemma route_duplicate_detection_witness :
  (route_usable (T := float) (located_route 35 135 36 136) /\
   same_route (T := float) (located_route 35 135 36 136) (located_route 36 136 35 135)) /\
  same_route (T := float) (named_route "A-01" "A-05") (named_route "A-05" "A-01") /\
  ~ same_route (T := float) (named_route "A-01" "A-05") (named_route "A-01" "A-09") /\
  isSameRoute (T := float) {| startPoint := None; endPoint := Some (named_point "A-05") |}
    (named_route "A-01" "A-05") = false.
Proof.
  split; [split; [exact located_route_usable|]|split; [|split]].
  - destruct (route_duplicate_detection float _
                (located_route 35 135 36 136) (located_route 36 136 35 135))
      as (_ & _ & Hcoords & _).
    apply Hcoords.
    + exact located_route_usable.
    + split; intros p Hp; injection Hp as <-; split; intros v Hv; injection Hv as <-;
        vm_compute; reflexivity.
    + vm_compute. reflexivity.
  - destruct (route_duplicate_detection float _
                (named_route "A-01" "A-05") (named_route "A-05" "A-01"))
      as (_ & Hids & _).
    apply (proj1 (Hids (named_route_identified float _ "A-01" "A-05" eq_refl eq_refl)
                       (named_route_identified float _ "A-05" "A-01" eq_refl eq_refl))).
    vm_compute. reflexivity.
  - intros Hs.
    destruct (route_duplicate_detection float _
                (named_route "A-01" "A-05") (named_route "A-01" "A-09"))
      as (_ & Hids & _).
    apply (proj2 (Hids (named_route_identified float _ "A-01" "A-05" eq_refl eq_refl)
                       (named_route_identified float _ "A-01" "A-09" eq_refl eq_refl))) in Hs.
    vm_compute in Hs. discriminate.
  - destruct (route_duplicate_detection float _
                {| startPoint := None; endPoint := Some (named_point "A-05") |}
                (named_route "A-01" "A-05"))
      as (_ & _ & _ & Hmissing).
    apply Hmissing. left. reflexivity.
Defined.

(** The claim as written fails where a coordinate is zero: a route from
    (0, 135) to (1, 136) without identifiers is not recognised as a
    duplicate of itself, although every coordinate agrees exactly. *)
Lemma isSameRoute_zero_latitude :
  isSameRoute (T := float) (located_route 0 135 1 136) (located_route 0 135 1 136) = false /\
  same_route (T := float) (located_route 0 135 1 136) (located_route 0 135 1 136) /\
  isSameRoute (T := float) (located_route 35 135 36 136) (located_route 35 135 36 136) = true.
Proof.
  split; [vm_compute; reflexivity|]. split; [|vm_compute; reflexivity].
  left. repeat split; vm_compute; reflexivity.
Qed.

(** ** Image coordinates to GPS *)

(** C9, as the code has it.  convertImageCoordsToGps returns null exactly
    when the bounds are missing or the width or the height is missing,
    zero or NaN; for every other width and height, negative ones
    included, it returns the linear interpolation of the pixel inside
    the bounding box (longitude west to east by imageX / imageWidth,
    latitude north to south by imageY / imageHeight). *)
Theorem convertImageCoordsToGps_spec (T : Type) (N : JSNumber T)
  (imageX imageY : T) (b : option (LatLngBounds T)) (w h : option T) :
  (convertImageCoordsToGps imageX imageY b w h = None
   <-> b = None \/ unusable_dimension w \/ unusable_dimension h) /\
  convertImageCoordsToGps imageX imageY b w h
  = match b, w, h with
    | Some bounds, Some width, Some height =>
      if num_truthy width && num_truthy height
      then Some (interpolate_in_bounds bounds imageX imageY width height)
      else None
    | _, _, _ => None
    end.
Proof.
  split; [apply convertImageCoordsToGps_null|].
  unfold convertImageCoordsToGps, interpolate_in_bounds.
  destruct b as [bounds|]; [|reflexivity].
  destruct w as [width|], h as [height|]; simpl; try reflexivity.
  - destruct (num_truthy width), (num_truthy height); reflexivity.
  - destruct (num_truthy width); reflexivity.
Qed.

(** The claim as written fails for a negative width: with the bounds
    (35, 135)-(36, 136), the pixel (50, 50) of an image of width -100 and
    height 100 is given a position, west of the bounds; a zero or NaN
    width gives null. *)
Lemma convertImageCoordsToGps_negative_width :
  num_lt (T := float) (-100)%float (num_of_Q 0) = true /\
  convertImageCoordsToGps (T := float) 50%float 50%float (Some sample_bounds)
    (Some (-100)%float) (Some 100%float) = Some (35.5%float, 134.5%float) /\
  convertImageCoordsToGps (T := float) 50%float 50%float (Some sample_bounds)
    (Some 0%float) (Some 100%float) = None /\
  convertImageCoordsToGps (T := float) 50%float 50%float (Some sample_bounds)
    (Some PrimFloat.nan) (Some 100%float) = None.
Proof. repeat split; vm_compute; reflexivity. Qed.

(** ** Matching engine *)


(** ** Affine estimator *)

(** C1.  For a list of n >= 3 control points the estimator fills a 2n x 6
    matrix A and a 2n-vector B in which control point i contributes row
    2i = [imageX, imageY, 1, 0, 0, 0] with target the GPS longitude in Web
    Mercator, and row 2i+1 = [0, 0, 0, imageX, imageY, 1] with target the
    GPS latitude in Web Mercator.  It forms AᵗA and AᵗB (the normal
    equations) with transpose, multiply and multiplyVector, hands them to
    gaussJordan, and returns the six coefficients a..f in the order of the
    solution vector, or null when the solver returns null. *)
Theorem affine_estimator_normal_equations (T : Type) (N : JSNumber T) (M : JSMath T)
  (controlPoints : list (ControlPoint T)) :
  3 <= length controlPoints ->
  let A := design_matrix controlPoints in
  let B := target_vector controlPoints in
  build_equations controlPoints = (A, B) /\
  length A = 2 * length controlPoints /\
  (forall row, row ∈ A -> length row = 6) /\
  length B = 2 * length controlPoints /\
  (forall i cp, controlPoints !! i = Some cp ->
     let imageX := opt_num (pj_imageX (pointJson cp)) in
     let imageY := opt_num (pj_imageY (pointJson cp)) in
     A !! (2 * i) = Some [imageX; imageY; num_of_Q 1; num_of_Q 0; num_of_Q 0; num_of_Q 0] /\
     B !! (2 * i) = Some (lonToWebMercatorX (gps_lng (gpsPoint cp))) /\
     A !! (2 * i + 1) = Some [num_of_Q 0; num_of_Q 0; num_of_Q 0; imageX; imageY; num_of_Q 1] /\
     B !! (2 * i + 1) = Some (latToWebMercatorY (gps_lat (gpsPoint cp)))) /\
  multiply (transpose (Some A)) (Some A) = Some (normal_matrix A) /\
  multiplyVector (transpose (Some A)) (Some B) = Return (Some (normal_rhs A B)) /\
  calculateAffineTransformation controlPoints
  = match gaussJordan (Some (normal_matrix A)) (Some (normal_rhs A B)) with
    | Some x => Some {| tr_a := aget x 0; tr_b := aget x 1; tr_c := aget x 2;
                        tr_d := aget x 3; tr_e := aget x 4; tr_f := aget x 5 |}
    | None => None
    end.
Proof.
  intros Hn A B.
  split; [apply build_equations_spec|].
  split; [apply design_matrix_length|].
  split; [apply design_matrix_width|].
  split; [apply target_vector_length|].
  split.
  { intros i cp Hi imageX imageY.
    destruct (design_matrix_lookup controlPoints i cp Hi) as [A0 A1].
    destruct (target_vector_lookup controlPoints i cp Hi) as [B0 B1].
    unfold A, B. rewrite A0, A1, B0, B1. repeat split. }
  destruct controlPoints as [|cp l]; [simpl in Hn; lia|].
  pose proof (calculateAffineTransformation_spec (cp :: l)) as Hc.
  assert (HAB : length A = length B)
    by (unfold A, B; rewrite design_matrix_length, target_vector_length; reflexivity).
  unfold A in HAB |- *. rewrite design_matrix_cons in HAB |- *.
  match goal with
  | |- context [transpose (Some (?r0 :: ?rs))] =>
    destruct (normal_equations_products r0 rs B eq_refl HAB) as [H1 H2]
  end.
  split; [exact H1|]. split; [exact H2|].
  rewrite Hc, design_matrix_cons. reflexivity.
Qed.

(** Three control points: the corners (0,0), (100,0), (0,100) of an image
    placed near 35 N, 135 E. *)
Definition sample_control_point (id : string) (x y la lo : Q) : ControlPoint float :=
  {| pointJsonId := id;
     pointJson := {| pj_Id := Some id; pj_id := None; pj_name := None;
                     pj_imageX := Some (num_of_Q x); pj_imageY := Some (num_of_Q y) |};
     gpsPoint := {| gps_pointId := Some id; gps_lat := num_of_Q la; gps_lng := num_of_Q lo |} |}.

Definition sample_control_points : list (ControlPoint float) :=
  [ sample_control_point "A-01" 0 0 (35001 # 1000) 135;
    sample_control_point "A-02" 100 0 (35001 # 1000) (135001 # 1000);
    sample_control_point "A-03" 0 100 35 135 ].

Lemma affine_estimator_witness :
  3 <= length sample_control_points /\
  calculateAffineTransformation sample_control_points
  = match gaussJordan
            (Some (normal_matrix (design_matrix sample_control_points)))
            (Some (normal_rhs (design_matrix sample_control_points)
                              (target_vector sample_control_points))) with
    | Some x => Some {| tr_a := aget x 0; tr_b := aget x 1; tr_c := aget x 2;
                        tr_d := aget x 3; tr_e := aget x 4; tr_f := aget x 5 |}
    | None => None
    end.
Proof.
  assert (Hn : 3 <= length sample_control_points) by (simpl; lia).
  split; [exact Hn|].
  apply (affine_estimator_normal_equations float _ _ sample_control_points Hn).
Defined.

(** ** Insufficient control points *)

(** C3.  When fewer than three pairs are matched, estimation fails:
    calculatePreciseTransformation returns null for fewer than three
    control points, and performGeoreferencingCalculations throws the
    insufficient-control-points error to its caller and leaves the whole
    state as it was: no transformation is produced or installed, and no
    callback registered. *)
Theorem insufficient_control_points (T : Type) (N : JSNumber T) (M : JSMath T)
  (placeOverlay : Transformation T -> ImageOverlay T -> ImageOverlay T * bool)
  (st : Georeferencing T) :
  let matched := matchedPairs (matchPointJsonWithGPS (pointJsonData st) (gpsData st)) in
  length matched < 3 ->
  calculatePreciseTransformation matched = None /\
  performGeoreferencingCalculations placeOverlay st
  = (inl (InsufficientControlPoints (length matched)), st) /\
  currentTransformation (snd (performGeoreferencingCalculations placeOverlay st))
  = currentTransformation st /\
  (forall controlPoints : list (ControlPoint T),
     length controlPoints < 3 -> calculatePreciseTransformation controlPoints = None).
Proof.
  intros matched Hlt.
  split; [apply calculatePreciseTransformation_insufficient, Hlt|].
  pose proof (performGeoreferencingCalculations_insufficient placeOverlay st Hlt) as Hp.
  split; [exact Hp|]. split; [fold matched in Hp; rewrite Hp; reflexivity|].
  intros cps. apply calculatePreciseTransformation_insufficient.
Qed.

(** A loaded state: two GPS points, three image entities of which two
    match, one route marker from GPS data and one from image data, and one
    spot of each origin. *)
Definition sample_overlay : ImageOverlay float :=
  {| io_layer := Some (Some sample_bounds);
     io_naturalWidth := 100%float; io_width := 100%float;
     io_naturalHeight := 100%float; io_height := 100%float;
     io_initialCenter := (35%float, 135%float) |}.

Definition sample_entity (id : option string) (x y : Q) : PointJson float :=
  {| pj_Id := id; pj_id := None; pj_name := None;
     pj_imageX := Some (num_of_Q x); pj_imageY := Some (num_of_Q y) |}.

Definition gps_marker (la lo : Q) : Marker float :=
  {| m_latlng := (num_of_Q la, num_of_Q lo);
     m_meta := Some {| meta_origin := "gps"; meta_imageX := None; meta_imageY := None |} |}.

Definition image_marker (la lo x y : Q) : Marker float :=
  {| m_latlng := (num_of_Q la, num_of_Q lo);
     m_meta := Some {| meta_origin := "image"; meta_imageX := Some (num_of_Q x);
                       meta_imageY := Some (num_of_Q y) |} |}.

Definition sample_state : Georeferencing float :=
  {| gpsData := [ {| gps_pointId := Some "A-01"; gps_lat := 35%float; gps_lng := 135%float |};
                  {| gps_pointId := Some "A-02"; gps_lat := 36%float; gps_lng := 136%float |} ];
     pointJsonData := Some (PJPoints [ sample_entity (Some "A-01") 0 0;
                                       sample_entity (Some "A-02") 100 100;
                                       sample_entity None 50 50 ]);
     currentTransformation := None;
     imageCoordinateMarkers := [];
     imageUpdateCallbackRegistered := false;
     routeSpotHandler :=
       Some {| routeMarkers := [ LMarker (gps_marker 35 135); LMarker (image_marker 35 135 50 50) ];
               spotMarkers := [ gps_marker 36 136; image_marker 36 136 0 100 ] |};
     coordinateDisplay := true;
     imageOverlay := sample_overlay |}.

(** Two matched pairs are not enough: the request fails and the state,
    its (absent) transformation included, is what it was. *)
Lemma insufficient_control_points_witness :
  length (matchedPairs (matchPointJsonWithGPS (pointJsonData sample_state)
                                               (gpsData sample_state))) = 2 /\
  performGeoreferencingCalculations (fun _ o => (o, true)) sample_state
  = (inl (InsufficientControlPoints 2), sample_state).
Proof.
  assert (Hlen : length (matchedPairs (matchPointJsonWithGPS (pointJsonData sample_state)
                                                             (gpsData sample_state))) = 2)
    by (vm_compute; reflexivity).
  split; [exact Hlen|].
  pose proof (insufficient_control_points float _ _ (fun _ o => (o, true)) sample_state) as Hc.
  cbv zeta in Hc. rewrite Hlen in Hc.
  exact (proj1 (proj2 (Hc (Nat.lt_succ_diag_r 2)))).
Defined.

(** ** Position synchronisation *)

(** C4.  Whatever the sequence of image updates and estimation requests,
    an entity that is not image-sourced, hence every entity whose origin
    tag is gps (route marker, polyline vertex or spot), stays where it
    was, and the loaded GPS points are untouched.  In a synchronisation
    pass under a current transformation that is absent or was built by
    the estimator, every entity whose origin tag is image and which
    carries imageX and imageY (route marker, each vertex of a polyline,
    spot) gets the position applyAffineTransform(imageX, imageY,
    currentTransformation) returns, keeping its own when that is null;
    so does every georeference point marker when a transformation is
    current. *)
Theorem position_synchronization (T : Type) (N : JSNumber T) (M : JSMath T)
  (st : Georeferencing T) :
  transformation_ok (currentTransformation st) ->
  let cur := currentTransformation st in
  (forall meta : option (MarkerMeta T), gps_origin meta -> image_source meta = None) /\
  (forall (events : list (SyncEvent T)) i m,
     routeMarkers_of st !! i = Some (LMarker m) -> gps_origin (m_meta m) ->
     routeMarkers_of (foldl handle_event st events) !! i = Some (LMarker m)) /\
  (forall (events : list (SyncEvent T)) i j pts metas p,
     routeMarkers_of st !! i = Some (LPolyline pts metas) ->
     pts !! j = Some p -> gps_origin (metas !! j) ->
     exists pts', routeMarkers_of (foldl handle_event st events) !! i
                  = Some (LPolyline pts' metas) /\
                  length pts' = length pts /\ pts' !! j = Some p) /\
  (forall (events : list (SyncEvent T)) i m,
     spotMarkers_of st !! i = Some m -> gps_origin (m_meta m) ->
     spotMarkers_of (foldl handle_event st events) !! i = Some m) /\
  (forall events : list (SyncEvent T), gpsData (foldl handle_event st events) = gpsData st) /\
  (forall i m x y,
     routeMarkers_of st !! i = Some (LMarker m) -> image_source (m_meta m) = Some (x, y) ->
     routeMarkers_of (synchronize st) !! i
     = Some (LMarker {| m_latlng := affine_position cur x y (m_latlng m);
                        m_meta := m_meta m |})) /\
  (forall i j pts metas p x y,
     routeMarkers_of st !! i = Some (LPolyline pts metas) ->
     pts !! j = Some p -> image_source (metas !! j) = Some (x, y) ->
     exists pts', routeMarkers_of (synchronize st) !! i = Some (LPolyline pts' metas) /\
                  pts' !! j = Some (affine_position cur x y p)) /\
  (forall i m x y,
     spotMarkers_of st !! i = Some m -> image_source (m_meta m) = Some (x, y) ->
     spotMarkers_of (synchronize st) !! i
     = Some {| m_latlng := affine_position cur x y (m_latlng m); m_meta := m_meta m |}) /\
  (forall t i mi x y,
     cur = Some t -> imageCoordinateMarkers st !! i = Some mi ->
     mi_type mi = "georeference-point" ->
     mi_data mi = Some {| pd_imageX := Some x; pd_imageY := Some y |} ->
     imageCoordinateMarkers (synchronize st) !! i
     = Some {| mi_marker := affine_position cur x y (mi_marker mi);
               mi_type := mi_type mi; mi_data := mi_data mi |}).
Proof.
  intros Hok cur.
  split; [intros meta; apply image_source_gps|].
  split.
  { intros events i m Hi Hg. destruct (handle_events_kept events st) as [(K1 & _ & _) _].
    exact (kept_marker_lookup _ _ _ _ K1 Hi (image_source_gps _ Hg)). }
  split.
  { intros events i j pts metas p Hi Hp Hg.
    destruct (handle_events_kept events st) as [(K1 & _ & _) _].
    exact (kept_vertex_lookup _ _ _ _ _ _ _ K1 Hi Hp (image_source_gps _ Hg)). }
  split.
  { intros events i m Hi Hg. destruct (handle_events_kept events st) as [(_ & K2 & _) _].
    exact (kept_spot_lookup _ _ _ _ K2 Hi (image_source_gps _ Hg)). }
  split.
  { intros events. destruct (handle_events_kept events st) as [(_ & _ & K3) _]. exact K3. }
  rewrite synchronize_closed.
  unfold routeMarkers_of, spotMarkers_of, synchronized.
  cbn [routeSpotHandler imageCoordinateMarkers]. fold cur.
  destruct (routeSpotHandler st) as [h|]; cbn [routeMarkers spotMarkers].
  2: { repeat split; try (intros; discriminate).
       intros t i mi x y Hc Hi Hty Hd. rewrite Hc.
       rewrite (lookup_map_Some _ _ _ _ Hi).
       rewrite (update_point_marker_position st t mi x y); try assumption.
       - reflexivity.
       - unfold cur in Hc. rewrite Hc in Hok. exact Hok. }
  split.
  { intros i m x y Hi Hs. rewrite (lookup_map_Some _ _ _ _ Hi). cbn [sync_layer].
    rewrite (sync_marker_position cur m x y Hok Hs). reflexivity. }
  split.
  { intros i j pts metas p x y Hi Hp Hs. rewrite (lookup_map_Some _ _ _ _ Hi).
    cbn [sync_layer]. eexists. split; [reflexivity|].
    rewrite list_lookup_imap, Hp. simpl.
    rewrite (sync_vertex_position cur metas j p x y Hok Hs). reflexivity. }
  split.
  { intros i m x y Hi Hs. rewrite (lookup_map_Some _ _ _ _ Hi).
    rewrite (sync_marker_position cur m x y Hok Hs). reflexivity. }
  intros t i mi x y Hc Hi Hty Hd. rewrite Hc.
  rewrite (lookup_map_Some _ _ _ _ Hi).
  rewrite (update_point_marker_position st t mi x y); try assumption.
  - reflexivity.
  - unfold cur in Hc. rewrite Hc in Hok. exact Hok.
Qed.

(** A transformation as the estimator would install it: one pixel is
    about one metre east and one metre south. *)
Definition sample_transformation : Transformation float :=
  {| t_type := "precise";
     t_transformation :=
       Some {| tr_a := 1%float; tr_b := 0%float; tr_c := 15028131%float;
               tr_d := 0%float; tr_e := (-1)%float; tr_f := 4163881%float |};
     t_accuracy := {| meanError := 0%float; maxError := 0%float; minError := 0%float;
                      errors := [] |};
     t_controlPoints := [];
     t_usedPoints := 0 |}.

Definition sample_georeferenced : Georeferencing float :=
  set_currentTransformation sample_state (Some sample_transformation).

(** In the sample state the spot from GPS data stays at (36, 136) after a
    pass, and the spot from image data moves to the transformed position
    of its pixel (0, 100). *)
Lemma position_synchronization_witness :
  transformation_ok (currentTransformation sample_georeferenced) /\
  spotMarkers_of (foldl handle_event sample_georeferenced [ImageUpdated; ImageUpdated]) !! 0
  = Some (gps_marker 36 136) /\
  spotMarkers_of (synchronize sample_georeferenced) !! 1
  = Some {| m_latlng := affine_position (Some sample_transformation)
                          0%float 100%float (36%float, 136%float);
            m_meta := m_meta (image_marker 36 136 0 100) |}.
Proof.
  assert (Hok : transformation_ok (currentTransformation sample_georeferenced))
    by (split; [reflexivity | eexists; reflexivity]).
  split; [exact Hok|].
  destruct (position_synchronization float _ _ sample_georeferenced Hok)
    as (_ & _ & _ & Hgps & _ & _ & _ & Himg & _).
  split.
  - apply (Hgps [ImageUpdated; ImageUpdated] 0 (gps_marker 36 136)); [reflexivity|].
    eexists. split; reflexivity.
  - apply (Himg 1 (image_marker 36 136 0 100) 0%float 100%float); reflexivity.
Defined.

(** C5.  The synchronisation pass is idempotent: a second pass over the
    result of a pass, with the transformation, the overlay and the
    entities unchanged in between, returns the very same state, so every
    point, route marker, polyline vertex and spot is assigned the
    position it already has. *)
Theorem synchronization_idempotent (T : Type) (N : JSNumber T) (M : JSMath T)
  (st : Georeferencing T) :
  synchronize (synchronize st) = synchronize st.
Proof. rewrite !synchronize_closed. apply synchronized_idem. Qed.

(** ** The linear solver *)

Definition sample_matrix (T : Type) {N : JSNumber T} : list (list T) :=
  [[num_of_Q 2; num_of_Q 1]; [num_of_Q 1; num_of_Q 3]].

Definition sample_rhs (T : Type) {N : JSNumber T} : list T :=
  [num_of_Q 3; num_of_Q 5].

Definition singular_matrix (T : Type) {N : JSNumber T} : list (list T) :=
  [[num_of_Q 1; num_of_Q 2]; [num_of_Q 2; num_of_Q 4]].







(** ** The solver and the arrays of its caller *)

(** A heap with the matrix [[2,1],[1,3]] at reference 0, its rows at 1 and
    2, and the vector [3,5] at reference 3. *)
Definition sample_heap : heap float :=
  <[0 := Rows [1; 2]]>
    (<[1 := Numbers [2; 1]%float]>
       (<[2 := Numbers [1; 3]%float]>
          (<[3 := Numbers [3; 5]%float]> ∅))).

(** The singular matrix [[1,2],[1,2]] whose two rows are one shared array. *)
Definition shared_rows_heap : heap float :=
  <[0 := Rows [1; 1]]>
    (<[1 := Numbers [1; 2]%float]>
       (<[3 := Numbers [3; 5]%float]> ∅)).

(** C10.  [gaussJordan] never mutates its arguments.  Whatever the
    arguments and the heap, and whether the call returns a solution or
    null, every array that existed before the call holds the same
    elements after it; in particular the matrix and the vector the
    arguments stand for read the same.  The elimination runs on copies:
    on a matrix and a vector of the heap the call returns null exactly
    when the solver over values does, and otherwise a reference to a new
    array that holds the vector the solver over values returns. *)
Theorem gaussJordan_arguments_unchanged (T : Type) (N : JSNumber T)
    (A B : option ref) (h : heap T) :
  (forall r a, h !! r = Some a -> (gaussJordan_on_heap A B h).2 !! r = Some a) /\
  (forall a M, A = Some a -> read_matrix h a = Some M ->
               read_matrix (gaussJordan_on_heap A B h).2 a = Some M) /\
  (forall b v, B = Some b -> read_vector h b = Some v ->
               read_vector (gaussJordan_on_heap A B h).2 b = Some v) /\
  (forall a b M v, A = Some a -> B = Some b ->
     read_matrix h a = Some M -> read_vector h b = Some v ->
     match (gaussJordan_on_heap A B h).1 with
     | None => gaussJordan (Some M) (Some v) = None
     | Some r =>
       h !! r = None /\
       exists x, (gaussJordan_on_heap A B h).2 !! r = Some (Numbers x) /\
                 gaussJordan (Some M) (Some v) = Some x
     end).
Proof.
  pose proof (gaussJordan_on_heap_grown A B h) as Hsub.
  split; [intros r a Hr; apply (heap_lookup_weaken h _ r a Hsub Hr)|].
  split; [intros a M _; apply read_matrix_grown, Hsub|].
  split; [intros b v _; apply read_vector_grown, Hsub|].
  intros a b M v -> -> HM Hv.
  pose proof (gaussJordan_on_heap_refines h a b M v HM Hv) as Href.
  destruct (gaussJordan_on_heap (Some a) (Some b) h) as [[r|] h']; exact Href.
Qed.

(** After a successful call on the sample heap, and after a failed call
    on the heap with a shared row, the matrix and the vector read as
    before. *)
Lemma gaussJordan_arguments_unchanged_witness :
  (read_matrix sample_heap 0 = Some [[2; 1]; [1; 3]]%float /\
   (gaussJordan_on_heap (Some 0) (Some 3) sample_heap).1 = Some 7 /\
   read_matrix (gaussJordan_on_heap (Some 0) (Some 3) sample_heap).2 0
   = Some [[2; 1]; [1; 3]]%float) /\
  (read_vector shared_rows_heap 3 = Some [3; 5]%float /\
   (gaussJordan_on_heap (Some 0) (Some 3) shared_rows_heap).1 = None /\
   read_vector (gaussJordan_on_heap (Some 0) (Some 3) shared_rows_heap).2 3
   = Some [3; 5]%float).
Proof.
  split.
  - assert (HM : read_matrix sample_heap 0 = Some [[2; 1]; [1; 3]]%float)
      by (vm_compute; reflexivity).
    split; [exact HM|]. split; [vm_compute; reflexivity|].
    destruct (gaussJordan_arguments_unchanged float _ (Some 0) (Some 3) sample_heap)
      as (_ & Hmat & _).
    apply (Hmat 0 _ eq_refl HM).
  - assert (Hv : read_vector shared_rows_heap 3 = Some [3; 5]%float)
      by (vm_compute; reflexivity).
    split; [exact Hv|]. split; [vm_compute; reflexivity|].
    destruct (gaussJordan_arguments_unchanged float _ (Some 0) (Some 3) shared_rows_heap)
      as (_ & _ & Hvec & _).
    apply (Hvec 3 _ eq_refl Hv).
Defined.

Example float_literals :
  float_of_Q (1 # 10000000000) = 1e-10%float /\
  float_of_Q (1 # 10) = 0.1%float /\
  float_of_Q (1 # 10000) = 0.0001%float /\
  float_of_Q (2003750834 # 100) = 20037508.34%float.
Proof. repeat split; vm_compute; reflexivity. Qed.

Example xnum_compute :
  xnum_eqb (num_div (num_of_Q 1) (num_of_Q 3)) (XFin (Q2Qc (2 # 6))) = true.
Proof. vm_compute. reflexivity. Qed.

(** * Further properties of the code *)

(** ** The solver: what decides failure *)

Section SolverFailure.
Context {T : Type} {N : JSNumber T}.

(** Two augmented matrices with the same coefficients: they agree on the
    first [n] columns of their [n] rows. *)
Definition same_coefficients (n : nat) (M M' : list (list T)) : Prop :=
  length M = n /\ length M' = n /\
  forall k j, k < n -> j < n -> entry M k j = entry M' k j.

Lemma select_pivot_loop_same (n i : nat) (M M' : list (list T)) (m : nat) :
  same_coefficients n M M' -> i < n ->
  forall start best, best < n -> start + m <= n ->
  foldl (fun maxRow k =>
           if num_lt (num_abs (aget (mget M maxRow) i)) (num_abs (aget (mget M k) i))
           then k else maxRow) best (seq start m)
  = foldl (fun maxRow k =>
             if num_lt (num_abs (aget (mget M' maxRow) i)) (num_abs (aget (mget M' k) i))
             then k else maxRow) best (seq start m).
Proof.
  intros (_ & _ & Hsame) Hi. induction m as [|m IH]; intros start best Hb Hs; [reflexivity|].
  cbn [seq foldl].
  fold (entry M best i) (entry M start i) (entry M' best i) (entry M' start i).
  rewrite (Hsame best i Hb Hi), (Hsame start i ltac:(lia) Hi).
  destruct (num_lt _ _); apply IH; lia.
Qed.

Lemma select_pivot_same (n i : nat) (M M' : list (list T)) :
  same_coefficients n M M' -> i < n -> select_pivot n i M = select_pivot n i M'.
Proof.
  intros Hsame Hi. unfold select_pivot.
  apply (select_pivot_loop_same n i M M' _ Hsame Hi); lia.
Qed.

Lemma pivot_step_same (n i : nat) (M M' : list (list T)) :
  same_coefficients n M M' -> i < n ->
  same_coefficients n (pivot_step n i M) (pivot_step n i M').
Proof.
  intros Hsame Hi. pose proof Hsame as (HM & HM' & Hent).
  split; [rewrite pivot_step_length; exact HM|].
  split; [rewrite pivot_step_length; exact HM'|].
  intros k j Hk Hj. rewrite !pivot_step_entry by assumption.
  rewrite <- (select_pivot_same n i M M' Hsame Hi).
  pose proof (select_pivot_range n i M Hi) as Hr.
  apply Hent; [|exact Hj].
  unfold swapped_index. destruct (k =? i); [lia|].
  destruct (k =? select_pivot n i M); lia.
Qed.

Lemma in_columns_lt (i n j : nat) : i < n -> j < n -> in_columns i n j = (i <=? j).
Proof. intros Hi Hj. unfold in_columns. nat_cases. Qed.

Lemma reduce_step_same (n i : nat) (M M' : list (list T)) :
  same_coefficients n M M' -> i < n ->
  same_coefficients n (reduce_step n i M) (reduce_step n i M').
Proof.
  intros (HM & HM' & Hent) Hi.
  split; [apply reduce_step_length; assumption|].
  split; [apply reduce_step_length; assumption|].
  intros k j Hk Hj. rewrite !reduce_step_entry by assumption.
  rewrite (Hent k j Hk Hj), (Hent i j Hi Hj), (Hent i i Hi Hi), (Hent k i Hk Hi).
  reflexivity.
Qed.

Lemma unchecked_loop_same (n : nat) (steps : list nat) :
  Forall (fun i => i < n) steps ->
  forall M M' : list (list T), same_coefficients n M M' ->
  same_coefficients n (unchecked_loop n steps M) (unchecked_loop n steps M').
Proof.
  intros Hsteps. induction Hsteps as [|i rest Hi Hrest IH]; intros M M' Hsame; [exact Hsame|].
  cbn [unchecked_loop]. apply IH. apply reduce_step_same; [|exact Hi].
  apply pivot_step_same; assumption.
Qed.

Lemma augment_same (A : list (list T)) (B B' : list T) :
  Forall (fun row => length A <= length row) A ->
  same_coefficients (length A) (augment A B) (augment A B').
Proof.
  intros Hrows. unfold same_coefficients, augment. rewrite !length_imap.
  split; [reflexivity|]. split; [reflexivity|].
  intros k j Hk Hj. unfold entry. rewrite !mget_lookup, !list_lookup_imap.
  destruct (A !! k) as [row|] eqn:E; [|reflexivity]. simpl.
  assert (Hrow : length A <= length row).
  { apply (proj1 (Forall_lookup _ A) Hrows k row E). }
  unfold aget. rewrite !app_nth1 by lia. reflexivity.
Qed.

Lemma pivot_at_same (A : list (list T)) (B B' : list T) (i : nat) :
  Forall (fun row => length A <= length row) A -> i < length A ->
  pivot_at A B i = pivot_at A B' i.
Proof.
  intros Hrows Hi. unfold pivot_at.
  set (n := length A).
  assert (Hs : same_coefficients n
                 (pivot_step n i (unchecked_loop n (seq 0 i) (augment A B)))
                 (pivot_step n i (unchecked_loop n (seq 0 i) (augment A B')))).
  { apply pivot_step_same; [|exact Hi]. apply unchecked_loop_same.
    - apply Forall_forall. intros k Hk. apply elem_of_seq in Hk. lia.
    - apply augment_same, Hrows. }
  apply Hs; exact Hi.
Qed.

End SolverFailure.

(** X1.  Whether [gaussJordan] rejects a system depends on the
    coefficient matrix alone: for a matrix whose rows have at least as
    many entries as it has rows, and two right-hand sides with one entry
    per row, the call returns null for the one exactly when it returns
    null for the other.  This holds in every number model. *)
Theorem gaussJordan_failure_ignores_rhs (T : Type) (N : JSNumber T)
    (A : list (list T)) (B B' : list T) :
  Forall (fun row => length A <= length row) A ->
  length B = length A -> length B' = length A ->
  (gaussJordan (Some A) (Some B) = None <-> gaussJordan (Some A) (Some B') = None).
Proof.
  intros Hrows HB HB'. rewrite !gaussJordan_null. unfold near_singular.
  split; intros [Hne | (i & Hi & Hp)]; try lia; right; exists i; (split; [exact Hi|]).
  - rewrite <- (pivot_at_same A B B' i Hrows Hi). exact Hp.
  - rewrite (pivot_at_same A B B' i Hrows Hi). exact Hp.
Qed.

(** The singular matrix of the design document is rejected with the
    right-hand side [3, 5] because it is with [0, 0]. *)
Lemma gaussJordan_failure_ignores_rhs_witness :
  gaussJordan (Some (singular_matrix float)) (Some [3; 5]%float) = None.
Proof.
  apply (gaussJordan_failure_ignores_rhs float _ (singular_matrix float)
           [0; 0]%float [3; 5]%float).
  - repeat constructor.
  - reflexivity.
  - reflexivity.
  - vm_compute. reflexivity.
Defined.

(** ** The solver: singular systems and the size of a solution *)

(** X3.  A solution has one entry per equation: in every number model,
    when [gaussJordan] returns a vector, [A] and [B] have the same number
    of rows and the vector has that many entries. *)
Theorem gaussJordan_solution_length (T : Type) (N : JSNumber T)
    (A : list (list T)) (B x : list T) :
  gaussJordan (Some A) (Some B) = Some x ->
  length A = length B /\ length x = length A.
Proof.
  intros Hx. destruct (gaussJordan_value A B x Hx) as (Hlen & -> & _).
  split; [exact Hlen|]. rewrite length_map.
  apply unchecked_loop_length.
  - apply Forall_forall. intros i Hi. apply elem_of_seq in Hi. lia.
  - unfold augment. apply length_imap.
Qed.

Lemma gaussJordan_solution_length_witness :
  exists x : list float,
    gaussJordan (Some (sample_matrix float)) (Some (sample_rhs float)) = Some x /\
    length x = 2.
Proof.
  eexists. split; [vm_compute; reflexivity|].
  apply (gaussJordan_solution_length float _ (sample_matrix float) (sample_rhs float)).
  vm_compute. reflexivity.
Defined.

(** ** Matrix transposition *)

Section Transpose.
Context {T : Type} {N : JSNumber T}.

(** A matrix of [r] rows of [c] entries each. *)
Definition rectangular (r c : nat) (M : list (list T)) : Prop :=
  length M = r /\ Forall (fun row => length row = c) M.

Definition columns_of (M : list (list T)) (row0 : list T) : list (list T) :=
  imap (fun colIndex _ => map (fun row => aget row colIndex) M) row0.

Lemma transpose_columns (M : list (list T)) :
  M <> [] -> transpose (Some M) = Some (columns_of M (mget M 0)).
Proof. destruct M as [|row0 rest]; [congruence | reflexivity]. Qed.

Lemma columns_of_lookup (M : list (list T)) (row0 : list T) (j : nat) :
  j < length row0 -> columns_of M row0 !! j = Some (map (fun row => aget row j) M).
Proof.
  intros Hj. unfold columns_of. rewrite list_lookup_imap.
  destruct (lookup_lt_is_Some_2 row0 j Hj) as [v ->]. reflexivity.
Qed.

Lemma rectangular_row (r c : nat) (M : list (list T)) (i : nat) :
  rectangular r c M -> i < r -> M !! i = Some (mget M i) /\ length (mget M i) = c.
Proof.
  intros [Hr Hc] Hi.
  destruct (lookup_lt_is_Some_2 M i ltac:(lia)) as [row Hrow].
  rewrite mget_lookup, Hrow. split; [reflexivity|].
  apply (proj1 (Forall_lookup _ M) Hc i row Hrow).
Qed.

Lemma aget_in_range (row : list T) (j : nat) :
  j < length row -> row !! j = Some (aget row j).
Proof.
  intros Hj. rewrite aget_lookup. destruct (lookup_lt_is_Some_2 row j Hj) as [v ->].
  reflexivity.
Qed.

Lemma transpose_rectangular (r c : nat) (M : list (list T)) :
  rectangular r c M -> 0 < r -> 0 < c ->
  let Mt := columns_of M (mget M 0) in
  transpose (Some M) = Some Mt /\ rectangular c r Mt /\
  (forall i j, i < r -> j < c -> entry Mt j i = entry M i j).
Proof.
  intros Hrect Hr Hc Mt. pose proof Hrect as [HlM Hrows].
  destruct (rectangular_row r c M 0 Hrect Hr) as [_ Hl0].
  split; [apply transpose_columns; intros ->; simpl in HlM; lia|].
  split.
  - split; [unfold Mt, columns_of; rewrite length_imap; exact Hl0|].
    apply Forall_forall. intros col Hcol. apply list_elem_of_lookup in Hcol as [j Hj].
    assert (Hjc : j < c).
    { apply lookup_lt_Some in Hj. unfold Mt, columns_of in Hj.
      rewrite length_imap in Hj. lia. }
    unfold Mt in Hj. rewrite columns_of_lookup in Hj by lia. injection Hj as <-.
    rewrite length_map. exact HlM.
  - intros i j Hi Hj. unfold entry, Mt.
    rewrite (mget_lookup (columns_of M (mget M 0)) j), columns_of_lookup by lia.
    simpl. apply aget_map_row.
Qed.

Lemma transpose_involutive (r c : nat) (M : list (list T)) :
  rectangular r c M -> 0 < r -> 0 < c ->
  transpose (Some (columns_of M (mget M 0))) = Some M.
Proof.
  intros Hrect Hr Hc.
  destruct (transpose_rectangular r c M Hrect Hr Hc) as (_ & Hrt & Hent).
  set (Mt := columns_of M (mget M 0)) in *.
  pose proof Hrect as [HlM _]. pose proof Hrt as [HlMt _].
  destruct (rectangular_row c r Mt 0 Hrt Hc) as [_ Hl0].
  rewrite transpose_columns by (intros Hnil; rewrite Hnil in HlMt; simpl in HlMt; lia).
  f_equal. apply list_eq. intros i.
  destruct (decide (i < r)) as [Hi | Hi].
  - rewrite columns_of_lookup by lia.
    destruct (rectangular_row r c M i Hrect Hi) as [-> Hli]. f_equal.
    apply list_eq. intros j. rewrite list_lookup_fmap.
    destruct (decide (j < c)) as [Hj | Hj].
    + destruct (rectangular_row c r Mt j Hrt Hj) as [-> _]. simpl.
      rewrite aget_in_range by lia. f_equal. apply (Hent i j Hi Hj).
    + rewrite (lookup_ge_None_2 Mt j) by lia.
      rewrite (lookup_ge_None_2 (mget M i) j) by lia. reflexivity.
  - rewrite (lookup_ge_None_2 M i) by lia.
    apply lookup_ge_None_2. unfold columns_of. rewrite length_imap. lia.
Qed.

End Transpose.

(** X4.  [transpose] exchanges rows and columns and undoes itself: in
    every number model, a matrix of [r >= 1] rows of [c >= 1] entries
    becomes a matrix of [c] rows of [r] entries whose entry [(j, i)] is
    the entry [(i, j)] of the original, and transposing the result gives
    the original back.  A missing or empty matrix gives null, while a
    matrix whose first row is empty gives the empty matrix. *)
Theorem transpose_exchanges_rows_and_columns (T : Type) (N : JSNumber T)
    (r c : nat) (M : list (list T)) :
  rectangular r c M -> 0 < r -> 0 < c ->
  (exists Mt, transpose (Some M) = Some Mt /\ rectangular c r Mt /\
              (forall i j, i < r -> j < c -> entry Mt j i = entry M i j) /\
              transpose (Some Mt) = Some M) /\
  transpose (T := T) None = None /\ transpose (T := T) (Some []) = None /\
  (forall rest : list (list T), transpose (Some ([] :: rest)) = Some []).
Proof.
  intros Hrect Hr Hc. split; [|repeat split].
  destruct (transpose_rectangular r c M Hrect Hr Hc) as (Ht & Hrt & Hent).
  eexists. split; [exact Ht|]. split; [exact Hrt|]. split; [exact Hent|].
  apply (transpose_involutive r c M Hrect Hr Hc).
Qed.

Lemma transpose_exchanges_rows_and_columns_witness :
  transpose (Some [[1; 2; 3]; [4; 5; 6]]%float) = Some [[1; 4]; [2; 5]; [3; 6]]%float /\
  transpose (Some [[1; 4]; [2; 5]; [3; 6]]%float) = Some [[1; 2; 3]; [4; 5; 6]]%float.
Proof.
  destruct (transpose_exchanges_rows_and_columns float _ 2 3 [[1; 2; 3]; [4; 5; 6]]%float)
    as ((Mt & Ht & _ & _ & Hback) & _); [split; [reflexivity | repeat constructor] | lia | lia |].
  assert (Hc : transpose (Some [[1; 2; 3]; [4; 5; 6]]%float)
               = Some [[1; 4]; [2; 5]; [3; 6]]%float) by reflexivity.
  split; [exact Hc|]. rewrite Hc in Ht. injection Ht as <-. exact Hback.
Defined.

(** ** Sample data in exact arithmetic *)

(** A [Math] over the exact rationals, by truncated series.  It stands in
    for the implementation-approximated functions when a sample input is
    evaluated in exact arithmetic; no theorem depends on this choice.
    The exact model has no infinities: where [Math] would return one, or
    where a series has no rational value, the result is NaN. *)
Section RationalMath.
Local Open Scope Qc_scope.

Definition xnum_map (f : Qc -> Qc) (x : xnum) : xnum :=
  match x with XFin q => XFin (f q) | XNaN => XNaN end.

Definition Qc_of_nat (n : nat) : Qc := Q2Qc (inject_Z (Z.of_nat n)).

Definition truncated_exp (x : Qc) : Qc :=
  1 + x + x * x / Qc_of_nat 2 + x * x * x / Qc_of_nat 6 + x * x * x * x / Qc_of_nat 24.

Definition truncated_tan (x : Qc) : Qc :=
  x + x * x * x / Qc_of_nat 3 + Qc_of_nat 2 * x * x * x * x * x / Qc_of_nat 15.

Definition truncated_atan (x : Qc) : Qc :=
  x - x * x * x / Qc_of_nat 3 + x * x * x * x * x / Qc_of_nat 5.

Definition truncated_log (x : xnum) : xnum :=
  match x with
  | XFin q =>
    if Qc_ltb 0 q then
      let z := (q - 1) / (q + 1) in
      XFin (Qc_of_nat 2 * (z + z * z * z / Qc_of_nat 3 + z * z * z * z * z / Qc_of_nat 5))
    else XNaN
  | XNaN => XNaN
  end.

Fixpoint newton_sqrt (steps : nat) (q guess : Qc) : Qc :=
  match steps with
  | O => guess
  | S steps => newton_sqrt steps q ((guess + q / guess) / Qc_of_nat 2)
  end.

Definition rational_sqrt (x : xnum) : xnum :=
  match x with
  | XFin q =>
    if Qc_ltb q 0 then XNaN
    else if Qc_eq_bool q 0 then XFin 0
    else XFin (newton_sqrt 4 q ((1 + q) / Qc_of_nat 2))
  | XNaN => XNaN
  end.

Definition rational_pow (x y : xnum) : xnum :=
  match x, y with
  | XFin a, XFin b =>
    if Qc_eq_bool b (Qc_of_nat 2) then XFin (a * a)
    else if Qc_eq_bool b 1 then XFin a
    else if Qc_eq_bool b 0 then XFin 1
    else XNaN
  | _, _ => XNaN
  end.

Definition rational_extreme (better : Qc -> Qc -> bool) (values : list xnum) : xnum :=
  match values with
  | [] => XNaN
  | v :: rest =>
    foldl (fun acc w =>
             match acc, w with
             | XFin a, XFin b => if better b a then XFin b else XFin a
             | _, _ => XNaN
             end) v rest
  end.

End RationalMath.

#[export] Instance rational_math : JSMath xnum := {|
  Math_PI := XFin (Q2Qc (355 # 113));
  Math_log := truncated_log;
  Math_tan := xnum_map truncated_tan;
  Math_atan := xnum_map truncated_atan;
  Math_exp := xnum_map truncated_exp;
  Math_sqrt := rational_sqrt;
  Math_pow := rational_pow;
  Math_max := rational_extreme (fun b a => Qc_ltb a b);
  Math_min := rational_extreme (fun b a => Qc_ltb b a)
|}.

(** Sample control points in exact arithmetic. *)
Definition exact_control_point (id : string) (x y la lo : Q) : ControlPoint xnum :=
  {| pointJsonId := id;
     pointJson := {| pj_Id := Some id; pj_id := None; pj_name := None;
                     pj_imageX := Some (num_of_Q x); pj_imageY := Some (num_of_Q y) |};
     gpsPoint := {| gps_pointId := Some id; gps_lat := num_of_Q la; gps_lng := num_of_Q lo |} |}.

Definition diagonal_points : list (ControlPoint xnum) :=
  [exact_control_point "A-01" 0 0 (1 # 10) 135;
   exact_control_point "A-02" 100 100 (1 # 10) 136;
   exact_control_point "A-03" 200 200 0 135].

(** ** The image as it is loaded (image-overlay.js) *)

(** ImageOverlay.getInitialBounds: the box of 0.001 degrees around the
    centre of the map; its two corners are given in order. *)
Definition getInitialBounds {T : Type} {N : JSNumber T} (center : LatLng T) : LatLngBounds T :=
  let offset := num_of_Q (1 # 1000) in
  {| southWest := {| lat := num_sub (lat center) offset; lng := num_sub (lng center) offset |};
     northEast := {| lat := num_add (lat center) offset; lng := num_add (lng center) offset |} |}.

(** An image of [w] by [h] pixels as ImageOverlay.loadImage leaves it:
    displayed on the initial bounds around the map centre [(la, lo)]. *)
Definition initial_overlay (la lo w h : Qc) : ImageOverlay xnum :=
  {| io_layer := Some (Some (getInitialBounds {| lat := XFin la; lng := XFin lo |}));
     io_naturalWidth := XFin w; io_width := XFin w;
     io_naturalHeight := XFin h; io_height := XFin h;
     io_initialCenter := (XFin la, XFin lo) |}.

(** ** The estimation request as a whole (georeferencing.js) *)

Section Request.
Context {T : Type} {N : JSNumber T} {M : JSMath T}.
Variable placeOverlay : Transformation T -> ImageOverlay T -> ImageOverlay T * bool.

(** What a request leaves alone apart from the transformation, the
    overlay and the markers. *)
Definition same_inputs (st st' : Georeferencing T) : Prop :=
  gpsData st' = gpsData st /\ pointJsonData st' = pointJsonData st /\
  imageUpdateCallbackRegistered st' = imageUpdateCallbackRegistered st.

Lemma same_inputs_trans (st1 st2 st3 : Georeferencing T) :
  same_inputs st1 st2 -> same_inputs st2 st3 -> same_inputs st1 st3.
Proof.
  intros (H1 & H2 & H3) (H4 & H5 & H6). unfold same_inputs.
  rewrite H4, H5, H6. auto.
Qed.

Lemma syncPointPositions_inputs (st : Georeferencing T) :
  same_inputs st (syncPointPositions st).
Proof. rewrite syncPointPositions_markers. repeat split. Qed.

Lemma syncRouteSpotPositions_inputs (st : Georeferencing T) :
  same_inputs st (syncRouteSpotPositions st).
Proof. rewrite syncRouteSpotPositions_closed. repeat split. Qed.

Lemma updatePointJsonMarkersAfterTransformation_inputs (st : Georeferencing T) :
  same_inputs st (updatePointJsonMarkersAfterTransformation st).
Proof.
  unfold updatePointJsonMarkersAfterTransformation.
  destruct (currentTransformation st); [|repeat split].
  destruct (length (imageCoordinateMarkers st) =? 0); [repeat split|].
  rewrite syncPointPositions_markers. repeat split.
Qed.

Lemma applyPreciseTransformation_inputs (st : Georeferencing T) (t : Transformation T) :
  same_inputs st (applyPreciseTransformation placeOverlay st t).
Proof.
  unfold applyPreciseTransformation.
  destruct (placeOverlay t (imageOverlay (set_currentTransformation st (Some t))))
    as [overlay notified].
  set (st1 := set_imageOverlay (set_currentTransformation st (Some t)) overlay).
  apply (same_inputs_trans st st1); [repeat split|].
  refine (same_inputs_trans _ _ _ _ (updatePointJsonMarkersAfterTransformation_inputs _)).
  destruct (notified && imageUpdateCallbackRegistered st1); [|repeat split].
  unfold synchronize.
  exact (same_inputs_trans _ _ _ (syncPointPositions_inputs _)
                           (syncRouteSpotPositions_inputs _)).
Qed.

Lemma performAutomaticGeoreferencing_installs (st : Georeferencing T)
    (matched : list (ControlPoint T)) :
  same_inputs st (performAutomaticGeoreferencing placeOverlay st matched) /\
  currentTransformation (performAutomaticGeoreferencing placeOverlay st matched)
  = match calculatePreciseTransformation matched with
    | Some t => Some t
    | None => currentTransformation st
    end /\
  (calculatePreciseTransformation matched = None ->
   performAutomaticGeoreferencing placeOverlay st matched = st).
Proof.
  unfold performAutomaticGeoreferencing.
  destruct (calculatePreciseTransformation matched) as [t|] eqn:Et;
    [|split; [repeat split | split; [reflexivity | reflexivity]]].
  apply calculatePreciseTransformation_estimated in Et as [[Hty _] _].
  unfold applyTransformationToImage. rewrite Hty. simpl.
  split; [|split; [|discriminate]].
  - exact (same_inputs_trans _ _ _ (applyPreciseTransformation_inputs st t)
                             (syncRouteSpotPositions_inputs _)).
  - rewrite syncRouteSpotPositions_closed. cbn [currentTransformation].
    apply (applyPreciseTransformation_kept placeOverlay st t).
Qed.

End Request.

(** X12.  With at least three matched pairs a request always completes,
    in every number model: it returns the summary with the counts of the
    matching and [georeferenceCompleted] set, the update callback is
    registered afterwards, and the loaded data is untouched.  The current
    transformation becomes the one the estimator computes from exactly
    the matched pairs; when the estimator fails (it returns null), the
    request still reports completion and the state is the previous one
    with only the callback flag set. *)
Theorem request_completes (T : Type) (N : JSNumber T) (M : JSMath T)
    (placeOverlay : Transformation T -> ImageOverlay T -> ImageOverlay T * bool)
    (st : Georeferencing T) :
  let matching := matchPointJsonWithGPS (pointJsonData st) (gpsData st) in
  let matched := matchedPairs matching in
  3 <= length matched ->
  let result := performGeoreferencingCalculations placeOverlay st in
  fst result = inr {| matchedCount := length matched;
                      unmatchedPoints := unmatchedPointJsonIds matching;
                      totalPoints := length (gpsData st);
                      summary_totalPointJsons := totalPointJsons matching;
                      summary_matchedPairs := matched;
                      georeferenceCompleted := true |} /\
  imageUpdateCallbackRegistered (snd result) = true /\
  gpsData (snd result) = gpsData st /\
  pointJsonData (snd result) = pointJsonData st /\
  currentTransformation (snd result)
  = match calculateAffineTransformation matched with
    | Some trans =>
      Some {| t_type := "precise"; t_transformation := Some trans;
              t_accuracy := calculateTransformationAccuracy matched trans;
              t_controlPoints := matched; t_usedPoints := length matched |}
    | None => currentTransformation st
    end /\
  (calculateAffineTransformation matched = None ->
   snd result = if imageUpdateCallbackRegistered st then st else set_callbackRegistered st).
Proof.
  intros matching matched Hlen result.
  assert (Hpre : calculatePreciseTransformation matched
                 = match calculateAffineTransformation matched with
                   | Some trans =>
                     Some {| t_type := "precise"; t_transformation := Some trans;
                             t_accuracy := calculateTransformationAccuracy matched trans;
                             t_controlPoints := matched; t_usedPoints := length matched |}
                   | None => None
                   end).
  { unfold calculatePreciseTransformation.
    destruct (length matched <? 3) eqn:E; [apply Nat.ltb_lt in E; lia|].
    destruct (calculateAffineTransformation matched); reflexivity. }
  destruct (performAutomaticGeoreferencing_installs placeOverlay st matched)
    as ((Hg & Hp & Hr) & Hcur & Hnone).
  unfold result, performGeoreferencingCalculations. fold matching. fold matched.
  destruct (3 <=? length matched) eqn:E; [|apply Nat.leb_gt in E; lia].
  cbn [fst snd]. split; [reflexivity|].
  set (st1 := performAutomaticGeoreferencing placeOverlay st matched) in *.
  split; [destruct (imageUpdateCallbackRegistered st1) eqn:Er; [exact Er | reflexivity]|].
  split; [destruct (imageUpdateCallbackRegistered st1); exact Hg|].
  split; [destruct (imageUpdateCallbackRegistered st1); exact Hp|].
  split.
  - transitivity (currentTransformation st1);
      [destruct (imageUpdateCallbackRegistered st1); reflexivity|].
    rewrite Hcur, Hpre. destruct (calculateAffineTransformation matched); reflexivity.
  - intros Hfail. rewrite Hfail in Hpre. rewrite (Hnone Hpre) in *. reflexivity.
Qed.

(** Three entities on the diagonal of the image, each with its GPS point. *)
Definition collinear_state : Georeferencing xnum :=
  {| gpsData := map gpsPoint diagonal_points;
     pointJsonData := Some (PJArray (map pointJson diagonal_points));
     currentTransformation := None;
     imageCoordinateMarkers := [];
     imageUpdateCallbackRegistered := false;
     routeSpotHandler := None;
     coordinateDisplay := true;
     imageOverlay := initial_overlay (Q2Qc 35) (Q2Qc 135) (Q2Qc 800) (Q2Qc 600) |}.

Lemma request_completes_witness :
  snd (performGeoreferencingCalculations (H := rational_math) (fun _ o => (o, true))
                                         collinear_state)
  = set_callbackRegistered collinear_state.
Proof.
  pose proof (request_completes xnum _ rational_math (fun _ o => (o, true)) collinear_state)
    as Hrequest.
  cbv zeta in Hrequest.
  assert (Hlen : 3 <= length (matchedPairs (matchPointJsonWithGPS
                                              (pointJsonData collinear_state)
                                              (gpsData collinear_state))))
    by (vm_compute; lia).
  destruct (Hrequest Hlen) as (_ & _ & _ & _ & _ & Hfail).
  apply Hfail. vm_compute. reflexivity.
Defined.

(** ** Duplicate detection as a relation (route-spot-handler.js) *)

(** *** Distances in binary64 *)

Lemma SFabs_binary_round_aux (prec emax : Z) (s : bool) (m e : Z) (l : location) :
  SFabs (binary_round_aux prec emax s m e l) = SFabs (binary_round_aux prec emax false m e l).
Proof.
  unfold binary_round_aux.
  destruct (shr_fexp prec emax m e l) as [mrs' e'].
  destruct (shr_fexp prec emax _ e' loc_Exact) as [mrs'' e''].
  destruct (shr_m mrs''); [reflexivity| |reflexivity].
  destruct (Z.leb _ _); reflexivity.
Qed.

Lemma SFabs_binary_normalize (prec emax : Z) (m e : Z) (szero : bool) :
  SFabs (binary_normalize prec emax (- m) e szero) = SFabs (binary_normalize prec emax m e szero).
Proof.
  unfold binary_normalize, binary_round.
  destruct m as [|p|p]; [reflexivity| |].
  - change (- Z.pos p)%Z with (Z.neg p). cbv iota beta.
    destruct (shl_align p e _) as [mz ez]. apply SFabs_binary_round_aux.
  - change (- Z.neg p)%Z with (Z.pos p). cbv iota beta.
    destruct (shl_align p e _) as [mz ez]. symmetry. apply SFabs_binary_round_aux.
Qed.

Lemma SFabs_sub_sym (prec emax : Z) (x y : spec_float) :
  SFabs (SFsub prec emax x y) = SFabs (SFsub prec emax y x).
Proof.
  destruct x as [[]|[]| |sx mx ex], y as [[]|[]| |sy my ey]; try reflexivity.
  cbn [SFsub]. cbv zeta. rewrite (Z.min_comm ey ex).
  rewrite <- SFabs_binary_normalize. f_equal. f_equal. lia.
Qed.

Lemma float_distance_sym (a b : float) :
  PrimFloat.abs (a - b) = PrimFloat.abs (b - a).
Proof.
  apply Prim2SF_inj. rewrite !FloatAxioms.abs_spec, !FloatAxioms.sub_spec. apply SFabs_sub_sym.
Qed.


(** The same route walked in the other direction. *)
Definition reverse_route {T : Type} (route : Route T) : Route T :=
  {| startPoint := endPoint route; endPoint := startPoint route |}.

Lemma id_eqb_symmetric (a b : option string) : id_eqb a b = id_eqb b a.
Proof. unfold id_eqb. apply bool_decide_ext. split; congruence. Qed.

Section SymmetricDistance.
Context {T : Type} {N : JSNumber T}.

(** The distance between two numbers does not depend on their order. *)
Hypothesis distance_symmetric :
  forall a b : T, num_abs (num_sub a b) = num_abs (num_sub b a).

Lemma within_symmetric (tol a b : T) : within tol a b = within tol b a.
Proof. unfold within. rewrite distance_symmetric. reflexivity. Qed.

Lemma isSameSpot_symmetric_distance (spot1 spot2 : Spot T) :
  isSameSpot spot1 spot2 = isSameSpot spot2 spot1.
Proof.
  unfold isSameSpot.
  destruct (spot_imageX spot1), (spot_imageY spot1), (spot_imageX spot2),
    (spot_imageY spot2), (spot_coordinates spot1), (spot_coordinates spot2);
    try reflexivity;
    rewrite (within_symmetric _ _ _); f_equal; apply within_symmetric.
Qed.

Lemma isSameRoute_symmetric_distance (route1 route2 : Route T) :
  isSameRoute route1 route2 = isSameRoute route2 route1 /\
  isSameRoute (reverse_route route1) route2 = isSameRoute route1 route2 /\
  isSameRoute route1 (reverse_route route2) = isSameRoute route1 route2.
Proof.
  unfold isSameRoute, reverse_route. cbn [startPoint endPoint].
  destruct (startPoint route1) as [s1|], (endPoint route1) as [e1|],
    (startPoint route2) as [s2|], (endPoint route2) as [e2|]; try (repeat split; reflexivity).
  cbv zeta.
  set (tol := num_of_Q (1 # 10000)).
  rewrite !(id_eqb_symmetric (str_or (rp_id s2) (rp_name s2))),
          !(id_eqb_symmetric (str_or (rp_id e2) (rp_name e2))).
  rewrite !(within_symmetric tol (opt_num (rp_lat s2))),
          !(within_symmetric tol (opt_num (rp_lng s2))),
          !(within_symmetric tol (opt_num (rp_lat e2))),
          !(within_symmetric tol (opt_num (rp_lng e2))).
  repeat split.
  all: repeat match goal with
              | |- context [str_truthy ?x] =>
                  let b := fresh "b" in
                  generalize (str_truthy x); intros b
              | |- context [opt_truthy ?x] =>
                  let b := fresh "b" in
                  generalize (opt_truthy x); intros b
              | |- context [id_eqb ?x ?y] =>
                  let b := fresh "b" in
                  generalize (id_eqb x y); intros b
              | |- context [within ?t ?x ?y] =>
                  let b := fresh "b" in
                  generalize (within t x y); intros b
              end.
  all: btauto.
Qed.

End SymmetricDistance.

(** X13.  In double precision the duplicate test for spots does not
    depend on the order of its arguments: [Math.abs(a - b)] and
    [Math.abs(b - a)] are the same number, whatever [a] and [b] are. *)
Theorem isSameSpot_symmetric (spot1 spot2 : Spot float) :
  isSameSpot spot1 spot2 = isSameSpot spot2 spot1.
Proof. apply isSameSpot_symmetric_distance. exact float_distance_sym. Qed.

(** X14.  In double precision the duplicate test for routes depends
    neither on the order of its arguments nor on the direction of either
    route: exchanging the two routes, or the start and end point of one
    of them, gives the same answer. *)
Theorem isSameRoute_symmetric (route1 route2 : Route float) :
  isSameRoute route1 route2 = isSameRoute route2 route1 /\
  isSameRoute (reverse_route route1) route2 = isSameRoute route1 route2 /\
  isSameRoute route1 (reverse_route route2) = isSameRoute route1 route2.
Proof. apply isSameRoute_symmetric_distance. exact float_distance_sym. Qed.

Section NamedRoutes.
Context {T : Type} {N : JSNumber T}.

(** [point.id || point.name] is a usable identifier. *)
Definition has_identifier (p : RoutePoint T) : bool :=
  str_truthy (str_or (rp_id p) (rp_name p)).

(** A route both of whose end points carry an identifier, as the routes
    built from a [routeInfo] do. *)
Definition named (route : Route T) : Prop :=
  exists s e, startPoint route = Some s /\ endPoint route = Some e /\
              has_identifier s = true /\ has_identifier e = true.

Lemma isSameRoute_named (route1 route2 : Route T) s1 e1 s2 e2 :
  startPoint route1 = Some s1 -> endPoint route1 = Some e1 ->
  startPoint route2 = Some s2 -> endPoint route2 = Some e2 ->
  has_identifier s1 = true -> has_identifier e1 = true ->
  has_identifier s2 = true -> has_identifier e2 = true ->
  isSameRoute route1 route2 = true <->
  (str_or (rp_id s1) (rp_name s1) = str_or (rp_id s2) (rp_name s2) /\
   str_or (rp_id e1) (rp_name e1) = str_or (rp_id e2) (rp_name e2)) \/
  (str_or (rp_id s1) (rp_name s1) = str_or (rp_id e2) (rp_name e2) /\
   str_or (rp_id e1) (rp_name e1) = str_or (rp_id s2) (rp_name s2)).
Proof.
  unfold has_identifier. intros Hs1 He1 Hs2 He2 H1 H2 H3 H4.
  unfold isSameRoute. rewrite Hs1, He1, Hs2, He2. cbv zeta.
  rewrite H1, H2, H3, H4. cbn [andb].
  unfold id_eqb. rewrite orb_true_iff, !andb_true_iff, !bool_decide_eq_true.
  reflexivity.
Qed.

Lemma isSameRoute_named_refl (route : Route T) :
  named route -> isSameRoute route route = true.
Proof.
  intros (s & e & Hs & He & H1 & H2).
  apply (isSameRoute_named route route s e s e); auto.
Qed.

Lemma isSameRoute_named_sym (route1 route2 : Route T) :
  named route1 -> named route2 ->
  isSameRoute route1 route2 = true -> isSameRoute route2 route1 = true.
Proof.
  intros (s1 & e1 & Hs1 & He1 & H1 & H2) (s2 & e2 & Hs2 & He2 & H3 & H4) H.
  apply (isSameRoute_named route1 route2 s1 e1 s2 e2) in H; try assumption.
  apply (isSameRoute_named route2 route1 s2 e2 s1 e1); try assumption.
  destruct H as [[-> ->]|[-> ->]]; auto.
Qed.

Lemma isSameRoute_named_trans (route1 route2 route3 : Route T) :
  named route1 -> named route2 -> named route3 ->
  isSameRoute route1 route2 = true -> isSameRoute route2 route3 = true ->
  isSameRoute route1 route3 = true.
Proof.
  intros (s1 & e1 & Hs1 & He1 & H1 & H2) (s2 & e2 & Hs2 & He2 & H3 & H4)
         (s3 & e3 & Hs3 & He3 & H5 & H6) H12 H23.
  apply (isSameRoute_named route1 route2 s1 e1 s2 e2) in H12; try assumption.
  apply (isSameRoute_named route2 route3 s2 e2 s3 e3) in H23; try assumption.
  apply (isSameRoute_named route1 route3 s1 e1 s3 e3); try assumption.
  destruct H12 as [[-> ->]|[-> ->]], H23 as [[-> ->]|[-> ->]]; auto.
Qed.

End NamedRoutes.

(** X15.  On routes whose end points carry identifiers the duplicate test
    is an equivalence relation, in every number model: such a route is a
    duplicate of itself, and duplicates of duplicates are duplicates, in
    whatever order the routes are compared. *)
Theorem isSameRoute_named_equivalence (T : Type) (N : JSNumber T)
    (route1 route2 route3 : Route T) :
  named route1 -> named route2 -> named route3 ->
  isSameRoute route1 route1 = true /\
  (isSameRoute route1 route2 = true -> isSameRoute route2 route1 = true) /\
  (isSameRoute route1 route2 = true -> isSameRoute route2 route3 = true ->
   isSameRoute route1 route3 = true).
Proof.
  intros H1 H2 H3. split; [apply isSameRoute_named_refl, H1|]. split.
  - apply isSameRoute_named_sym; assumption.
  - apply isSameRoute_named_trans; assumption.
Qed.

Lemma named_route_named (T : Type) (s e : string) :
  s <> "" -> e <> "" -> named (named_route (T := T) s e).
Proof.
  intros Hs He. exists (named_point s), (named_point e).
  split; [reflexivity|]. split; [reflexivity|].
  unfold has_identifier, str_or, named_point. cbn [rp_id rp_name str_truthy].
  apply String.eqb_neq in Hs, He. rewrite Hs, He. cbn. rewrite Hs, He. auto.
Qed.

Lemma isSameRoute_named_equivalence_witness :
  isSameRoute (T := float) (named_route "A-01" "A-05") (named_route "A-01" "A-05") = true /\
  (isSameRoute (T := float) (named_route "A-01" "A-05") (named_route "A-05" "A-01") = true ->
   isSameRoute (T := float) (named_route "A-05" "A-01") (named_route "A-01" "A-05") = true ->
   isSameRoute (T := float) (named_route "A-01" "A-05") (named_route "A-01" "A-05") = true).
Proof.
  destruct (isSameRoute_named_equivalence float _
              (named_route "A-01" "A-05") (named_route "A-05" "A-01")
              (named_route "A-01" "A-05")) as (Hrefl & _ & Htrans).
  - apply named_route_named; discriminate.
  - apply named_route_named; discriminate.
  - apply named_route_named; discriminate.
  - split; [exact Hrefl | exact Htrans].
Defined.

(** ** Merging loaded routes and spots (route-spot-handler.js) *)

Section Merge.
Context {T : Type} {N : JSNumber T}.

(** An element of [routeData] or [spotData], read through the
    properties the two duplicate tests look at; a property that is
    absent is [None]. *)
Record Entity : Type := mkEntity {
  as_route : Route T;
  as_spot : Spot T
}.

(** [array.findIndex(p)], with [None] for -1. *)
Fixpoint findIndex {A : Type} (p : A -> bool) (l : list A) : option nat :=
  match l with
  | [] => None
  | x :: rest => if p x then Some 0 else S <$> findIndex p rest
  end.

(** A property of [{...existing, ...newItem}]: the new item's when it
    has one. *)
Definition spread {A : Type} (existing newItem : option A) : option A :=
  match newItem with Some v => Some v | None => existing end.

(** [{...existingSpot, ...newItem, coordinates: existingSpot.coordinates}] *)
Definition updatedSpot (existingSpot newItem : Entity) : Entity :=
  {| as_route :=
       {| startPoint := spread (startPoint (as_route existingSpot))
                               (startPoint (as_route newItem));
          endPoint := spread (endPoint (as_route existingSpot))
                             (endPoint (as_route newItem)) |};
     as_spot :=
       {| spot_imageX := spread (spot_imageX (as_spot existingSpot))
                                (spot_imageX (as_spot newItem));
          spot_imageY := spread (spot_imageY (as_spot existingSpot))
                                (spot_imageY (as_spot newItem));
          spot_coordinates := spot_coordinates (as_spot existingSpot) |} |}.

(** The callback of [newData.forEach]. *)
Definition merge_item (type : string) (merged : list Entity) (newItem : Entity)
  : list Entity :=
  let duplicateIndex :=
    if String.eqb type "route" then
      findIndex (fun existing => isSameRoute (as_route existing) (as_route newItem)) merged
    else if String.eqb type "spot" then
      findIndex (fun existing => isSameSpot (as_spot existing) (as_spot newItem)) merged
    else None in
  match duplicateIndex with
  | None => merged ++ [newItem]
  | Some duplicateIndex =>
    if String.eqb type "spot" then
      match merged !! duplicateIndex with
      | Some existingSpot => <[duplicateIndex := updatedSpot existingSpot newItem]> merged
      | None => merged
      end
    else <[duplicateIndex := newItem]> merged
  end.

Definition mergeAndDeduplicate (existingData newData : list Entity) (type : string)
  : list Entity :=
  let merged := existingData in
  foldl (merge_item type) merged newData.

(** *** Searching *)

Lemma findIndex_Some {A : Type} (p : A -> bool) (l : list A) (i : nat) :
  findIndex p l = Some i -> exists x, l !! i = Some x /\ p x = true.
Proof.
  revert i. induction l as [|x rest IH]; intros i; [discriminate|]. simpl.
  destruct (p x) eqn:Ex.
  - intros [= <-]. exists x. auto.
  - destruct (findIndex p rest) as [j|]; [|discriminate].
    intros [= <-]. apply (IH j). reflexivity.
Qed.

Lemma findIndex_None {A : Type} (p : A -> bool) (l : list A) :
  findIndex p l = None -> forall i x, l !! i = Some x -> p x = false.
Proof.
  induction l as [|x rest IH]; intros Hn i y Hy; [discriminate|]. simpl in Hn.
  destruct (p x) eqn:Ex; [discriminate|].
  destruct (findIndex p rest) as [j|] eqn:Ej; [discriminate|].
  destruct i as [|i]; [injection Hy as <-; exact Ex|].
  exact (IH eq_refl i y Hy).
Qed.

Lemma findIndex_found {A : Type} (p : A -> bool) (l : list A) (i : nat) (x : A) :
  l !! i = Some x -> p x = true -> exists j, findIndex p l = Some j.
Proof.
  intros Hx Hp. destruct (findIndex p l) as [j|] eqn:E; [eauto|].
  rewrite (findIndex_None p l E i x Hx) in Hp. discriminate.
Qed.

(** *** Sizes *)

Lemma merge_item_length (type : string) (merged : list Entity) (newItem : Entity) :
  length merged <= length (merge_item type merged newItem) <= S (length merged).
Proof.
  unfold merge_item.
  destruct (if String.eqb type "route" then _ else _) as [i|].
  - destruct (String.eqb type "spot"); [destruct (merged !! i)|];
      rewrite ?length_insert; lia.
  - rewrite length_app. simpl. lia.
Qed.

Lemma mergeAndDeduplicate_length (newData existingData : list Entity) (type : string) :
  length existingData <= length (mergeAndDeduplicate existingData newData type)
  <= length existingData + length newData.
Proof.
  unfold mergeAndDeduplicate. revert existingData.
  induction newData as [|n rest IH]; intros existingData; simpl; [lia|].
  pose proof (merge_item_length type existingData n).
  pose proof (IH (merge_item type existingData n)). lia.
Qed.

Lemma mergeAndDeduplicate_other (newData existingData : list Entity) (type : string) :
  type <> "route" -> type <> "spot" ->
  mergeAndDeduplicate existingData newData type = existingData ++ newData.
Proof.
  intros Hr Hs. apply String.eqb_neq in Hr, Hs.
  unfold mergeAndDeduplicate. revert existingData.
  induction newData as [|n rest IH]; intros existingData; simpl;
    [rewrite app_nil_r; reflexivity|].
  unfold merge_item at 2. rewrite Hr, Hs. rewrite IH, <- app_assoc. reflexivity.
Qed.

(** *** Spots keep their coordinates *)

Definition coordinates_of (l : list Entity) : list (option (LatLng T)) :=
  map (fun e => spot_coordinates (as_spot e)) l.

Lemma merge_item_coordinates (merged : list Entity) (newItem : Entity) (k : nat) :
  k <= length merged ->
  take k (coordinates_of (merge_item "spot" merged newItem)) = take k (coordinates_of merged).
Proof.
  intros Hk. unfold merge_item. cbn [String.eqb Ascii.eqb Bool.eqb].
  destruct (findIndex _ merged) as [i|] eqn:Ei.
  - destruct (merged !! i) as [existingSpot|] eqn:Ee; [|reflexivity].
    f_equal. unfold coordinates_of. rewrite list_fmap_insert. cbn [updatedSpot as_spot spot_coordinates].
    apply list_insert_id. rewrite list_lookup_fmap, Ee. reflexivity.
  - unfold coordinates_of. rewrite map_app, take_app_le; [reflexivity|].
    rewrite length_map. exact Hk.
Qed.

Lemma mergeAndDeduplicate_coordinates (newData existingData : list Entity) (k : nat) :
  k <= length existingData ->
  take k (coordinates_of (mergeAndDeduplicate existingData newData "spot"))
  = take k (coordinates_of existingData).
Proof.
  unfold mergeAndDeduplicate. revert existingData.
  induction newData as [|n rest IH]; intros existingData Hk; simpl; [reflexivity|].
  rewrite IH; [apply merge_item_coordinates, Hk|].
  pose proof (merge_item_length "spot" existingData n). lia.
Qed.

End Merge.

Arguments Entity : clear implicits.

(** X16.  Merging never loses an entry and adds at most the new ones: the
    merged list is at least as long as the existing data and at most as
    long as both lists together, for every type and number model.  For a
    type other than route and spot no duplicate is looked for, and the new
    data is appended as it is. *)
Theorem mergeAndDeduplicate_size (T : Type) (N : JSNumber T)
    (existingData newData : list (Entity T)) (type : string) :
  length existingData <= length (mergeAndDeduplicate existingData newData type) /\
  length (mergeAndDeduplicate existingData newData type)
  <= length existingData + length newData /\
  (type <> "route" -> type <> "spot" ->
   mergeAndDeduplicate existingData newData type = existingData ++ newData).
Proof.
  pose proof (mergeAndDeduplicate_length newData existingData type) as [H1 H2].
  split; [exact H1|]. split; [exact H2|].
  apply mergeAndDeduplicate_other.
Qed.

(** X17.  Merging spots never moves a spot that is already loaded: the
    entries of the existing data stay at their places in the merged list
    and keep their coordinates, whatever the new data says. *)
Theorem mergeAndDeduplicate_keeps_coordinates (T : Type) (N : JSNumber T)
    (existingData newData : list (Entity T)) :
  take (length existingData)
       (coordinates_of (mergeAndDeduplicate existingData newData "spot"))
  = coordinates_of existingData.
Proof.
  rewrite mergeAndDeduplicate_coordinates by lia.
  apply firstn_all2. unfold coordinates_of. rewrite length_map. lia.
Qed.

(** *** Merging under a duplicate test that is an equivalence *)

Section Classes.
Context {A : Type} (same : A -> A -> bool) (good : A -> Prop).
Hypothesis same_refl : forall a, good a -> same a a = true.
Hypothesis same_sym : forall a b, good a -> good b -> same a b = true -> same b a = true.
Hypothesis same_trans : forall a b c, good a -> good b -> good c ->
  same a b = true -> same b c = true -> same a c = true.

(** Replace the first duplicate of the new item, or append the item. *)
Definition replace_or_append (merged : list A) (newItem : A) : list A :=
  match findIndex (fun existing => same existing newItem) merged with
  | None => merged ++ [newItem]
  | Some duplicateIndex => <[duplicateIndex := newItem]> merged
  end.

(** No two entries are duplicates of each other. *)
Definition duplicate_free (l : list A) : Prop :=
  forall i j a b, l !! i = Some a -> l !! j = Some b -> same a b = true -> i = j.

(** The item has a duplicate in the list. *)
Definition covered (l : list A) (n : A) : Prop :=
  exists i y, l !! i = Some y /\ same y n = true.

Lemma same_eq (a b c : A) :
  good a -> good b -> good c -> same a b = true -> same a c = same b c.
Proof.
  intros Ha Hb Hc Hab.
  destruct (same a c) eqn:Eac, (same b c) eqn:Ebc; try reflexivity.
  - rewrite (same_trans b a c Hb Ha Hc (same_sym a b Ha Hb Hab) Eac) in Ebc. discriminate.
  - rewrite (same_trans a b c Ha Hb Hc Hab Ebc) in Eac. discriminate.
Qed.

Lemma replace_or_append_cases (l : list A) (n : A) :
  (replace_or_append l n = l ++ [n] /\ forall i x, l !! i = Some x -> same x n = false) \/
  (exists i y, replace_or_append l n = <[i := n]> l /\ l !! i = Some y /\ same y n = true).
Proof.
  unfold replace_or_append.
  destruct (findIndex (fun existing => same existing n) l) as [i|] eqn:E.
  - right. destruct (findIndex_Some _ l i E) as (y & Hy & Hs). eauto.
  - left. split; [reflexivity|]. exact (findIndex_None _ l E).
Qed.

Lemma replace_or_append_good (l : list A) (n : A) :
  Forall good l -> good n -> Forall good (replace_or_append l n).
Proof.
  intros Hl Hn.
  destruct (replace_or_append_cases l n) as [[-> _]|(i & y & -> & _ & _)].
  - apply Forall_app. split; [exact Hl|]. apply Forall_cons. split; [exact Hn | apply Forall_nil; exact I].
  - apply Forall_insert; assumption.
Qed.

Lemma replace_or_append_duplicate_free (l : list A) (n : A) :
  Forall good l -> good n -> duplicate_free l -> duplicate_free (replace_or_append l n).
Proof.
  intros Hl Hn Hd.
  assert (Hg : forall i x, l !! i = Some x -> good x)
    by (intros i x Hx; exact (proj1 (Forall_lookup good l) Hl i x Hx)).
  destruct (replace_or_append_cases l n) as [[-> Hno]|(i0 & y & -> & Hy & Hyn)];
    intros i j a b Ha Hb Hab.
  - apply lookup_app_Some in Ha, Hb.
    destruct Ha as [Ha|[Hia Ha]], Hb as [Hb|[Hjb Hb]].
    + exact (Hd i j a b Ha Hb Hab).
    + apply list_lookup_singleton_Some in Hb as [_ <-].
      rewrite (Hno i a Ha) in Hab. discriminate.
    + apply list_lookup_singleton_Some in Ha as [_ <-].
      apply (same_sym n b Hn (Hg j b Hb)) in Hab.
      rewrite (Hno j b Hb) in Hab. discriminate.
    + apply list_lookup_singleton_Some in Ha as [Ha _], Hb as [Hb _]. lia.
  - apply list_lookup_insert_Some in Ha, Hb.
    destruct Ha as [(<- & <- & Hi)|(Hi & Ha)], Hb as [(<- & <- & Hj)|(Hj & Hb)].
    + reflexivity.
    + exfalso. apply Hj. apply (Hd i0 j y b Hy Hb).
      exact (same_trans y n b (Hg _ _ Hy) Hn (Hg _ _ Hb) Hyn Hab).
    + exfalso. apply Hi. apply (Hd i0 i y a Hy Ha).
      apply (same_trans y n a (Hg _ _ Hy) Hn (Hg _ _ Ha) Hyn).
      exact (same_sym a n (Hg _ _ Ha) Hn Hab).
    + exact (Hd i j a b Ha Hb Hab).
Qed.

(** Each entry of the result is the last of the new items it is a
    duplicate of, or an untouched entry of the existing data. *)
Definition settled (l result : list A) (newData : list A) : Prop :=
  forall i x, result !! i = Some x ->
    last (filter (fun n => same x n = true) newData) = Some x \/
    (filter (fun n => same x n = true) newData = [] /\ l !! i = Some x).

Lemma merged_entries (newData l : list A) :
  Forall good l -> Forall good newData -> duplicate_free l ->
  Forall good (foldl replace_or_append l newData) /\
  duplicate_free (foldl replace_or_append l newData) /\
  settled l (foldl replace_or_append l newData) newData.
Proof.
  intros Hl HN Hd. induction newData as [|n rest IH] using rev_ind.
  - simpl. split; [exact Hl|]. split; [exact Hd|]. intros i x Hx. right. auto.
  - apply Forall_app in HN as [Hrest Hn]. apply Forall_cons in Hn as [Hn _].
    destruct (IH Hrest) as (Hg & Hdf & Hset). rewrite foldl_app. simpl.
    set (R := foldl replace_or_append l rest) in *.
    split; [apply replace_or_append_good; assumption|].
    split; [apply replace_or_append_duplicate_free; assumption|].
    assert (Hgl : forall i x, R !! i = Some x -> good x)
      by (intros i x Hx; exact (proj1 (Forall_lookup good R) Hg i x Hx)).
    assert (Hnew : last (filter (fun m => same n m = true) (rest ++ [n])) = Some n).
    { rewrite filter_app, filter_cons_True by (apply same_refl, Hn).
      rewrite filter_nil. apply last_snoc. }
    assert (Hold : forall i x, R !! i = Some x -> same x n = false ->
              last (filter (fun m => same x m = true) (rest ++ [n])) = Some x \/
              (filter (fun m => same x m = true) (rest ++ [n]) = [] /\ l !! i = Some x)).
    { intros i x Hx Hxn. rewrite filter_app, filter_cons_False by congruence.
      rewrite filter_nil, app_nil_r. exact (Hset i x Hx). }
    destruct (replace_or_append_cases R n) as [[-> Hno]|(i0 & y & -> & Hy & Hyn)];
      intros i x Hx.
    + apply lookup_app_Some in Hx as [Hx|[Hi Hx]].
      * exact (Hold i x Hx (Hno i x Hx)).
      * apply list_lookup_singleton_Some in Hx as [_ <-]. left. exact Hnew.
    + apply list_lookup_insert_Some in Hx as [(<- & <- & Hi)|(Hi & Hx)].
      * left. exact Hnew.
      * apply (Hold i x Hx). destruct (same x n) eqn:Exn; [|reflexivity].
        exfalso. apply Hi. apply (Hdf i0 i y x Hy Hx).
        apply (same_trans y n x (Hgl _ _ Hy) Hn (Hgl _ _ Hx) Hyn).
        exact (same_sym x n (Hgl _ _ Hx) Hn Exn).
Qed.

Lemma replace_or_append_covers (l : list A) (n : A) :
  good n -> covered (replace_or_append l n) n.
Proof.
  intros Hn.
  destruct (replace_or_append_cases l n) as [[-> _]|(i & y & -> & Hy & _)].
  - exists (length l), n. split; [|apply same_refl, Hn].
    rewrite lookup_app_r by lia. rewrite Nat.sub_diag. reflexivity.
  - exists i, n. split; [|apply same_refl, Hn].
    apply list_lookup_insert_eq. exact (lookup_lt_Some _ _ _ Hy).
Qed.

Lemma replace_or_append_covered (l : list A) (n m : A) :
  Forall good l -> good n -> good m ->
  covered l m -> covered (replace_or_append l n) m.
Proof.
  intros Hl Hn Hm (i & y & Hy & Hym).
  assert (Hgy : good y) by exact (proj1 (Forall_lookup good l) Hl i y Hy).
  destruct (replace_or_append_cases l n) as [[-> _]|(i0 & z & -> & Hz & Hzn)].
  - exists i, y. split; [|exact Hym]. apply lookup_app_l_Some. exact Hy.
  - destruct (decide (i0 = i)) as [->|Hne].
    + exists i, n. split; [apply list_lookup_insert_eq; exact (lookup_lt_Some _ _ _ Hy)|].
      rewrite Hy in Hz. injection Hz as <-.
      exact (same_trans n y m Hn Hgy Hm (same_sym y n Hgy Hn Hzn) Hym).
    + exists i, y. split; [|exact Hym]. rewrite list_lookup_insert_ne by exact Hne. exact Hy.
Qed.

Lemma merged_covers (newData l : list A) :
  Forall good l -> Forall good newData ->
  Forall (covered (foldl replace_or_append l newData)) newData.
Proof.
  intros Hl HN. induction newData as [|n rest IH] using rev_ind; [apply Forall_nil; exact I|].
  apply Forall_app in HN as [Hrest Hn]. apply Forall_cons in Hn as [Hn _].
  rewrite foldl_app. simpl.
  assert (Hg : Forall good (foldl replace_or_append l rest)).
  { clear IH. induction rest as [|r rest IH] using rev_ind; [exact Hl|].
    apply Forall_app in Hrest as [Hrest Hr]. apply Forall_cons in Hr as [Hr _].
    rewrite foldl_app. simpl. apply replace_or_append_good; auto. }
  apply Forall_app. split.
  - specialize (IH Hrest). apply Forall_forall. intros m Hm.
    apply replace_or_append_covered; auto.
    + exact (proj1 (Forall_forall good rest) Hrest m Hm).
    + exact (proj1 (Forall_forall _ rest) IH m Hm).
  - apply Forall_cons. split; [|apply Forall_nil; exact I].
    apply replace_or_append_covers, Hn.
Qed.

(** Merging items that all have a duplicate in the list changes no
    length and no class. *)
Lemma reload_pointwise (newData l : list A) :
  Forall good l -> Forall good newData -> Forall (covered l) newData ->
  Forall2 (fun a b => same a b = true) l (foldl replace_or_append l newData).
Proof.
  revert l. induction newData as [|n rest IH]; intros l Hl HN Hc; simpl.
  - apply Forall2_same_length_lookup. split; [reflexivity|].
    intros i a b Ha Hb. rewrite Ha in Hb. injection Hb as <-.
    apply same_refl. exact (proj1 (Forall_lookup good l) Hl i a Ha).
  - apply Forall_cons in HN as [Hn Hrest]. apply Forall_cons in Hc as [Hcn Hcrest].
    assert (Hgl : forall i x, l !! i = Some x -> good x)
      by (intros i x Hx; exact (proj1 (Forall_lookup good l) Hl i x Hx)).
    destruct (replace_or_append_cases l n) as [[_ Hno]|(i0 & y & Hr & Hy & Hyn)].
    { destruct Hcn as (i & z & Hz & Hzn). rewrite (Hno i z Hz) in Hzn. discriminate. }
    assert (Hstep : Forall2 (fun a b => same a b = true) l (replace_or_append l n)).
    { rewrite Hr. apply Forall2_same_length_lookup. split; [rewrite length_insert; reflexivity|].
      intros i a b Ha Hb. apply list_lookup_insert_Some in Hb as [(<- & <- & Hi)|(Hi & Hb)].
      - rewrite Hy in Ha. injection Ha as <-. exact Hyn.
      - rewrite Ha in Hb. injection Hb as <-. apply same_refl. exact (Hgl _ _ Ha). }
    assert (Hg' : Forall good (replace_or_append l n))
      by (apply replace_or_append_good; assumption).
    assert (Hc' : Forall (covered (replace_or_append l n)) rest).
    { apply Forall_forall. intros m Hm.
      apply replace_or_append_covered; auto.
      - exact (proj1 (Forall_forall good rest) Hrest m Hm).
      - exact (proj1 (Forall_forall _ rest) Hcrest m Hm). }
    specialize (IH _ Hg' Hrest Hc').
    apply Forall2_same_length_lookup. split.
    + rewrite (Forall2_length _ _ _ Hstep). exact (Forall2_length _ _ _ IH).
    + intros i a c Ha Hc2.
      destruct (Forall2_lookup_l _ _ _ _ _ Hstep Ha) as (b & Hb & Hab).
      destruct (Forall2_lookup_l _ _ _ _ _ IH Hb) as (c' & Hc3 & Hbc).
      rewrite Hc2 in Hc3. injection Hc3 as <-.
      apply (same_trans a b c); auto.
      * exact (Hgl _ _ Ha).
      * exact (proj1 (Forall_lookup good _) Hg' i b Hb).
      * assert (Hgf : Forall good (foldl replace_or_append (replace_or_append l n) rest)).
        { clear - Hg' Hrest same_refl same_sym same_trans.
          revert Hg'. generalize (replace_or_append l n). induction rest as [|r rest IH];
            intros l0 Hl0; [exact Hl0|].
          apply Forall_cons in Hrest as [Hr Hrest]. simpl.
          apply IH; [exact Hrest|]. apply replace_or_append_good; assumption. }
        exact (proj1 (Forall_lookup good _) Hgf i c Hc2).
Qed.

Lemma filter_same_ext (a b : A) (newData : list A) :
  good a -> good b -> Forall good newData -> same a b = true ->
  filter (fun n => same a n = true) newData = filter (fun n => same b n = true) newData.
Proof.
  intros Ha Hb HN Hab. induction HN as [|n rest Hn Hrest IH]; [reflexivity|].
  rewrite !filter_cons. rewrite IH.
  rewrite (same_eq a b n Ha Hb Hn Hab).
  destruct (decide (same b n = true)); reflexivity.
Qed.

(** Merging the same items a second time changes nothing. *)
Lemma merge_again (newData l : list A) :
  Forall good l -> Forall good newData -> duplicate_free l ->
  foldl replace_or_append (foldl replace_or_append l newData) newData
  = foldl replace_or_append l newData.
Proof.
  intros Hl HN Hd.
  destruct (merged_entries newData l Hl HN Hd) as (Hg & Hdf & Hset).
  pose proof (merged_covers newData l Hl HN) as Hcov.
  set (R := foldl replace_or_append l newData) in *.
  destruct (merged_entries newData R Hg HN Hdf) as (Hg2 & _ & Hset2).
  pose proof (reload_pointwise newData R Hg HN Hcov) as Hpw.
  set (R2 := foldl replace_or_append R newData) in *.
  apply list_eq_same_length with (length R);
    [reflexivity | symmetry; exact (Forall2_length _ _ _ Hpw)|].
  intros i x y Hi Hx Hy.
  destruct (Forall2_lookup_r _ _ _ _ _ Hpw Hx) as (y' & Hy' & Hyx).
  rewrite Hy in Hy'. injection Hy' as <-.
  destruct (Hset2 i x Hx) as [Hlast|[_ Hsame]]; [|congruence].
  assert (Hgy : good y) by exact (proj1 (Forall_lookup good R) Hg i y Hy).
  assert (Hgx : good x) by exact (proj1 (Forall_lookup good R2) Hg2 i x Hx).
  rewrite <- (filter_same_ext y x newData Hgy Hgx HN Hyx) in Hlast.
  destruct (Hset i y Hy) as [Hlast'|[Hnil _]].
  - congruence.
  - rewrite Hnil in Hlast. discriminate.
Qed.

End Classes.

Section RouteMerge.
Context {T : Type} {N : JSNumber T}.

(** The test [mergeAndDeduplicate] applies for the type 'route'. *)
Definition same_route_entity (existing newItem : Entity T) : bool :=
  isSameRoute (as_route existing) (as_route newItem).

Definition named_entity (e : Entity T) : Prop := named (as_route e).

Lemma mergeAndDeduplicate_route (newData existingData : list (Entity T)) :
  mergeAndDeduplicate existingData newData "route"
  = foldl (replace_or_append same_route_entity) existingData newData.
Proof.
  unfold mergeAndDeduplicate. revert existingData.
  induction newData as [|n rest IH]; intros existingData; [reflexivity|].
  simpl. rewrite IH. reflexivity.
Qed.

End RouteMerge.

(** X18.  Routes with identifiers are merged without duplicates, in
    every number model: if all routes carry identifiers at both ends and
    the existing data holds no two duplicates, then neither does the
    merged list, every new route has a duplicate in it, and merging the
    same new data once more changes nothing. *)
Theorem mergeAndDeduplicate_named_routes (T : Type) (N : JSNumber T)
    (existingData newData : list (Entity T)) :
  Forall named_entity existingData -> Forall named_entity newData ->
  duplicate_free same_route_entity existingData ->
  let merged := mergeAndDeduplicate existingData newData "route" in
  duplicate_free same_route_entity merged /\
  Forall (covered same_route_entity merged) newData /\
  mergeAndDeduplicate merged newData "route" = merged.
Proof.
  intros He Hn Hd merged. unfold merged. rewrite !mergeAndDeduplicate_route.
  assert (Hrefl : forall a : Entity T, named_entity a -> same_route_entity a a = true)
    by (intros a; apply isSameRoute_named_refl).
  assert (Hsym : forall a b : Entity T, named_entity a -> named_entity b ->
            same_route_entity a b = true -> same_route_entity b a = true)
    by (intros a b; apply isSameRoute_named_sym).
  assert (Htrans : forall a b c : Entity T, named_entity a -> named_entity b ->
            named_entity c -> same_route_entity a b = true ->
            same_route_entity b c = true -> same_route_entity a c = true)
    by (intros a b c; apply isSameRoute_named_trans).
  split; [|split].
  - apply (merged_entries same_route_entity named_entity Hrefl Hsym Htrans); assumption.
  - apply (merged_covers same_route_entity named_entity Hrefl Hsym Htrans); assumption.
  - apply (merge_again same_route_entity named_entity Hrefl Hsym Htrans); assumption.
Qed.

(** A route entity known by the identifiers of its end points. *)
Definition route_entity {T : Type} (s e : string) : Entity T :=
  {| as_route := named_route s e;
     as_spot := {| spot_imageX := None; spot_imageY := None; spot_coordinates := None |} |}.

Lemma mergeAndDeduplicate_named_routes_witness :
  mergeAndDeduplicate (T := float)
    (mergeAndDeduplicate [route_entity "A-01" "A-05"]
                         [route_entity "A-05" "A-01"; route_entity "A-02" "A-03"] "route")
    [route_entity "A-05" "A-01"; route_entity "A-02" "A-03"] "route"
  = mergeAndDeduplicate [route_entity "A-01" "A-05"]
                        [route_entity "A-05" "A-01"; route_entity "A-02" "A-03"] "route".
Proof.
  destruct (mergeAndDeduplicate_named_routes float _
              [route_entity "A-01" "A-05"]
              [route_entity "A-05" "A-01"; route_entity "A-02" "A-03"])
    as (_ & _ & Hagain).
  - repeat (apply List.Forall_cons; [apply named_route_named; discriminate|]).
    apply List.Forall_nil.
  - repeat (apply List.Forall_cons; [apply named_route_named; discriminate|]).
    apply List.Forall_nil.
  - intros [|i] [|j] a b Ha Hb _; try reflexivity; discriminate.
  - exact Hagain.
Defined.

(** ** Loading route files (route-spot-handler.js) *)

Section RouteFiles.
Context {T : Type} {N : JSNumber T}.

(** [name.trim()], whose notion of white space is the engine's. *)
Variable trim : string -> string.

(** [data.routeInfo] *)
Record RouteInfo : Type := mkRouteInfo {
  ri_startPoint : option string;
  ri_endPoint : option string
}.

(** An element of [data.points]. *)
Record PointEntry : Type := mkPointEntry {
  pe_type : option string;
  pe_imageX : option T;
  pe_imageY : option T;
  pe_id : option string;
  pe_name : option string;
  pe_pointId : option string;
  pe_lat : option T;
  pe_latitude : option T;
  pe_lng : option T;
  pe_longitude : option T
}.

(** An element of [data.spots], as the detection reads it. *)
Record SpotEntry : Type := mkSpotEntry {
  se_name : option string;
  se_imageX : option T;
  se_imageY : option T
}.

(** A parsed JSON file, read through the properties the detection and
    the route processing look at.  [doc_points], [doc_spots] and
    [doc_coordinates] are the arrays under these names ([None] when the
    property is absent or no array); [doc_geometry] is the array
    [geometry.coordinates]; an element of a coordinate array that is an
    array itself is [Some] of its numbers. *)
Record Document : Type := mkDocument {
  doc_routeInfo : option RouteInfo;
  doc_points : option (list PointEntry);
  doc_spots : option (list SpotEntry);
  doc_name : option string;
  doc_imageX : option T;
  doc_imageY : option T;
  doc_coordinates : option (list (option (list T)));
  doc_geometry : option (list (option (list T)))
}.

(** [x !== undefined && y !== undefined] *)
Definition both_defined (x y : option T) : bool :=
  match x, y with Some _, Some _ => true | _, _ => false end.

(** [name && typeof name === 'string' && name.trim() !== ''] *)
Definition nonblank (name : option string) : bool :=
  match name with
  | Some s => negb (String.eqb s "") && negb (String.eqb (trim s) "")
  | None => false
  end.

Definition detectJsonType (data : Document) : option string :=
  let hasWaypoints :=
    match doc_routeInfo data, doc_points data with
    | Some routeInfo, Some points =>
      str_truthy (ri_startPoint routeInfo) && str_truthy (ri_endPoint routeInfo) &&
      existsb (fun point => id_eqb (pe_type point) (Some "waypoint") &&
                            both_defined (pe_imageX point) (pe_imageY point)) points
    | _, _ => false
    end in
  if hasWaypoints then Some "route"
  else
    let hasValidSpots :=
      match doc_spots data with
      | Some spots =>
        existsb (fun spot => nonblank (se_name spot) &&
                             both_defined (se_imageX spot) (se_imageY spot)) spots
      | None => false
      end in
    if hasValidSpots then Some "spot"
    else if nonblank (doc_name data) && both_defined (doc_imageX data) (doc_imageY data)
    then Some "spot"
    else
      let hasNonWaypoints :=
        match doc_points data with
        | Some points =>
          existsb (fun point => negb (id_eqb (pe_type point) (Some "waypoint")) &&
                                (str_truthy (pe_id point) || str_truthy (pe_name point)) &&
                                both_defined (pe_imageX point) (pe_imageY point)) points
        | None => false
        end in
      if hasNonWaypoints then Some "point" else None.

(** [a || b] on optional numbers. *)
Definition opt_or (a b : option T) : option T := if opt_truthy a then a else b.

(** The end point read from a coordinate pair, when the element is an
    array of at least two numbers; [latFirst] tells which comes first. *)
Definition point_of_pair (latFirst : bool) (name id : string) (coord : option (list T))
  : option (RoutePoint T) :=
  match coord with
  | Some (c0 :: c1 :: _) =>
    Some {| rp_lat := Some (if latFirst then c0 else c1);
            rp_lng := Some (if latFirst then c1 else c0);
            rp_name := Some name; rp_id := Some id |}
  | _ => None
  end.

Definition COORDINATES_ONLY : string := "座標のみ".

(** The branches of extractStartPoint and extractEndPoint after the
    [routeInfo] one; [pick] selects the first or the last element. *)
Definition point_from_arrays (pick : forall A : Type, list A -> option A)
    (fallbackName : string) (route : Document) : option (RoutePoint T) :=
  match doc_points route ≫= pick _ with
  | Some point =>
    Some {| rp_lat := opt_or (pe_lat point) (pe_latitude point);
            rp_lng := opt_or (pe_lng point) (pe_longitude point);
            rp_name := str_or (str_or (str_or (pe_name point) (pe_id point)) (pe_pointId point))
                              (Some fallbackName);
            rp_id := str_or (str_or (str_or (pe_id point) (pe_name point)) (pe_pointId point))
                            None |}
  | None =>
    let fromCoordinates :=
      match doc_coordinates route ≫= pick _ with
      | Some coord => point_of_pair true fallbackName COORDINATES_ONLY coord
      | None => None
      end in
    match fromCoordinates with
    | Some p => Some p
    | None =>
      match doc_geometry route ≫= pick _ with
      | Some coord => point_of_pair false fallbackName "GeoJSON" coord
      | None => None
      end
    end
  end.

Definition extractStartPoint (route : Document) : option (RoutePoint T) :=
  match doc_routeInfo route with
  | Some {| ri_startPoint := Some startPoint |} =>
    if negb (String.eqb startPoint "")
    then Some {| rp_lat := None; rp_lng := None;
                 rp_name := Some startPoint; rp_id := Some startPoint |}
    else point_from_arrays (fun A => @head A) "Start" route
  | _ => point_from_arrays (fun A => @head A) "Start" route
  end.

Definition extractEndPoint (route : Document) : option (RoutePoint T) :=
  match doc_routeInfo route with
  | Some {| ri_endPoint := Some endPoint |} =>
    if negb (String.eqb endPoint "")
    then Some {| rp_lat := None; rp_lng := None;
                 rp_name := Some endPoint; rp_id := Some endPoint |}
    else point_from_arrays (fun A => @last A) "End" route
  | _ => point_from_arrays (fun A => @last A) "End" route
  end.

(** The route object [{...data, fileName, routeId, startPoint, endPoint}]
    as the duplicate tests read it; a [coordinates] array has no [lat]
    and [lng], which read as NaN. *)
Definition processRouteData (data : Document) (fileName : string) : list (Entity T) :=
  let route :=
    {| as_route := {| startPoint := extractStartPoint data;
                      endPoint := extractEndPoint data |};
       as_spot := {| spot_imageX := doc_imageX data;
                     spot_imageY := doc_imageY data;
                     spot_coordinates :=
                       match doc_coordinates data with
                       | Some _ => Some {| lat := num_nan; lng := num_nan |}
                       | None => None
                       end |} |} in
  [route].

(** The routes the loop of handleRouteSpotJsonLoad collects from the
    files: a file that does not parse ([None]) or is not detected as a
    route contributes none. *)
Definition collected_routes (files : list (string * option Document)) : list (Entity T) :=
  flat_map (fun file =>
              match snd file with
              | Some data =>
                match detectJsonType data with
                | Some detectedType =>
                  if String.eqb detectedType "route" then processRouteData data (fst file)
                  else []
                | None => []
                end
              | None => []
              end) files.

(** What handleRouteSpotJsonLoad does to [this.routeData]. *)
Definition load_routes (routeData : list (Entity T)) (files : list (string * option Document))
  : list (Entity T) :=
  let newRoutes := collected_routes files in
  if 0 <? length newRoutes then mergeAndDeduplicate routeData newRoutes "route"
  else routeData.

(** *** Detected routes are named *)

Lemma detected_route_info (data : Document) :
  detectJsonType data = Some "route" ->
  exists s e, doc_routeInfo data = Some {| ri_startPoint := Some s; ri_endPoint := Some e |} /\
              s <> "" /\ e <> "".
Proof.
  unfold detectJsonType.
  destruct (doc_routeInfo data) as [[[s|] [e|]]|] eqn:Ei, (doc_points data) as [points|];
    cbn [ri_startPoint ri_endPoint str_truthy andb];
    try (destruct (negb (String.eqb s "")) eqn:Es; cbn [andb]);
    try (destruct (negb (String.eqb e "")) eqn:Ee; cbn [andb]).
  all: try (destruct (existsb _ points) eqn:Ex).
  all: try (intros _; exists s, e; split; [reflexivity|];
            apply negb_true_iff in Es, Ee; apply String.eqb_neq in Es, Ee; auto).
  all: cbv zeta;
       repeat match goal with
              | |- context [if ?c then _ else _] => destruct c
              end; discriminate.
Qed.

Lemma processRouteData_named (data : Document) (fileName : string) (s e : string) :
  doc_routeInfo data = Some {| ri_startPoint := Some s; ri_endPoint := Some e |} ->
  s <> "" -> e <> "" ->
  exists route, processRouteData data fileName = [route] /\
                as_route route = named_route s e.
Proof.
  intros Hi Hs He. eexists. split; [reflexivity|]. cbn [as_route].
  unfold extractStartPoint, extractEndPoint. rewrite Hi.
  apply String.eqb_neq in Hs, He. rewrite Hs, He. reflexivity.
Qed.

Lemma collected_routes_named (files : list (string * option Document)) :
  Forall named_entity (collected_routes files).
Proof.
  unfold collected_routes. induction files as [|[fileName [data|]] rest IH];
    [apply Forall_nil; exact I | | exact IH].
  cbn [flat_map snd fst].
  destruct (detectJsonType data) as [detectedType|] eqn:Ed; [|exact IH].
  destruct (String.eqb detectedType "route") eqn:Et; [|exact IH].
  apply String.eqb_eq in Et. subst detectedType.
  destruct (detected_route_info data Ed) as (s & e & Hi & Hs & He).
  destruct (processRouteData_named data fileName s e Hi Hs He) as (route & -> & Hr).
  apply Forall_cons. split; [|exact IH].
  unfold named_entity. rewrite Hr. apply named_route_named; assumption.
Qed.

End RouteFiles.

Arguments RouteInfo : clear implicits.
Arguments PointEntry : clear implicits.
Arguments SpotEntry : clear implicits.
Arguments Document : clear implicits.

(** X19.  Route files are told apart by the names in their [routeInfo]
    only: for two files detected as routes, the route objects built from
    them are duplicates exactly when the start and end names agree,
    forwards or backwards, whatever points and coordinates the files
    hold, in every number model. *)
Theorem detected_routes_compare_by_name (T : Type) (N : JSNumber T)
    (trim : string -> string) (data1 data2 : Document T) (file1 file2 : string) :
  detectJsonType trim data1 = Some "route" ->
  detectJsonType trim data2 = Some "route" ->
  exists s1 e1 s2 e2 route1 route2,
    doc_routeInfo data1 = Some {| ri_startPoint := Some s1; ri_endPoint := Some e1 |} /\
    doc_routeInfo data2 = Some {| ri_startPoint := Some s2; ri_endPoint := Some e2 |} /\
    processRouteData data1 file1 = [route1] /\
    processRouteData data2 file2 = [route2] /\
    (isSameRoute (as_route route1) (as_route route2) = true <->
     (s1 = s2 /\ e1 = e2) \/ (s1 = e2 /\ e1 = s2)).
Proof.
  intros H1 H2.
  destruct (detected_route_info trim data1 H1) as (s1 & e1 & Hi1 & Hs1 & He1).
  destruct (detected_route_info trim data2 H2) as (s2 & e2 & Hi2 & Hs2 & He2).
  destruct (processRouteData_named data1 file1 s1 e1 Hi1 Hs1 He1) as (route1 & Hp1 & Hr1).
  destruct (processRouteData_named data2 file2 s2 e2 Hi2 Hs2 He2) as (route2 & Hp2 & Hr2).
  exists s1, e1, s2, e2, route1, route2. repeat (split; [assumption|]).
  rewrite Hr1, Hr2.
  assert (Hid : forall s, s <> "" ->
            has_identifier (T := T) (named_point s) = true /\
            str_or (rp_id (named_point (T := T) s)) (rp_name (named_point (T := T) s)) = Some s).
  { intros s Hs. apply String.eqb_neq in Hs.
    unfold has_identifier, str_or, named_point. cbn. rewrite Hs. cbn. rewrite Hs. auto. }
  destruct (Hid s1 Hs1) as [Ht1 Hv1], (Hid e1 He1) as [Ht2 Hv2],
    (Hid s2 Hs2) as [Ht3 Hv3], (Hid e2 He2) as [Ht4 Hv4].
  rewrite (isSameRoute_named (named_route s1 e1) (named_route s2 e2)
             (named_point s1) (named_point e1) (named_point s2) (named_point e2));
    try reflexivity; try assumption.
  rewrite Hv1, Hv2, Hv3, Hv4.
  split; intros [[E1 E2]|[E1 E2]]; [left|right|left|right]; split; congruence.
Qed.

(** X20.  The loaded routes never hold a duplicate: starting from no
    routes, after any number of loads of any files, no two entries of
    [routeData] are duplicates of each other, and every entry carries the
    identifiers of its end points. *)
Theorem routeData_never_holds_duplicates (T : Type) (N : JSNumber T)
    (trim : string -> string) (loads : list (list (string * option (Document T)))) :
  let routeData := foldl (load_routes trim) [] loads in
  duplicate_free (same_route_entity (T := T)) routeData /\
  Forall named_entity routeData.
Proof.
  cbv zeta.
  assert (Hinv : forall routeData : list (Entity T),
            duplicate_free same_route_entity routeData /\ Forall named_entity routeData ->
            duplicate_free same_route_entity (foldl (load_routes trim) routeData loads) /\
            Forall named_entity (foldl (load_routes trim) routeData loads)).
  { induction loads as [|files rest IH]; intros routeData [Hd Hn]; [split; assumption|].
    simpl. apply IH. unfold load_routes.
    destruct (0 <? length (collected_routes trim files)); [|split; assumption].
    rewrite mergeAndDeduplicate_route.
    pose proof (collected_routes_named trim files) as Hnew.
    destruct (merged_entries same_route_entity named_entity
                (fun a => isSameRoute_named_refl (as_route a))
                (fun a b => isSameRoute_named_sym (as_route a) (as_route b))
                (fun a b c => isSameRoute_named_trans (as_route a) (as_route b) (as_route c))
                (collected_routes trim files) routeData Hn Hnew Hd) as (Hg & Hdf & _).
    split; assumption. }
  apply Hinv. split; [|apply Forall_nil; exact I].
  intros i j a b Ha. discriminate.
Qed.

(** A route file: the names of the end points and one waypoint. *)
Definition route_document (s e : string) (x y : Q) : Document float :=
  {| doc_routeInfo := Some {| ri_startPoint := Some s; ri_endPoint := Some e |};
     doc_points := Some [ {| pe_type := Some "waypoint";
                             pe_imageX := Some (num_of_Q x); pe_imageY := Some (num_of_Q y);
                             pe_id := None; pe_name := None; pe_pointId := None;
                             pe_lat := None; pe_latitude := None;
                             pe_lng := None; pe_longitude := None |} ];
     doc_spots := None; doc_name := None; doc_imageX := None; doc_imageY := None;
     doc_coordinates := None; doc_geometry := None |}.

Lemma detected_routes_compare_by_name_witness :
  exists s1 e1 s2 e2 route1 route2,
    doc_routeInfo (route_document "A-01" "A-05" 10 20)
    = Some {| ri_startPoint := Some s1; ri_endPoint := Some e1 |} /\
    doc_routeInfo (route_document "A-05" "A-01" 30 40)
    = Some {| ri_startPoint := Some s2; ri_endPoint := Some e2 |} /\
    processRouteData (route_document "A-01" "A-05" 10 20) "there.json" = [route1] /\
    processRouteData (route_document "A-05" "A-01" 30 40) "back.json" = [route2] /\
    (isSameRoute (as_route route1) (as_route route2) = true <->
     (s1 = s2 /\ e1 = e2) \/ (s1 = e2 /\ e1 = s2)).
Proof.
  apply (detected_routes_compare_by_name float _ (fun s => s)
           (route_document "A-01" "A-05" 10 20) (route_document "A-05" "A-01" 30 40)
           "there.json" "back.json"); vm_compute; reflexivity.
Defined.

(** ** GPS data: import and export of GeoJSON (gps-data.js) *)

Section GeoJson.
Context {T : Type} {N : JSNumber T}.

(** The JSON values the properties of a feature hold. *)
Inductive JSValue : Type :=
| VUndefined
| VNull
| VBool (b : bool)
| VNumber (x : T)
| VString (s : string).

Definition truthy (v : JSValue) : bool :=
  match v with
  | VUndefined | VNull => false
  | VBool b => b
  | VNumber x => num_truthy x
  | VString s => negb (String.eqb s "")
  end.

(** [a || b] *)
Definition js_or (a b : JSValue) : JSValue := if truthy a then a else b.

(** [array[i]] *)
Definition js_index (array : list JSValue) (i : nat) : JSValue :=
  default VUndefined (array !! i).

(** [feature.properties] *)
Record Properties : Type := mkProperties {
  p_id : JSValue;
  p_name : JSValue;
  p_location : JSValue;
  p_description : JSValue;
  p_elevation : JSValue;
  p_gpsElevation : JSValue
}.

(** [{}] *)
Definition no_properties : Properties :=
  {| p_id := VUndefined; p_name := VUndefined; p_location := VUndefined;
     p_description := VUndefined; p_elevation := VUndefined; p_gpsElevation := VUndefined |}.

(** [feature.geometry]; [g_coordinates] is the array under
    [coordinates], [None] when there is none. *)
Record Geometry : Type := mkGeometry {
  g_type : JSValue;
  g_coordinates : option (list JSValue)
}.

Record Feature : Type := mkFeature {
  f_geometry : option Geometry;
  f_properties : option Properties
}.

(** A GeoJSON document.  [gj_features] is [None] when the property is
    absent or falsy, [Some None] when it holds something that is no
    array, else the array. *)
Record GeoJson : Type := mkGeoJson {
  gj_type : JSValue;
  gj_features : option (option (list Feature));
  gj_geometry : option Geometry;
  gj_properties : option Properties
}.

(** An element of [gpsPoints]. *)
Record GpsRecord : Type := mkGpsRecord {
  gp_pointId : JSValue;
  gp_lat : JSValue;
  gp_lng : JSValue;
  gp_elevation : JSValue;
  gp_location : JSValue;
  gp_gpsElevation : JSValue
}.

(** [value === 'text'] *)
Definition is_string (text : string) (v : JSValue) : bool :=
  match v with VString s => String.eqb s text | _ => false end.

(** The point object built from a Point geometry; reading an element of
    missing coordinates throws. *)
Definition point_of (geometry : Geometry) (properties : option Properties)
    (fallbackId : string) : completion GpsRecord :=
  match g_coordinates geometry with
  | None => Throw
  | Some coordinates =>
    let properties := default no_properties properties in
    Return {| gp_pointId := js_or (js_or (p_id properties) (p_name properties))
                                  (VString fallbackId);
              gp_lat := js_index coordinates 1;
              gp_lng := js_index coordinates 0;
              gp_elevation := js_or (js_or (js_index coordinates 2) (p_elevation properties))
                                    (VNumber (num_of_Q 0));
              gp_location := js_or (js_or (js_or (p_name properties) (p_location properties))
                                          (p_description properties))
                                   (VString "");
              gp_gpsElevation := js_or (p_gpsElevation properties) (VNumber (num_of_Q 0)) |}
  end.

(** The callback of [features.forEach], with the points pushed so far. *)
Definition process_feature (acc : completion (list GpsRecord)) (entry : nat * Feature)
  : completion (list GpsRecord) :=
  match acc with
  | Throw => Throw
  | Return processedData =>
    let '(index, feature) := entry in
    match f_geometry feature with
    | Some geometry =>
      if is_string "Point" (g_type geometry) then
        match point_of geometry (f_properties feature) ("Point_" +:+ pretty (index + 1)) with
        | Return point => Return (processedData ++ [point])
        | Throw => Throw
        end
      else Return processedData
    | None => Return processedData
    end
  end.

(** [Throw] is the error the method raises for malformed data. *)
Definition processGeoJsonData (geoJsonData : GeoJson) : completion (list GpsRecord) :=
  let collection :=
    if is_string "FeatureCollection" (gj_type geoJsonData)
    then gj_features geoJsonData else None in
  match collection with
  | Some None => Throw
  | Some (Some features) => foldl process_feature (Return []) (entries features)
  | None =>
    match (if is_string "Feature" (gj_type geoJsonData)
           then gj_geometry geoJsonData else None) with
    | Some geometry =>
      if is_string "Point" (g_type geometry) then
        match point_of geometry (gj_properties geoJsonData) "Point_1" with
        | Return point => Return [point]
        | Throw => Throw
        end
      else Return []
    | None => Return []
    end
  end.

Definition exportAsGeoJson (gpsPoints : list GpsRecord) : GeoJson :=
  let features :=
    map (fun point =>
           {| f_geometry :=
                Some {| g_type := VString "Point";
                        g_coordinates := Some [gp_lng point; gp_lat point; gp_elevation point] |};
              f_properties :=
                Some {| p_id := gp_pointId point; p_name := VUndefined;
                        p_location := gp_location point; p_description := VUndefined;
                        p_elevation := gp_elevation point;
                        p_gpsElevation := gp_gpsElevation point |} |})
        gpsPoints in
  {| gj_type := VString "FeatureCollection";
     gj_features := Some (Some features);
     gj_geometry := None;
     gj_properties := None |}.

End GeoJson.

Arguments JSValue : clear implicits.
Arguments Properties : clear implicits.
Arguments Geometry : clear implicits.
Arguments Feature : clear implicits.
Arguments GeoJson : clear implicits.
Arguments GpsRecord : clear implicits.

Section GeoJsonRoundTrip.
Context {T : Type} {N : JSNumber T}.

(** A point as an import leaves it: with a usable identifier, and with
    the defaults in place of a missing elevation or location. *)
Definition settled_point (point : GpsRecord T) : Prop :=
  truthy (gp_pointId point) = true /\
  (truthy (gp_elevation point) = true \/ gp_elevation point = VNumber (num_of_Q 0)) /\
  (truthy (gp_location point) = true \/ gp_location point = VString "") /\
  (truthy (gp_gpsElevation point) = true \/ gp_gpsElevation point = VNumber (num_of_Q 0)).

(** The point read back from the feature exported for [point]. *)
Definition reimported (index : nat) (point : GpsRecord T) : GpsRecord T :=
  {| gp_pointId := js_or (gp_pointId point) (VString ("Point_" +:+ pretty (index + 1)));
     gp_lat := gp_lat point;
     gp_lng := gp_lng point;
     gp_elevation := js_or (gp_elevation point) (VNumber (num_of_Q 0));
     gp_location := js_or (gp_location point) (VString "");
     gp_gpsElevation := js_or (gp_gpsElevation point) (VNumber (num_of_Q 0)) |}.

Lemma js_or_cases (a d : JSValue T) : truthy (js_or a d) = true \/ js_or a d = d.
Proof. unfold js_or. destruct (truthy a) eqn:E; auto. Qed.

Lemma js_or_settled (a d : JSValue T) : truthy a = true \/ a = d -> js_or a d = a.
Proof. unfold js_or. intros [->| ->]; [reflexivity|]. destruct (truthy d); reflexivity. Qed.

Lemma point_of_settled (geometry : Geometry T) (properties : option (Properties T))
    (fallbackId : string) (point : GpsRecord T) :
  fallbackId <> "" ->
  point_of geometry properties fallbackId = Return point -> settled_point point.
Proof.
  intros Hf. unfold point_of. destruct (g_coordinates geometry); [|discriminate].
  intros [= <-]. unfold settled_point. cbn [gp_pointId gp_elevation gp_location gp_gpsElevation].
  split; [|split; [apply js_or_cases | split; apply js_or_cases]].
  destruct (js_or_cases (js_or (p_id (default no_properties properties))
                               (p_name (default no_properties properties)))
                        (VString fallbackId)) as [H| ->]; [exact H|].
  simpl. apply negb_true_iff, String.eqb_neq, Hf.
Qed.

Lemma reimported_settled (index : nat) (point : GpsRecord T) :
  settled_point point -> reimported index point = point.
Proof.
  intros (H1 & H2 & H3 & H4). destruct point as [pid la lo e l g].
  unfold reimported. cbn in *.
  rewrite (js_or_settled e _ H2), (js_or_settled l _ H3), (js_or_settled g _ H4).
  unfold js_or. rewrite H1. reflexivity.
Qed.

Lemma process_feature_throw (l : list (nat * Feature T)) :
  foldl process_feature Throw l = Throw.
Proof. induction l as [|e l IH]; [reflexivity | exact IH]. Qed.

Lemma fallback_nonempty (index : nat) : "Point_" +:+ pretty (index + 1) <> "".
Proof. discriminate. Qed.

Lemma process_loop_settled (features : list (Feature T)) :
  forall (k : nat) (acc res : list (GpsRecord T)),
  Forall settled_point acc ->
  foldl process_feature (Return acc) (imap (fun i x => (k + i, x)) features) = Return res ->
  Forall settled_point res.
Proof.
  induction features as [|feature rest IH]; intros k acc res Hacc.
  - simpl. intros [= <-]. exact Hacc.
  - cbn [imap foldl]. rewrite Nat.add_0_r.
    rewrite (imap_ext _ (fun i x => (S k + i, x)) rest) by (intros; simpl; f_equal; lia).
    unfold process_feature at 2.
    destruct (f_geometry feature) as [geometry|]; [|apply IH, Hacc].
    destruct (is_string "Point" (g_type geometry)); [|apply IH, Hacc].
    destruct (point_of geometry (f_properties feature) _) as [point|] eqn:Ep.
    + apply IH. apply Forall_app. split; [exact Hacc|].
      apply Forall_cons. split; [|apply Forall_nil; exact I].
      exact (point_of_settled _ _ _ _ (fallback_nonempty k) Ep).
    + rewrite process_feature_throw. discriminate.
Qed.

Lemma processGeoJsonData_settled (geoJsonData : GeoJson T) (points : list (GpsRecord T)) :
  processGeoJsonData geoJsonData = Return points -> Forall settled_point points.
Proof.
  unfold processGeoJsonData.
  destruct (if is_string "FeatureCollection" (gj_type geoJsonData) then _ else _)
    as [[features|]|]; [| discriminate |].
  - unfold entries. rewrite (imap_ext pair (fun i x => (0 + i, x)) _) by reflexivity.
    apply process_loop_settled. apply Forall_nil. exact I.
  - destruct (if is_string "Feature" (gj_type geoJsonData) then _ else _) as [geometry|];
      [|intros [= <-]; apply Forall_nil; exact I].
    destruct (is_string "Point" (g_type geometry));
      [|intros [= <-]; apply Forall_nil; exact I].
    destruct (point_of geometry (gj_properties geoJsonData) "Point_1") as [point|] eqn:Ep;
      [|discriminate].
    intros [= <-]. apply Forall_cons. split; [|apply Forall_nil; exact I].
    apply (point_of_settled _ _ _ _ (fallback_nonempty 0) Ep).
Qed.

Lemma export_loop (points : list (GpsRecord T)) :
  forall (k : nat) (acc : list (GpsRecord T)),
  foldl process_feature (Return acc)
        (imap (fun i x => (k + i, x))
              (map (fun point =>
                      {| f_geometry :=
                           Some {| g_type := VString "Point";
                                   g_coordinates := Some [gp_lng point; gp_lat point;
                                                          gp_elevation point] |};
                         f_properties :=
                           Some {| p_id := gp_pointId point; p_name := VUndefined;
                                   p_location := gp_location point;
                                   p_description := VUndefined;
                                   p_elevation := gp_elevation point;
                                   p_gpsElevation := gp_gpsElevation point |} |})
                   points))
  = Return (acc ++ imap (fun i => reimported (k + i)) points).
Proof.
  induction points as [|point rest IH]; intros k acc.
  - simpl. rewrite app_nil_r. reflexivity.
  - cbn [map imap foldl]. rewrite Nat.add_0_r.
    rewrite (imap_ext _ (fun i x => (S k + i, x)) _) by (intros; simpl; f_equal; lia).
    rewrite (imap_ext ((fun i => reimported (k + i)) ∘ S)
                      (fun i => reimported (S k + i)) rest)
      by (intros; simpl; f_equal; lia).
    assert (Hstep : process_feature (Return acc)
              (k, {| f_geometry :=
                       Some {| g_type := VString "Point";
                               g_coordinates := Some [gp_lng point; gp_lat point;
                                                      gp_elevation point] |};
                     f_properties :=
                       Some {| p_id := gp_pointId point; p_name := VUndefined;
                               p_location := gp_location point;
                               p_description := VUndefined;
                               p_elevation := gp_elevation point;
                               p_gpsElevation := gp_gpsElevation point |} |})
            = Return (acc ++ [reimported k point])).
    { destruct point as [pid la lo e l g].
      unfold process_feature, point_of, reimported, js_index, js_or. cbn -[truthy].
      change (truthy VUndefined) with false. cbv iota.
      destruct (truthy pid) eqn:E1, (truthy e) eqn:E2, (truthy l) eqn:E3;
        rewrite ?E1, ?E2, ?E3; try change (truthy VUndefined) with false;
        reflexivity. }
    rewrite Hstep, IH, <- app_assoc. reflexivity.
Qed.

Lemma processGeoJsonData_exported (points : list (GpsRecord T)) :
  processGeoJsonData (exportAsGeoJson points) = Return (imap reimported points).
Proof.
  unfold processGeoJsonData, exportAsGeoJson. cbn. unfold entries.
  rewrite (imap_ext pair (fun i x => (0 + i, x)) _) by reflexivity.
  rewrite export_loop. reflexivity.
Qed.

Lemma imap_fixed {A : Type} (f : nat -> A -> A) (l : list A) :
  (forall i x, l !! i = Some x -> f i x = x) -> imap f l = l.
Proof.
  intros Hf. apply list_eq. intros i. rewrite list_lookup_imap.
  destruct (l !! i) as [x|] eqn:E; [|reflexivity]. simpl. f_equal. exact (Hf i x E).
Qed.

Lemma reimported_is_settled (index : nat) (point : GpsRecord T) :
  settled_point (reimported index point).
Proof.
  unfold settled_point, reimported.
  cbn [gp_pointId gp_elevation gp_location gp_gpsElevation].
  split; [|split; [apply js_or_cases | split; apply js_or_cases]].
  destruct (js_or_cases (gp_pointId point) (VString ("Point_" +:+ pretty (index + 1))))
    as [H| ->]; [exact H | reflexivity].
Qed.

End GeoJsonRoundTrip.

(** X21.  Import, export and import again give the same points: the
    points [processGeoJsonData] returns for any document are returned
    unchanged when the object [exportAsGeoJson] builds from them is
    processed, in every number model. *)
Theorem geojson_round_trip (T : Type) (N : JSNumber T)
    (geoJsonData : GeoJson T) (points : list (GpsRecord T)) :
  processGeoJsonData geoJsonData = Return points ->
  processGeoJsonData (exportAsGeoJson points) = Return points.
Proof.
  intros Hp. rewrite processGeoJsonData_exported. f_equal.
  apply imap_fixed. intros i point Hi. apply reimported_settled.
  exact (proj1 (Forall_lookup _ _) (processGeoJsonData_settled _ _ Hp) i point Hi).
Qed.

(** X22.  An export can always be read back: for any points, whatever
    their origin, processing the exported object does not fail and
    returns as many points, in the same order, with the same latitude and
    longitude.  A usable identifier is kept, a missing one is replaced by
    the position in the list; and exporting the result again reads back
    as the very same points. *)
Theorem geojson_export_readable (T : Type) (N : JSNumber T)
    (points : list (GpsRecord T)) :
  exists read,
    processGeoJsonData (exportAsGeoJson points) = Return read /\
    length read = length points /\
    map gp_lat read = map gp_lat points /\
    map gp_lng read = map gp_lng points /\
    (forall i point, points !! i = Some point ->
       exists point', read !! i = Some point' /\
         gp_pointId point' = (if truthy (gp_pointId point) then gp_pointId point
                              else VString ("Point_" +:+ pretty (i + 1)))) /\
    processGeoJsonData (exportAsGeoJson read) = Return read.
Proof.
  exists (imap reimported points).
  split; [apply processGeoJsonData_exported|].
  split; [apply length_imap|].
  split; [apply list_eq; intros i; rewrite !list_lookup_fmap, list_lookup_imap;
          destruct (points !! i); reflexivity|].
  split; [apply list_eq; intros i; rewrite !list_lookup_fmap, list_lookup_imap;
          destruct (points !! i); reflexivity|].
  split.
  - intros i point Hi. exists (reimported i point).
    rewrite list_lookup_imap, Hi. split; reflexivity.
  - rewrite processGeoJsonData_exported. f_equal. apply imap_fixed.
    intros i point Hi. apply reimported_settled.
    apply list_lookup_imap_Some in Hi as (p & _ & ->). apply reimported_is_settled.
Qed.

(** A collection with a named point, a line, and a point without name
    or elevation. *)
Definition sample_geojson : GeoJson float :=
  {| gj_type := VString "FeatureCollection";
     gj_features :=
       Some (Some [
         {| f_geometry := Some {| g_type := VString "Point";
                                  g_coordinates := Some [VNumber 135%float; VNumber 35%float;
                                                         VNumber 120%float] |};
            f_properties := Some {| p_id := VString "A-01"; p_name := VString "Summit";
                                    p_location := VUndefined; p_description := VUndefined;
                                    p_elevation := VUndefined;
                                    p_gpsElevation := VUndefined |} |};
         {| f_geometry := Some {| g_type := VString "LineString"; g_coordinates := Some [] |};
            f_properties := None |};
         {| f_geometry := Some {| g_type := VString "Point";
                                  g_coordinates := Some [VNumber 136%float; VNumber 36%float] |};
            f_properties := None |} ]);
     gj_geometry := None;
     gj_properties := None |}.

Lemma geojson_round_trip_witness :
  exists points,
    processGeoJsonData sample_geojson = Return points /\
    map gp_pointId points = [VString "A-01"; VString "Point_3"] /\
    processGeoJsonData (exportAsGeoJson points) = Return points.
Proof.
  destruct (processGeoJsonData sample_geojson) as [points|] eqn:Hp;
    [|exfalso; revert Hp; vm_compute; discriminate].
  exists points. split; [reflexivity|]. split.
  - vm_compute in Hp. injection Hp as <-. reflexivity.
  - exact (geojson_round_trip float _ sample_geojson points Hp).
Defined.

(** ** Looking up GPS points (gps-data.js) *)

Section Lookup.
Context {T : Type} {N : JSNumber T}.

(** [this.gpsPoints.find(point => point.pointId === pointId)] *)
Definition getPointById (gpsPoints : list (GpsPoint T)) (pointId : option string)
  : option (GpsPoint T) :=
  List.find (fun point => id_eqb (gps_pointId point) pointId) gpsPoints.

Lemma getPointById_first (gpsPoints : list (GpsPoint T)) (id : string) :
  getPointById gpsPoints (Some id)
  = head (filter (fun g => gps_pointId g = Some id) gpsPoints).
Proof.
  unfold getPointById. induction gpsPoints as [|g rest IH]; [reflexivity|].
  cbn [List.find]. rewrite filter_cons. unfold id_eqb at 1.
  destruct (decide (gps_pointId g = Some id)) as [E|E].
  - rewrite bool_decide_eq_true_2 by exact E. reflexivity.
  - rewrite bool_decide_eq_false_2 by exact E. exact IH.
Qed.

Lemma matched_counterpart (data : PointJsonData T) (gpsPoints : list (GpsPoint T))
    (cp : ControlPoint T) :
  cp ∈ matchedPairs (matchPointJsonWithGPS (Some data) gpsPoints) ->
  gps_counterpart gpsPoints (pointJsonId cp) = Some (gpsPoint cp).
Proof.
  intros Hcp. rewrite matchPointJsonWithGPS_outcomes in Hcp. cbn [matchedPairs] in Hcp.
  apply list_elem_of_omap in Hcp as [o [Ho Hm]].
  apply list_elem_of_lookup in Ho as [i Hi].
  rewrite list_lookup_imap in Hi.
  destruct (pointJsonArray data !! i) as [p|]; [|discriminate]. simpl in Hi.
  injection Hi as <-. unfold entity_outcome in Hm.
  destruct (first_truthy [pj_Id p; pj_id p; pj_name p]) as [id|]; [|discriminate].
  destruct (gps_counterpart gpsPoints id) as [g|] eqn:Hg; [|discriminate].
  simpl in Hm. injection Hm as <-. exact Hg.
Qed.

Lemma filter_unique (gpsPoints : list (GpsPoint T)) (id : string) :
  NoDup (map gps_pointId gpsPoints) ->
  length (filter (fun g => gps_pointId g = Some id) gpsPoints) <= 1.
Proof.
  induction gpsPoints as [|g rest IH]; intros Hnd; [simpl; lia|].
  cbn [map] in Hnd. apply NoDup_cons in Hnd as [Hnot Hnd].
  rewrite filter_cons. destruct (decide (gps_pointId g = Some id)) as [E|E];
    [|exact (IH Hnd)].
  assert (Hnil : filter (fun g => gps_pointId g = Some id) rest = []).
  { destruct (filter (fun g => gps_pointId g = Some id) rest) as [|x xs] eqn:Ef;
      [reflexivity|].
    assert (Hx : x ∈ filter (fun g => gps_pointId g = Some id) rest)
      by (rewrite Ef; left).
    apply list_elem_of_filter in Hx as [Hid Hin]. exfalso. apply Hnot.
    rewrite E, <- Hid. apply list_elem_of_fmap. exists x. auto. }
  rewrite Hnil. simpl. lia.
Qed.

End Lookup.

(** X23.  A matched identifier is always found by [getPointById], which
    returns the first GPS point carrying it, while the matching engine
    pairs the entity with the last one; when no two GPS points share an
    identifier the two agree, and the point paired with an entity is the
    one [getPointById] returns for its identifier. *)
Theorem getPointById_agrees_with_matching (T : Type) (N : JSNumber T)
    (data : PointJsonData T) (gpsPoints : list (GpsPoint T)) (cp : ControlPoint T) :
  cp ∈ matchedPairs (matchPointJsonWithGPS (Some data) gpsPoints) ->
  (exists first, getPointById gpsPoints (Some (pointJsonId cp)) = Some first /\
                 gps_pointId first = Some (pointJsonId cp)) /\
  (NoDup (map gps_pointId gpsPoints) ->
   getPointById gpsPoints (Some (pointJsonId cp)) = Some (gpsPoint cp)).
Proof.
  intros Hcp. apply matched_counterpart in Hcp. unfold gps_counterpart in Hcp.
  rewrite getPointById_first.
  destruct (filter (fun g => gps_pointId g = Some (pointJsonId cp)) gpsPoints)
    as [|first rest] eqn:Ef; [discriminate|].
  split.
  - exists first. split; [reflexivity|].
    assert (Hin : first ∈ filter (fun g => gps_pointId g = Some (pointJsonId cp)) gpsPoints)
      by (rewrite Ef; left).
    apply list_elem_of_filter in Hin as [Hid _]. exact Hid.
  - intros Hnd. pose proof (filter_unique gpsPoints (pointJsonId cp) Hnd) as Hlen.
    rewrite Ef in Hlen. destruct rest; [exact Hcp | simpl in Hlen; lia].
Qed.

Lemma getPointById_agrees_with_matching_witness :
  getPointById (gpsData sample_state) (Some "A-02")
  = Some {| gps_pointId := Some "A-02"; gps_lat := 36%float; gps_lng := 136%float |}.
Proof.
  refine (proj2 (getPointById_agrees_with_matching float _
                   (PJPoints [ sample_entity (Some "A-01") 0 0;
                               sample_entity (Some "A-02") 100 100;
                               sample_entity None 50 50 ])
                   (gpsData sample_state)
                   {| pointJsonId := "A-02"; pointJson := sample_entity (Some "A-02") 100 100;
                      gpsPoint := {| gps_pointId := Some "A-02"; gps_lat := 36%float;
                                     gps_lng := 136%float |} |} _) _).
  - vm_compute. right. left.
  - apply (bool_decide_unpack _). vm_compute. exact I.
Defined.

(** ** GPS points from a spreadsheet (file-handler.js) *)

Section Excel.
Context {T : Type} {N : JSNumber T}.

(** [parseFloat] and [isNaN], which the engine provides. *)
Variable parseFloat : JSValue T -> T.
Variable isNaN : T -> bool.

Definition requiredColumns : list string := ["ポイントID"; "名称"; "緯度"; "経度"].
Definition optionalColumns : list string := ["標高"; "備考"].
Definition allColumns : list string := requiredColumns ++ optionalColumns.

(** [headerRow.indexOf(column)], with [None] for -1. *)
Definition indexOf (headerRow : list (JSValue T)) (column : string) : option nat :=
  findIndex (is_string column) headerRow.

(** The loop that fills [columnIndexMap]; it throws at the first required
    column the header lacks. *)
Definition build_columnIndexMap (headerRow : list (JSValue T)) : completion (gmap string nat) :=
  foldl (fun acc column =>
           match acc with
           | Throw => Throw
           | Return columnIndexMap =>
             match indexOf headerRow column with
             | Some index => Return (<[column := index]> columnIndexMap)
             | None =>
               if bool_decide (column ∈ requiredColumns) then Throw
               else Return columnIndexMap
             end
           end)
        (Return ∅) allColumns.

(** [value === undefined || value === null || value === ''] *)
Definition is_missing (value : JSValue T) : bool :=
  match value with
  | VUndefined | VNull => true
  | VString s => String.eqb s ""
  | _ => false
  end.

(** An element of the validated data. *)
Record ExcelPoint : Type := mkExcelPoint {
  ep_pointId : JSValue T;
  ep_name : JSValue T;
  ep_lat : T;
  ep_lng : T;
  ep_elevation : JSValue T;
  ep_description : JSValue T
}.

(** [row[columnIndexMap[column]]] *)
Definition cell (columnIndexMap : gmap string nat) (row : list (JSValue T)) (column : string)
  : JSValue T :=
  match columnIndexMap !! column with
  | Some index => js_index row index
  | None => VUndefined
  end.

(** The body of the loop over the required columns; [None] once a value
    is missing. *)
Definition read_required (columnIndexMap : gmap string nat) (row : list (JSValue T))
    (acc : option (gmap string (JSValue T))) (column : string)
  : option (gmap string (JSValue T)) :=
  match acc with
  | None => None
  | Some pointData =>
    let value := cell columnIndexMap row column in
    if is_missing value then None
    else Some (<[column := value]> pointData)
  end.

(** The body of the loop over the optional columns. *)
Definition read_optional (columnIndexMap : gmap string nat) (row : list (JSValue T))
    (pointData : gmap string (JSValue T)) (column : string) : gmap string (JSValue T) :=
  match columnIndexMap !! column with
  | Some index =>
    let value := js_index row index in
    if is_missing value then pointData
    else <[column := value]> pointData
  | None => pointData
  end.

(** The body of the loop over the data rows: the point pushed for the
    row, or [None] when the row is skipped. *)
Definition convert_row (columnIndexMap : gmap string nat) (row : option (list (JSValue T)))
  : option ExcelPoint :=
  match row with
  | None | Some [] => None
  | Some row =>
    match foldl (read_required columnIndexMap row) (Some ∅) requiredColumns with
    | None => None
    | Some pointData =>
      let pointData := foldl (read_optional columnIndexMap row) pointData optionalColumns in
      let field column := default VUndefined (pointData !! column) in
      let lat := parseFloat (field "緯度") in
      let lng := parseFloat (field "経度") in
      if isNaN lat || isNaN lng then None
      else if num_lt lat (num_of_Q (-90)) || num_lt (num_of_Q 90) lat ||
              num_lt lng (num_of_Q (-180)) || num_lt (num_of_Q 180) lng
      then None
      else Some {| ep_pointId := field "ポイントID";
                   ep_name := field "名称";
                   ep_lat := lat;
                   ep_lng := lng;
                   ep_elevation := js_or (field "標高") VNull;
                   ep_description := js_or (field "備考") VNull |}
    end
  end.

(** [rawData] is the sheet as an array of rows, [None] when there is
    none; a row is an array of cells, [None] when the element is no
    array.  [Throw] is the error raised for an unusable sheet. *)
Definition validateAndConvertExcelData (rawData : option (list (option (list (JSValue T)))))
  : completion (list ExcelPoint) :=
  match rawData with
  | None | Some [] => Throw
  | Some (headerRow :: rows) =>
    match headerRow with
    | None | Some [] => Throw
    | Some headerRow =>
      match build_columnIndexMap headerRow with
      | Throw => Throw
      | Return columnIndexMap => Return (omap (convert_row columnIndexMap) rows)
      end
    end
  end.

End Excel.

Arguments ExcelPoint : clear implicits.

Section ExcelProperties.
Context {T : Type} {N : JSNumber T}.
Variable parseFloat : JSValue T -> T.
Variable isNaN : T -> bool.

Lemma is_string_eq (text : string) (v : JSValue T) :
  is_string text v = true <-> v = VString text.
Proof.
  destruct v as [| | b | x | s]; simpl; try (split; [discriminate | discriminate]).
  rewrite String.eqb_eq. split; [intros ->; reflexivity | intros [= ->]; reflexivity].
Qed.

Lemma indexOf_None (headerRow : list (JSValue T)) (column : string) :
  indexOf headerRow column = None <-> VString column ∉ headerRow.
Proof.
  unfold indexOf. split.
  - intros Hn Hin. apply list_elem_of_lookup in Hin as [i Hi].
    pose proof (findIndex_None _ _ Hn i _ Hi) as Hf.
    assert (Ht : is_string column (VString column) = true) by (apply is_string_eq; reflexivity).
    congruence.
  - intros Hnot. destruct (findIndex (is_string column) headerRow) as [i|] eqn:E;
      [|reflexivity].
    destruct (findIndex_Some _ _ _ E) as (x & Hx & Hs). apply is_string_eq in Hs. subst x.
    exfalso. apply Hnot. apply list_elem_of_lookup. eauto.
Qed.

Lemma indexOf_Some (headerRow : list (JSValue T)) (column : string) (index : nat) :
  indexOf headerRow column = Some index -> VString column ∈ headerRow.
Proof.
  intros E. destruct (findIndex_Some _ _ _ E) as (x & Hx & Hs).
  apply is_string_eq in Hs. subst x. apply list_elem_of_lookup. eauto.
Qed.

Lemma omap_length_le {A B : Type} (f : A -> option B) (l : list A) :
  length (omap f l) <= length l.
Proof.
  induction l as [|x l IH]; [reflexivity|]. cbn [omap list_omap].
  destruct (f x); simpl; lia.
Qed.

(** The map holds the place of every column the header names, when the
    four required ones are there. *)
Lemma build_columnIndexMap_cases (headerRow : list (JSValue T)) :
  match indexOf headerRow "ポイントID", indexOf headerRow "名称",
        indexOf headerRow "緯度", indexOf headerRow "経度" with
  | Some _, Some _, Some _, Some _ =>
    exists columnIndexMap,
      build_columnIndexMap headerRow = Return columnIndexMap /\
      forall column, column ∈ allColumns ->
                     columnIndexMap !! column = indexOf headerRow column
  | _, _, _, _ => build_columnIndexMap headerRow = Throw
  end.
Proof.
  unfold build_columnIndexMap, allColumns, requiredColumns, optionalColumns.
  cbn [app foldl].
  destruct (indexOf headerRow "ポイントID") as [a|] eqn:Ea; [|reflexivity].
  destruct (indexOf headerRow "名称") as [b|] eqn:Eb; [|reflexivity].
  destruct (indexOf headerRow "緯度") as [c|] eqn:Ec; [|reflexivity].
  destruct (indexOf headerRow "経度") as [d|] eqn:Ed; [|reflexivity].
  change (bool_decide ("標高" ∈ ["ポイントID"; "名称"; "緯度"; "経度"])) with false.
  change (bool_decide ("備考" ∈ ["ポイントID"; "名称"; "緯度"; "経度"])) with false.
  destruct (indexOf headerRow "標高") as [e|] eqn:Ee,
           (indexOf headerRow "備考") as [f|] eqn:Ef;
    eexists; (split; [reflexivity|]); intros column Hin;
    repeat (apply elem_of_cons in Hin as [->|Hin]);
    try (apply elem_of_nil in Hin; contradiction);
    rewrite ?Ea, ?Eb, ?Ec, ?Ed, ?Ee, ?Ef;
    repeat (rewrite lookup_insert_eq || rewrite lookup_insert_ne by discriminate);
    try reflexivity; apply lookup_empty.
Qed.

Lemma read_optional_other (columnIndexMap : gmap string nat) (row : list (JSValue T))
    (pointData : gmap string (JSValue T)) (column key : string) :
  column <> key ->
  read_optional columnIndexMap row pointData column !! key = pointData !! key.
Proof.
  intros Hne. unfold read_optional.
  destruct (columnIndexMap !! column); [|reflexivity]. cbv zeta.
  destruct (is_missing _); [reflexivity|]. apply lookup_insert_ne, Hne.
Qed.

(** What a converted row holds. *)
Lemma convert_row_Some (columnIndexMap : gmap string nat) (row : list (JSValue T))
    (point : ExcelPoint T) :
  convert_row parseFloat isNaN columnIndexMap (Some row) = Some point ->
  ep_pointId point = cell columnIndexMap row "ポイントID" /\
  ep_name point = cell columnIndexMap row "名称" /\
  ep_lat point = parseFloat (cell columnIndexMap row "緯度") /\
  ep_lng point = parseFloat (cell columnIndexMap row "経度") /\
  is_missing (ep_pointId point) = false /\
  is_missing (ep_name point) = false /\
  isNaN (ep_lat point) = false /\ isNaN (ep_lng point) = false /\
  num_lt (ep_lat point) (num_of_Q (-90)) = false /\
  num_lt (num_of_Q 90) (ep_lat point) = false /\
  num_lt (ep_lng point) (num_of_Q (-180)) = false /\
  num_lt (num_of_Q 180) (ep_lng point) = false.
Proof.
  unfold convert_row. destruct row as [|v row]; [discriminate|].
  set (r := v :: row). unfold requiredColumns, optionalColumns. cbn [foldl].
  unfold read_required at 4. cbv zeta.
  destruct (is_missing (cell columnIndexMap r "ポイントID")) eqn:E1; [discriminate|].
  unfold read_required at 3. cbv zeta.
  destruct (is_missing (cell columnIndexMap r "名称")) eqn:E2; [discriminate|].
  unfold read_required at 2. cbv zeta.
  destruct (is_missing (cell columnIndexMap r "緯度")) eqn:E3; [discriminate|].
  unfold read_required at 1. cbv zeta.
  destruct (is_missing (cell columnIndexMap r "経度")) eqn:E4; [discriminate|].
  rewrite !read_optional_other by discriminate.
  repeat (rewrite lookup_insert_eq || rewrite lookup_insert_ne by discriminate).
  cbn [default from_option id].
  destruct (isNaN (parseFloat (cell columnIndexMap r "緯度"))) eqn:N1; [discriminate|].
  destruct (isNaN (parseFloat (cell columnIndexMap r "経度"))) eqn:N2; [discriminate|].
  cbn [orb].
  destruct (num_lt (parseFloat (cell columnIndexMap r "緯度")) (num_of_Q (-90))) eqn:R1;
    [discriminate|].
  destruct (num_lt (num_of_Q 90) (parseFloat (cell columnIndexMap r "緯度"))) eqn:R2;
    [discriminate|].
  destruct (num_lt (parseFloat (cell columnIndexMap r "経度")) (num_of_Q (-180))) eqn:R3;
    [discriminate|].
  destruct (num_lt (num_of_Q 180) (parseFloat (cell columnIndexMap r "経度"))) eqn:R4;
    [discriminate|].
  cbn [orb]. intros [= <-]. cbn. auto 15.
Qed.

End ExcelProperties.

(** The cell of a row under the header cell that names the column. *)
Definition cell_under {T : Type} (headerRow row : list (JSValue T)) (column : string)
  : JSValue T :=
  match indexOf headerRow column with
  | Some index => js_index row index
  | None => VUndefined
  end.

(** X24.  Every point the spreadsheet validation returns is usable: the
    header names the four required columns, each point comes from a data
    row, its identifier and name are the cells under these headers and
    are present, and its latitude and longitude are what [parseFloat]
    reads from their cells, are numbers, and lie in [-90, 90] and
    [-180, 180].  No more points are returned than there are data rows. *)
Theorem validated_points_are_usable (T : Type) (N : JSNumber T)
    (parseFloat : JSValue T -> T) (isNaN : T -> bool)
    (rawData : option (list (option (list (JSValue T)))))
    (validated : list (ExcelPoint T)) :
  validateAndConvertExcelData parseFloat isNaN rawData = Return validated ->
  exists headerRow rows,
    rawData = Some (Some headerRow :: rows) /\
    (forall column, column ∈ requiredColumns -> VString column ∈ headerRow) /\
    length validated <= length rows /\
    Forall (fun point =>
              exists row, Some row ∈ rows /\
                ep_pointId point = cell_under headerRow row "ポイントID" /\
                ep_name point = cell_under headerRow row "名称" /\
                ep_lat point = parseFloat (cell_under headerRow row "緯度") /\
                ep_lng point = parseFloat (cell_under headerRow row "経度") /\
                is_missing (ep_pointId point) = false /\
                is_missing (ep_name point) = false /\
                isNaN (ep_lat point) = false /\ isNaN (ep_lng point) = false /\
                num_lt (ep_lat point) (num_of_Q (-90)) = false /\
                num_lt (num_of_Q 90) (ep_lat point) = false /\
                num_lt (ep_lng point) (num_of_Q (-180)) = false /\
                num_lt (num_of_Q 180) (ep_lng point) = false)
           validated.
Proof.
  unfold validateAndConvertExcelData.
  destruct rawData as [[|[[|h0 headerRow]|] rows]|]; try discriminate.
  set (header := h0 :: headerRow).
  pose proof (build_columnIndexMap_cases header) as Hmap.
  destruct (build_columnIndexMap header) as [columnIndexMap|] eqn:Em; [|discriminate].
  intros [= <-]. exists header, rows. split; [reflexivity|].
  destruct (indexOf header "ポイントID") as [a|] eqn:Ea; [|discriminate].
  destruct (indexOf header "名称") as [b|] eqn:Eb; [|discriminate].
  destruct (indexOf header "緯度") as [c|] eqn:Ec; [|discriminate].
  destruct (indexOf header "経度") as [d|] eqn:Ed; [|discriminate].
  destruct Hmap as (m & [= <-] & Hm).
  assert (Hcell : forall row column, column ∈ requiredColumns ->
            cell columnIndexMap row column = cell_under header row column).
  { intros row column Hin. unfold cell, cell_under. rewrite Hm; [reflexivity|].
    unfold allColumns. apply elem_of_app. left. exact Hin. }
  split; [|split].
  - intros column Hin. unfold requiredColumns in Hin.
    repeat (apply elem_of_cons in Hin as [->|Hin]);
      try (eapply indexOf_Some; eassumption).
    apply elem_of_nil in Hin. contradiction.
  - apply omap_length_le.
  - apply Forall_forall. intros point Hp.
    apply list_elem_of_omap in Hp as ([row|] & Hrow & Hc); [|discriminate].
    apply (convert_row_Some parseFloat isNaN) in Hc.
    exists row. split; [exact Hrow|].
    rewrite <- !Hcell by (unfold requiredColumns; repeat constructor).
    exact Hc.
Qed.

(** X25.  The validation rejects a sheet exactly when it has no rows,
    when its first row is missing or empty, or when the header lacks one
    of the four required columns; the optional columns may be absent, and
    unusable data rows are skipped without rejecting the sheet. *)
Theorem sheet_rejected (T : Type) (N : JSNumber T)
    (parseFloat : JSValue T -> T) (isNaN : T -> bool)
    (rawData : option (list (option (list (JSValue T))))) :
  validateAndConvertExcelData parseFloat isNaN rawData = Throw <->
  match rawData with
  | None | Some [] | Some (None :: _) => True
  | Some (Some headerRow :: _) =>
    exists column, column ∈ requiredColumns /\ VString column ∉ headerRow
  end.
Proof.
  unfold validateAndConvertExcelData.
  destruct rawData as [[|[headerRow|] rows]|]; try (split; auto; fail).
  destruct headerRow as [|h0 headerRow].
  { split; [|reflexivity]. intros _. exists "ポイントID".
    split; [left | apply not_elem_of_nil]. }
  set (header := h0 :: headerRow).
  pose proof (build_columnIndexMap_cases header) as Hmap.
  assert (Hmissing : forall column, column ∈ requiredColumns ->
            indexOf header column = None ->
            exists column, column ∈ requiredColumns /\ VString column ∉ header).
  { intros column Hin Hn. exists column. split; [exact Hin|]. apply indexOf_None, Hn. }
  destruct (indexOf header "ポイントID") as [a|] eqn:Ea;
    [|rewrite Hmap; split; [intros _; apply (Hmissing "ポイントID");
                            [unfold requiredColumns; repeat constructor | exact Ea] | reflexivity]].
  destruct (indexOf header "名称") as [b|] eqn:Eb;
    [|rewrite Hmap; split; [intros _; apply (Hmissing "名称");
                            [unfold requiredColumns; repeat constructor | exact Eb] | reflexivity]].
  destruct (indexOf header "緯度") as [c|] eqn:Ec;
    [|rewrite Hmap; split; [intros _; apply (Hmissing "緯度");
                            [unfold requiredColumns; repeat constructor | exact Ec] | reflexivity]].
  destruct (indexOf header "経度") as [d|] eqn:Ed;
    [|rewrite Hmap; split; [intros _; apply (Hmissing "経度");
                            [unfold requiredColumns; repeat constructor | exact Ed] | reflexivity]].
  destruct Hmap as (m & -> & _). split; [discriminate|].
  intros (column & Hin & Hnot). exfalso. apply Hnot.
  unfold requiredColumns in Hin.
  repeat (apply elem_of_cons in Hin as [->|Hin]);
    try (eapply indexOf_Some; eassumption).
  apply elem_of_nil in Hin. contradiction.
Qed.

(** A sheet with a usable row, a row whose latitude is out of range and
    a row without name; numbers are read from number cells. *)
Definition number_cell (v : JSValue float) : float :=
  match v with VNumber x => x | _ => num_nan end.

Definition sample_sheet : option (list (option (list (JSValue float)))) :=
  Some [ Some [VString "ポイントID"; VString "名称"; VString "緯度"; VString "経度";
               VString "標高"];
         Some [VString "A-01"; VString "Summit"; VNumber 35%float; VNumber 135%float;
               VNumber 120%float];
         Some [VString "A-02"; VString "Pass"; VNumber 95%float; VNumber 135%float];
         Some [VString "A-03"; VString ""; VNumber 35%float; VNumber 135%float] ].

Lemma validated_points_are_usable_witness :
  exists validated,
    validateAndConvertExcelData number_cell float_is_nan sample_sheet = Return validated /\
    map ep_pointId validated = [VString "A-01"] /\
    Forall (fun point => num_lt (num_of_Q 90) (ep_lat point) = false) validated.
Proof.
  destruct (validateAndConvertExcelData number_cell float_is_nan sample_sheet)
    as [validated|] eqn:Hv; [|exfalso; revert Hv; vm_compute; discriminate].
  exists validated. split; [reflexivity|]. split.
  - vm_compute in Hv. injection Hv as <-. reflexivity.
  - destruct (validated_points_are_usable float _ number_cell float_is_nan
                sample_sheet validated Hv) as (headerRow & rows & _ & _ & _ & Hall).
    apply Forall_forall. intros point Hp.
    destruct (proj1 (Forall_forall _ _) Hall point Hp)
      as (row & _ & _ & _ & _ & _ & _ & _ & _ & _ & _ & Hle & _). exact Hle.
Defined.

(** ** The latest marker of each spot (app-main.js) *)

Section LatestSpots.
Context {T : Type} {N : JSNumber T}.

(** A spot marker with the properties of its [__meta] that
    getLatestSpots reads; a marker without [__meta] has neither. *)
Record SpotMarker : Type := mkSpotMarker {
  sm_spotId : option string;
  sm_timestamp : option T;
  sm_marker : Marker T
}.

(** A [Map] with string keys: the entries in insertion order. *)
Fixpoint map_get {V : Type} (m : list (string * V)) (key : string) : option V :=
  match m with
  | [] => None
  | (k, v) :: rest => if String.eqb k key then Some v else map_get rest key
  end.

(** [map.set(key, value)]: an existing key keeps its place. *)
Fixpoint map_set {V : Type} (m : list (string * V)) (key : string) (value : V)
  : list (string * V) :=
  match m with
  | [] => [(key, value)]
  | (k, v) :: rest =>
    if String.eqb k key then (k, value) :: rest else (k, v) :: map_set rest key value
  end.

(** The body of the loop over the markers. *)
Definition keep_latest (latestSpotsMap : list (string * SpotMarker)) (marker : SpotMarker)
  : list (string * SpotMarker) :=
  match sm_spotId marker with
  | Some spotId =>
    if negb (String.eqb spotId "") then
      let timestamp :=
        if opt_truthy (sm_timestamp marker) then opt_num (sm_timestamp marker)
        else num_of_Q 0 in
      match map_get latestSpotsMap spotId with
      | None => map_set latestSpotsMap spotId marker
      | Some stored =>
        if num_lt (opt_num (sm_timestamp stored)) timestamp
        then map_set latestSpotsMap spotId marker
        else latestSpotsMap
      end
    else latestSpotsMap
  | None => latestSpotsMap
  end.

Definition getLatestSpots (spotMarkers : list SpotMarker) : list SpotMarker :=
  map snd (foldl keep_latest [] spotMarkers).

(** *** The map *)

Lemma map_get_set_eq {V : Type} (m : list (string * V)) (key : string) (value : V) :
  map_get (map_set m key value) key = Some value.
Proof.
  induction m as [|[k v] rest IH]; simpl; [rewrite String.eqb_refl; reflexivity|].
  destruct (String.eqb k key) eqn:E; simpl; rewrite E; [reflexivity | exact IH].
Qed.

Lemma map_get_set_ne {V : Type} (m : list (string * V)) (key key' : string) (value : V) :
  key' <> key -> map_get (map_set m key value) key' = map_get m key'.
Proof.
  intros Hne. induction m as [|[k v] rest IH]; simpl.
  - destruct (String.eqb key key') eqn:E; [|reflexivity].
    apply String.eqb_eq in E. congruence.
  - destruct (String.eqb k key) eqn:E; simpl; [|rewrite IH; reflexivity].
    apply String.eqb_eq in E. subst k.
    destruct (String.eqb key key') eqn:E'; [|reflexivity].
    apply String.eqb_eq in E'. congruence.
Qed.

Lemma map_get_key {V : Type} (m : list (string * V)) (key : string) :
  map_get m key = None <-> key ∉ map fst m.
Proof.
  induction m as [|[k v] rest IH]; simpl.
  - split; [intros _; apply not_elem_of_nil | reflexivity].
  - destruct (String.eqb k key) eqn:E.
    + apply String.eqb_eq in E. subst k. split; [discriminate|].
      intros H. exfalso. apply H. left.
    + apply String.eqb_neq in E. rewrite IH, not_elem_of_cons. split; [auto|].
      intros [_ H]. exact H.
Qed.

Lemma map_set_keys {V : Type} (m : list (string * V)) (key : string) (value : V) :
  map fst (map_set m key value)
  = match map_get m key with Some _ => map fst m | None => map fst m ++ [key] end.
Proof.
  induction m as [|[k v] rest IH]; simpl; [reflexivity|].
  destruct (String.eqb k key) eqn:E; simpl; [reflexivity|].
  rewrite IH. destruct (map_get rest key); reflexivity.
Qed.

Lemma map_set_NoDup {V : Type} (m : list (string * V)) (key : string) (value : V) :
  NoDup (map fst m) -> NoDup (map fst (map_set m key value)).
Proof.
  intros Hnd. rewrite map_set_keys. destruct (map_get m key) eqn:E; [exact Hnd|].
  apply NoDup_app. split; [exact Hnd|]. split; [|apply NoDup_singleton].
  intros x Hx Hk. apply list_elem_of_singleton in Hk. subst x.
  apply map_get_key in E. contradiction.
Qed.

Lemma map_get_elem {V : Type} (m : list (string * V)) (key : string) (value : V) :
  map_get m key = Some value -> (key, value) ∈ m.
Proof.
  induction m as [|[k v] rest IH]; simpl; [discriminate|].
  destruct (String.eqb k key) eqn:E.
  - apply String.eqb_eq in E. subst k. intros [= <-]. left.
  - intros H. right. exact (IH H).
Qed.

Lemma map_elem_get {V : Type} (m : list (string * V)) (key : string) (value : V) :
  NoDup (map fst m) -> (key, value) ∈ m -> map_get m key = Some value.
Proof.
  induction m as [|[k v] rest IH]; intros Hnd Hin; [apply elem_of_nil in Hin; contradiction|].
  cbn [map fst] in Hnd. apply NoDup_cons in Hnd as [Hk Hnd]. simpl.
  apply elem_of_cons in Hin as [[= <- <-]|Hin].
  - rewrite String.eqb_refl. reflexivity.
  - destruct (String.eqb k key) eqn:E; [|exact (IH Hnd Hin)].
    apply String.eqb_eq in E. subst k. exfalso. apply Hk.
    apply list_elem_of_fmap. exists (key, value). auto.
Qed.

(** *** What the loop keeps *)

(** The markers seen so far and the map agree: the keys are distinct,
    every entry is a marker seen under its own usable identifier, and
    every such identifier seen has an entry. *)
Definition latest_invariant (seen : list SpotMarker) (m : list (string * SpotMarker)) : Prop :=
  NoDup (map fst m) /\
  (forall key stored, map_get m key = Some stored ->
     stored ∈ seen /\ sm_spotId stored = Some key /\ key <> "") /\
  (forall marker key, marker ∈ seen -> sm_spotId marker = Some key -> key <> "" ->
     is_Some (map_get m key)).

Lemma keep_latest_invariant (seen : list SpotMarker) (m : list (string * SpotMarker))
    (marker : SpotMarker) :
  latest_invariant seen m -> latest_invariant (seen ++ [marker]) (keep_latest m marker).
Proof.
  intros (Hnd & Hin & Hall).
  assert (Hskip : (forall key, sm_spotId marker = Some key -> key <> "" ->
                               is_Some (map_get m key)) ->
                  latest_invariant (seen ++ [marker]) m).
  { intros Hm. split; [exact Hnd|]. split.
    - intros key stored Hs. destruct (Hin key stored Hs) as (H1 & H2 & H3).
      split; [apply elem_of_app; left; exact H1 | auto].
    - intros x key Hx Hid Hk. apply elem_of_app in Hx as [Hx|Hx].
      + exact (Hall x key Hx Hid Hk).
      + apply list_elem_of_singleton in Hx. subst x. exact (Hm key Hid Hk). }
  assert (Hset : forall spotId, sm_spotId marker = Some spotId -> spotId <> "" ->
                   latest_invariant (seen ++ [marker]) (map_set m spotId marker)).
  { intros spotId Hid Hk. split; [apply map_set_NoDup, Hnd|]. split.
    - intros key stored Hs. destruct (decide (key = spotId)) as [->|Hne].
      + rewrite map_get_set_eq in Hs. injection Hs as <-.
        split; [apply elem_of_app; right; left | auto].
      + rewrite map_get_set_ne in Hs by exact Hne.
        destruct (Hin key stored Hs) as (H1 & H2 & H3).
        split; [apply elem_of_app; left; exact H1 | auto].
    - intros x key Hx Hidx Hkx. destruct (decide (key = spotId)) as [->|Hne].
      + rewrite map_get_set_eq. eauto.
      + rewrite map_get_set_ne by exact Hne.
        apply elem_of_app in Hx as [Hx|Hx]; [exact (Hall x key Hx Hidx Hkx)|].
        apply list_elem_of_singleton in Hx. subst x. congruence. }
  unfold keep_latest.
  destruct (sm_spotId marker) as [spotId|] eqn:Hid; [|apply Hskip; discriminate].
  destruct (String.eqb spotId "") eqn:Ek; cbn [negb].
  - apply String.eqb_eq in Ek. subst spotId. apply Hskip. intros key [= <-] Hk. congruence.
  - apply String.eqb_neq in Ek. cbv zeta.
    destruct (map_get m spotId) as [stored|] eqn:Hg; [|apply (Hset spotId eq_refl Ek)].
    destruct (num_lt _ _); [apply (Hset spotId eq_refl Ek)|].
    apply Hskip. intros key [= <-] _. rewrite Hg. eauto.
Qed.

Lemma latest_loop_invariant (spotMarkers seen : list SpotMarker)
    (m : list (string * SpotMarker)) :
  latest_invariant seen m ->
  latest_invariant (seen ++ spotMarkers) (foldl keep_latest m spotMarkers).
Proof.
  revert seen m. induction spotMarkers as [|marker rest IH]; intros seen m Hinv.
  - rewrite app_nil_r. exact Hinv.
  - simpl. replace (seen ++ marker :: rest) with ((seen ++ [marker]) ++ rest)
      by (rewrite <- app_assoc; reflexivity).
    apply IH, keep_latest_invariant, Hinv.
Qed.

End LatestSpots.

Arguments SpotMarker : clear implicits.

(** X27.  [getLatestSpots] returns one marker for each spot, in every
    number model: no two of the markers it returns carry the same spot
    identifier, each of them is one of the given markers and carries a
    usable identifier, and every usable identifier among the given
    markers is represented. *)
Theorem getLatestSpots_one_per_spot (T : Type) (N : JSNumber T)
    (spotMarkers : list (SpotMarker T)) :
  NoDup (map sm_spotId (getLatestSpots spotMarkers)) /\
  (forall marker, marker ∈ getLatestSpots spotMarkers ->
     marker ∈ spotMarkers /\ str_truthy (sm_spotId marker) = true) /\
  (forall marker, marker ∈ spotMarkers -> str_truthy (sm_spotId marker) = true ->
     exists kept, kept ∈ getLatestSpots spotMarkers /\ sm_spotId kept = sm_spotId marker).
Proof.
  destruct (latest_loop_invariant spotMarkers [] [])
    as (Hnd & Hin & Hall).
  { split; [apply NoDup_nil; exact I|]. split; [intros key stored; discriminate|].
    intros marker key Hm. apply elem_of_nil in Hm. contradiction. }
  cbn [app] in Hin, Hall. unfold getLatestSpots.
  set (m := foldl keep_latest [] spotMarkers) in *.
  assert (Hentry : forall key stored, (key, stored) ∈ m ->
            stored ∈ spotMarkers /\ sm_spotId stored = Some key /\ key <> "").
  { intros key stored He. apply Hin, map_elem_get; assumption. }
  split; [|split].
  - assert (Hids : map sm_spotId (map snd m) = map Some (map fst m)).
    { rewrite !map_map. apply map_ext_in. intros [key stored] He. cbn [fst snd].
      apply list_elem_of_In in He. apply Hentry in He as (_ & H & _). exact H. }
    rewrite Hids. apply NoDup_fmap; [intros a b [= ->]; reflexivity | exact Hnd].
  - intros marker Hm. apply list_elem_of_fmap in Hm as ([key stored] & -> & He).
    cbn [snd]. destruct (Hentry key stored He) as (H1 & H2 & H3).
    split; [exact H1|]. rewrite H2. cbn. apply negb_true_iff, String.eqb_neq, H3.
  - intros marker Hm Ht. destruct (sm_spotId marker) as [key|] eqn:Hid; [|discriminate].
    cbn in Ht. apply negb_true_iff, String.eqb_neq in Ht.
    destruct (Hall marker key Hm Hid Ht) as [kept Hk].
    exists kept. split.
    + apply list_elem_of_fmap. exists (key, kept). split; [reflexivity|].
      apply map_get_elem, Hk.
    + apply Hin in Hk as (_ & H & _). exact H.
Qed.

Section FirstMarkers.
Context {T : Type} {N : JSNumber T}.

(** A marker as the program builds it: its [__meta] carries no
    timestamp. *)
Definition untimed (marker : SpotMarker T) : Prop := sm_timestamp marker = None.

(** The first marker of each usable spot identifier, in the order in
    which the identifiers first appear; [seen] holds the identifiers met
    so far. *)
Fixpoint first_of_each (seen : list string) (spotMarkers : list (SpotMarker T))
  : list (SpotMarker T) :=
  match spotMarkers with
  | [] => []
  | marker :: rest =>
    match sm_spotId marker with
    | Some spotId =>
      if negb (String.eqb spotId "") && negb (existsb (fun k => String.eqb k spotId) seen)
      then marker :: first_of_each (seen ++ [spotId]) rest
      else first_of_each seen rest
    | None => first_of_each seen rest
    end
  end.

Lemma map_get_keys {V : Type} (m : list (string * V)) (key : string) :
  existsb (fun k => String.eqb k key) (map fst m)
  = match map_get m key with Some _ => true | None => false end.
Proof.
  induction m as [|[k v] m IH]; simpl; [reflexivity|].
  destruct (String.eqb k key); simpl; [reflexivity | exact IH].
Qed.

Lemma map_set_new {V : Type} (m : list (string * V)) (key : string) (value : V) :
  map_get m key = None -> map_set m key value = m ++ [(key, value)].
Proof.
  induction m as [|[k v] m IH]; simpl; [reflexivity|].
  destruct (String.eqb k key); [discriminate|]. intros H. rewrite (IH H). reflexivity.
Qed.

Lemma map_get_stored {V : Type} (P : V -> Prop) (m : list (string * V)) (key : string)
    (stored : V) :
  Forall P (map snd m) -> map_get m key = Some stored -> P stored.
Proof.
  induction m as [|[k v] m IH]; simpl; [discriminate|].
  intros Hall. apply Forall_cons in Hall as [Hv Hm].
  destruct (String.eqb k key); [intros [= <-]; exact Hv | apply IH, Hm].
Qed.

(** A comparison with NaN is false. *)
Hypothesis nan_not_below_zero : num_lt (num_nan (T := T)) (num_of_Q 0) = false.

Lemma keep_latest_untimed (m : list (string * SpotMarker T)) (marker : SpotMarker T) :
  Forall untimed (map snd m) -> untimed marker ->
  keep_latest m marker
  = match sm_spotId marker with
    | Some spotId =>
      if negb (String.eqb spotId "") && negb (existsb (fun k => String.eqb k spotId) (map fst m))
      then m ++ [(spotId, marker)]
      else m
    | None => m
    end.
Proof.
  intros Hm Hu. unfold keep_latest. destruct (sm_spotId marker) as [spotId|]; [|reflexivity].
  destruct (negb (String.eqb spotId "")); [|reflexivity]. cbn [andb].
  rewrite map_get_keys. cbv zeta.
  destruct (map_get m spotId) as [stored|] eqn:Hg.
  - cbn [negb].
    rewrite Hu, (map_get_stored untimed m spotId stored Hm Hg).
    cbn [opt_truthy opt_num]. rewrite nan_not_below_zero. reflexivity.
  - cbn [negb]. apply map_set_new, Hg.
Qed.

Lemma latest_loop_untimed (spotMarkers : list (SpotMarker T)) :
  forall m : list (string * SpotMarker T),
  Forall untimed (map snd m) -> Forall untimed spotMarkers ->
  map snd (foldl keep_latest m spotMarkers)
  = map snd m ++ first_of_each (map fst m) spotMarkers.
Proof.
  induction spotMarkers as [|marker rest IH]; intros m Hm Hl.
  - simpl. rewrite app_nil_r. reflexivity.
  - apply Forall_cons in Hl as [Hu Hrest]. cbn [foldl first_of_each].
    rewrite (keep_latest_untimed m marker Hm Hu).
    destruct (sm_spotId marker) as [spotId|]; [|apply IH; assumption].
    destruct (negb (String.eqb spotId "") &&
              negb (existsb (fun k => String.eqb k spotId) (map fst m)));
      [|apply IH; assumption].
    rewrite IH; [| |exact Hrest].
    + rewrite !map_app. cbn [map fst snd]. rewrite <- app_assoc. reflexivity.
    + rewrite map_app. apply Forall_app. split; [exact Hm|].
      cbn [map snd]. apply Forall_cons. split; [exact Hu | apply Forall_nil; exact I].
Qed.

Lemma getLatestSpots_untimed (spotMarkers : list (SpotMarker T)) :
  Forall untimed spotMarkers ->
  getLatestSpots spotMarkers = first_of_each [] spotMarkers.
Proof.
  intros Hl. unfold getLatestSpots.
  apply (latest_loop_untimed spotMarkers []); [apply Forall_nil; exact I | exact Hl].
Qed.

End FirstMarkers.

(** X28.  For markers as the program builds them, without a timestamp in
    their [__meta], [getLatestSpots] keeps the first marker of each spot:
    it returns, in the order in which the spot identifiers first appear,
    the first of the given markers that carries each usable identifier.
    This holds in every number model in which NaN is not below zero, and
    so in double precision. *)
Theorem getLatestSpots_keeps_first :
  (forall (T : Type) (N : JSNumber T) (spotMarkers : list (SpotMarker T)),
     num_lt (num_nan (T := T)) (num_of_Q 0) = false ->
     Forall untimed spotMarkers ->
     getLatestSpots spotMarkers = first_of_each [] spotMarkers) /\
  (forall spotMarkers : list (SpotMarker float),
     Forall untimed spotMarkers ->
     getLatestSpots spotMarkers = first_of_each [] spotMarkers).
Proof.
  split; [intros T N spotMarkers Hnan; apply getLatestSpots_untimed, Hnan|].
  intros spotMarkers. apply getLatestSpots_untimed. vm_compute. reflexivity.
Qed.

(** A spot marker as loaded from a file: a position and a name. *)
Definition sample_spot_marker (spotId : string) (la lo : Q) : SpotMarker float :=
  {| sm_spotId := Some spotId; sm_timestamp := None;
     sm_marker := {| m_latlng := (num_of_Q la, num_of_Q lo); m_meta := None |} |}.

(** Of two reports of the hut the first one is kept. *)
Lemma getLatestSpots_keeps_first_witness :
  getLatestSpots [sample_spot_marker "hut" 35 135; sample_spot_marker "spring" 36 136;
                  sample_spot_marker "hut" 37 137]
  = [sample_spot_marker "hut" 35 135; sample_spot_marker "spring" 36 136].
Proof.
  destruct getLatestSpots_keeps_first as [_ Hfirst].
  rewrite Hfirst; [reflexivity|].
  repeat (apply List.Forall_cons; [reflexivity|]). apply List.Forall_nil.
Defined.

(** ** The two pixel-to-position conversions (math-utils.js, coordinate-display.js) *)

Section FromBounds.
Context {T : Type} {N : JSNumber T}.

(** [fallbackCenter] is [None] for the default [null]. *)
Definition convertImageToLatLngFromBounds (imageX imageY : T)
    (imageBounds : option (LatLngBounds T)) (imageWidth imageHeight : option T)
    (fallbackCenter : option (T * T)) : option (T * T) :=
  if match imageBounds with Some _ => false | None => true end
     || negb (opt_truthy imageWidth) || negb (opt_truthy imageHeight)
  then
    match fallbackCenter with
    | Some center => Some (center_fallback center imageX imageY)
    | None => None
    end
  else convertImageCoordsToGps imageX imageY imageBounds imageWidth imageHeight.

End FromBounds.

(** X29.  [convertImageToLatLng] always yields a position, in every
    number model and whatever the state of the overlay, so that its
    callers may hand the result to a marker without a test: it never
    returns null.  It is [convertImageToLatLngFromBounds] given the
    bounds of the displayed image, the pixel size of the image and the
    initial centre of the map as fallback; without a fallback centre
    [convertImageToLatLngFromBounds] is [convertImageCoordsToGps]. *)
Theorem convertImageToLatLng_total (T : Type) (N : JSNumber T)
    (overlay : ImageOverlay T) (imageX imageY : T) :
  (exists position, convertImageToLatLng overlay imageX imageY = Some position) /\
  convertImageToLatLng overlay imageX imageY
  = convertImageToLatLngFromBounds imageX imageY
      (match io_layer overlay with Some imageBounds => imageBounds | None => None end)
      (Some (num_or (io_naturalWidth overlay) (io_width overlay)))
      (Some (num_or (io_naturalHeight overlay) (io_height overlay)))
      (Some (io_initialCenter overlay)) /\
  (forall imageBounds imageWidth imageHeight,
     convertImageToLatLngFromBounds imageX imageY imageBounds imageWidth imageHeight None
     = convertImageCoordsToGps imageX imageY imageBounds imageWidth imageHeight).
Proof.
  assert (Heq : convertImageToLatLng overlay imageX imageY
                = convertImageToLatLngFromBounds imageX imageY
                    (match io_layer overlay with Some b => b | None => None end)
                    (Some (num_or (io_naturalWidth overlay) (io_width overlay)))
                    (Some (num_or (io_naturalHeight overlay) (io_height overlay)))
                    (Some (io_initialCenter overlay))).
  { unfold convertImageToLatLng, convertImageToLatLngFromBounds.
    destruct (io_layer overlay) as [[b|]|]; reflexivity. }
  split; [|split; [exact Heq|]].
  - rewrite Heq. unfold convertImageToLatLngFromBounds, convertImageCoordsToGps.
    destruct (io_layer overlay) as [[b|]|]; cbn [orb]; eauto.
    destruct (negb _ || negb _); eauto.
  - intros imageBounds imageWidth imageHeight.
    unfold convertImageToLatLngFromBounds, convertImageCoordsToGps.
    destruct imageBounds as [b|]; cbn [orb]; [|reflexivity].
    destruct (negb _ || negb _); reflexivity.
Qed.

(** ** Matrix times vector as a matrix product (math-utils.js) *)

Section ColumnProduct.
Context {T : Type} {N : JSNumber T}.

(** The vector as a matrix of one column. *)
Definition column (v : list T) : list (list T) := map (fun x => [x]) v.

Lemma column_entry (v : list T) (k : nat) : aget (mget (column v) k) 0 = aget v k.
Proof.
  unfold aget, mget, column. revert k.
  induction v as [|x v IH]; intros [|k]; simpl; try reflexivity. apply IH.
Qed.

Lemma reduce_as_loop (g : T -> nat -> T -> T) (l : list T) :
  forall (P : list T) (a : T),
  foldl (fun sum iv => g sum (fst iv) (snd iv)) a (imap (fun i x => (length P + i, x)) l)
  = foldl (fun acc k => g acc k (aget (P ++ l) k)) a (seq (length P) (length l)).
Proof.
  induction l as [|x l IH]; intros P a; [reflexivity|].
  cbn [imap foldl length seq fst snd]. rewrite Nat.add_0_r.
  rewrite (aget_middle P x l (length P) eq_refl).
  rewrite (imap_ext _ (fun i y => (length (P ++ [x]) + i, y)) l)
    by (intros; simpl; rewrite length_app; simpl; f_equal; lia).
  rewrite (IH (P ++ [x])). rewrite length_app, <- app_assoc. cbn [length app].
  rewrite Nat.add_1_r. reflexivity.
Qed.

Lemma row_dot_as_loop (row v : list T) :
  row_dot row v
  = foldl (fun acc k => num_add acc (num_mul (aget row k) (aget (mget (column v) k) 0)))
          (num_of_Q 0) (seq 0 (length row)).
Proof.
  unfold row_dot.
  rewrite (imap_ext (fun i val => (i, val)) (fun i x => (length (@nil T) + i, x)) row)
    by reflexivity.
  rewrite (reduce_as_loop (fun sum i val => num_add sum (num_mul val (aget v i))) row [] _).
  cbn [app length]. apply foldl_ext_all. intros acc k. rewrite column_entry. reflexivity.
Qed.

End ColumnProduct.

(** X30.  [multiplyVector] is the matrix product with a single column,
    number for number: for a non-empty rectangular matrix and a vector
    with one entry per column, [multiplyVector] returns a vector, and
    [multiply] applied to the matrix and the vector written as a column
    returns that same vector as a column, in every number model, the
    sums being formed in the same order. *)
Theorem multiplyVector_is_column_product (T : Type) (N : JSNumber T)
    (r c : nat) (A : list (list T)) (v : list T) :
  rectangular r c A -> 0 < r -> 0 < c -> length v = c ->
  exists result,
    multiplyVector (Some A) (Some v) = Return (Some result) /\
    length result = r /\
    multiply (Some A) (Some (column v)) = Some (column result).
Proof.
  intros [Hr Hrows] Hr0 Hc0 Hv.
  destruct A as [|row0 rest]; [simpl in Hr; lia|].
  exists (map (fun row => row_dot row v) (row0 :: rest)).
  assert (H0 : length row0 = c) by (apply Forall_cons in Hrows as [H _]; exact H).
  split; [|split].
  - unfold multiplyVector. rewrite H0, Hv, Nat.eqb_refl. reflexivity.
  - rewrite length_map. exact Hr.
  - set (M := row0 :: rest) in *.
    assert (Hlen : length (column v) = c) by (unfold column; rewrite length_map; exact Hv).
    assert (Hcol : length (mget (column v) 0) = 1).
    { destruct v as [|v0 v']; [simpl in Hv; lia | reflexivity]. }
    assert (Hfirst : length (mget M 0) = c) by exact H0.
    assert (HM : (length M =? 0) = false) by (apply Nat.eqb_neq; lia).
    assert (Hb : (length (column v) =? 0) = false) by (apply Nat.eqb_neq; lia).
    unfold multiply. rewrite HM, Hb, Hfirst, Hlen, Nat.eqb_refl, Hcol.
    cbn [orb negb seq]. f_equal.
    unfold column at 2. rewrite map_map. apply map_ext_in. intros row Hin.
    assert (Hrow : length row = c).
    { apply list_elem_of_In in Hin. exact (proj1 (Forall_forall _ _) Hrows row Hin). }
    cbn [map]. f_equal. rewrite (row_dot_as_loop row v), Hrow. reflexivity.
Qed.

Lemma multiplyVector_is_column_product_witness :
  exists result,
    multiplyVector (Some [[1; 2; 3]; [4; 5; 6]]%float) (Some [1; 0; 2]%float)
    = Return (Some result) /\
    length result = 2 /\
    multiply (Some [[1; 2; 3]; [4; 5; 6]]%float) (Some (column [1; 0; 2]%float))
    = Some (column result).
Proof.
  apply (multiplyVector_is_column_product float _ 2 3).
  - split; [reflexivity | repeat constructor].
  - lia.
  - lia.
  - reflexivity.
Defined.
